(** * HLSLAnalyzer: the context analyzer of the HLSL translator

    A shallow embedding of [src/HLSLAnalyzer.cpp].  The analyzer walks the
    syntax tree of a shader once, keeps a scoped symbol table, and writes
    flags, alias names and symbol references into the nodes of the tree.

    The tree is mutated in place and nodes are reached through raw pointers
    (the symbol table and [VarType::symbolRef] hold [AST*]), so the embedding
    separates the shape of the tree, which the analyzer never changes, from
    the fields it writes: those live in a store indexed by node address. *)

From stdpp Require Import gmap strings list.

#[local] Set Warnings "-clear-no-such-hyp".


(** ** Nodes of the tree *)

Definition addr := nat.

(** The part of [struct AST] the analyzer uses: where the node lives and the
    text [pos.ToString()] gives for its position. *)
Record AST := mkAST { address : addr; pos : string }.

(** [AST::Types], the tag [Type()] returns.  The file names three of its
    members; the variants with a visit function here are listed, the remaining
    ones are numbered. *)
Inductive Types :=
  | T_Program | T_CodeBlock | T_FunctionCall | T_Structure
  | T_FunctionDecl | T_BufferDecl | T_StructDecl
  | T_VarDeclStmnt | T_CtrlTransferStmnt
  | T_PackOffset | T_VarSemantic | T_VarType | T_VarIdent | T_VarDecl
  | T_Other (tag : nat).

Global Instance Types_eq_dec : EqDecision Types.
Proof. solve_decision. Defined.

(** An [AST*]: the address of a node together with its dynamic type. *)
Record ASTPtr := mkPtr { ptr_addr : addr; ptr_type : Types }.

Global Instance ASTPtr_eq_dec : EqDecision ASTPtr.
Proof. solve_decision. Defined.

(** [Node] is what [Visit] dispatches on: any variant may stand where the
    analyzer only calls [Visit].  Children the analyzer reads fields of keep
    their static type.  A [None] is a null child pointer; the return type of
    a function and the type of a declaration statement are dereferenced
    without a check and are always there.

    Modelled from the spec: the Visitor base class, which handles the variants
    without a visit function in this file (expressions, attributes, the other
    statements and declarations), is not part of the file.  The spec lists
    them as "not individually decorated", so their handler changes nothing by
    itself; [NOther tag visited] is such a node, and [visited] are the
    children its handler passes on to [Visit], in order (none of them if the
    base handlers are empty, all of them if the base class traverses). *)
#[local] Unset Elimination Schemes.

Inductive Node : Type :=
  | NCodeBlock (cb : CodeBlock)
  | NFunctionCall (name : VarIdent) (arguments : list Node)
  | NStructure (st : Structure)
  | NFunctionDecl (fd : FunctionDecl)
  | NBufferDecl (base : AST) (bufferType : string) (members : list Node)
  | NStructDecl (structure : option Structure)
  | NVarDeclStmnt (vds : VarDeclStmnt)
  | NCtrlTransferStmnt
  | NPackOffset
  | NVarSemantic
  | NVarType (vt : VarType)
  | NVarIdent (vi : VarIdent)
  | NVarDecl (vd : VarDecl)
  | NOther (tag : nat) (visited : list Node)
with CodeBlock : Type :=
  | mkCodeBlock (stmnts : list Node)
with Structure : Type :=
  | mkStructure (base : AST) (name : string) (members : list Node)
with FunctionDecl : Type :=
  | mkFunctionDecl (base : AST) (name : string) (attribs : list Node)
      (returnType : VarType) (parameters : list VarDeclStmnt)
      (codeBlock : option CodeBlock)
with VarDeclStmnt : Type :=
  | mkVarDeclStmnt (base : AST) (varType : VarType) (varDecls : list VarDecl)
with VarType : Type :=
  | mkVarType (base : AST) (baseType : string) (structType : option Structure)
with VarDecl : Type :=
  | mkVarDecl (name : string) (arrayDims : list Node) (semantics : list Node)
      (initializer : option Node)
with VarIdent : Type :=
  | mkVarIdent (ident : string) (arrayIndices : list Node)
      (next : option VarIdent).

#[local] Set Elimination Schemes.

Record Program := mkProgram { prog_base : AST; globalDecls : list Node }.

(** Field access. *)
Definition s_base (s : Structure) : AST := let 'mkStructure b _ _ := s in b.
Definition s_name (s : Structure) : string := let 'mkStructure _ n _ := s in n.
Definition s_members (s : Structure) : list Node :=
  let 'mkStructure _ _ m := s in m.
Definition fd_base (f : FunctionDecl) : AST :=
  let 'mkFunctionDecl b _ _ _ _ _ := f in b.
Definition fd_name (f : FunctionDecl) : string :=
  let 'mkFunctionDecl _ n _ _ _ _ := f in n.
Definition fd_returnType (f : FunctionDecl) : VarType :=
  let 'mkFunctionDecl _ _ _ r _ _ := f in r.
Definition fd_parameters (f : FunctionDecl) : list VarDeclStmnt :=
  let 'mkFunctionDecl _ _ _ _ p _ := f in p.
Definition vds_base (v : VarDeclStmnt) : AST :=
  let 'mkVarDeclStmnt b _ _ := v in b.
Definition vds_varType (v : VarDeclStmnt) : VarType :=
  let 'mkVarDeclStmnt _ t _ := v in t.
Definition vds_varDecls (v : VarDeclStmnt) : list VarDecl :=
  let 'mkVarDeclStmnt _ _ d := v in d.
Definition vt_base (t : VarType) : AST := let 'mkVarType b _ _ := t in b.
Definition vt_baseType (t : VarType) : string :=
  let 'mkVarType _ n _ := t in n.
Definition vt_structType (t : VarType) : option Structure :=
  let 'mkVarType _ _ s := t in s.
Definition vd_name (d : VarDecl) : string := let 'mkVarDecl n _ _ _ := d in n.

(** The pointer the analyzer holds to a node of a given variant. *)
Definition ptr_of (ty : Types) (b : AST) : ASTPtr := mkPtr (address b) ty.

(** ** Flags *)

(** The flag constants of the node classes, [Program::mulIntrinsicUsed] and
    so on.  Every node has a flag set of its own; [flags << f] adds [f] and
    [flags(f)] tests it. *)
Inductive Flag :=
  | Program_mulIntrinsicUsed | Program_interlockedIntrinsicsUsed
  | FunctionDecl_isEntryPoint | FunctionDecl_isUsed
  | Structure_isShaderInput | Structure_isShaderOutput
  | VarDeclStmnt_isShaderInput | VarDeclStmnt_isShaderOutput.

Global Instance Flag_eq_dec : EqDecision Flag.
Proof. solve_decision. Defined.

Definition Flag_code (f : Flag) : nat :=
  match f with
  | Program_mulIntrinsicUsed => 0 | Program_interlockedIntrinsicsUsed => 1
  | FunctionDecl_isEntryPoint => 2 | FunctionDecl_isUsed => 3
  | Structure_isShaderInput => 4 | Structure_isShaderOutput => 5
  | VarDeclStmnt_isShaderInput => 6 | VarDeclStmnt_isShaderOutput => 7
  end.

Definition Flag_decode (n : nat) : option Flag :=
  match n with
  | 0 => Some Program_mulIntrinsicUsed
  | 1 => Some Program_interlockedIntrinsicsUsed
  | 2 => Some FunctionDecl_isEntryPoint | 3 => Some FunctionDecl_isUsed
  | 4 => Some Structure_isShaderInput | 5 => Some Structure_isShaderOutput
  | 6 => Some VarDeclStmnt_isShaderInput
  | 7 => Some VarDeclStmnt_isShaderOutput
  | _ => None
  end.

Global Instance Flag_countable : Countable Flag.
Proof.
  apply (inj_countable Flag_code Flag_decode). intros f. by destruct f.
Defined.

Abbreviation Flags := (gset Flag).

Definition has_flag (fl : Flags) (f : Flag) : bool := bool_decide (f ∈ fl).

(** ** The fields the analyzer writes

    One map per field, keyed by the address of the node that owns the field.
    A node without an entry has the field as the parser leaves it: no flags,
    an empty alias name, a null symbol reference. *)
Record Store := mkStore {
  programFlags : gmap addr Flags;        (* Program::flags *)
  functionFlags : gmap addr Flags;       (* FunctionDecl::flags *)
  structureFlags : gmap addr Flags;      (* Structure::flags *)
  stmntFlags : gmap addr Flags;          (* VarDeclStmnt::flags *)
  aliasNames : gmap addr string;         (* Structure::aliasName *)
  symbolRefs : gmap addr ASTPtr          (* VarType::symbolRef *)
}.

Definition flags_at (m : gmap addr Flags) (a : addr) : Flags :=
  default ∅ (m !! a).
Definition add_flag (a : addr) (f : Flag) (m : gmap addr Flags)
  : gmap addr Flags := <[a := flags_at m a ∪ {[f]}]> m.
Definition aliasName_at (h : Store) (a : addr) : string :=
  default "" (aliasNames h !! a).
Definition symbolRef_at (h : Store) (a : addr) : option ASTPtr :=
  symbolRefs h !! a.

(** ** The scoped symbol table *)

Abbreviation Frame := (gmap string ASTPtr).

(** Modelled from the spec: the symbol table class is not part of the file.
    Section 4.1 of the spec describes it as a stack of frames with always at
    least the global frame open: [inner] is the innermost frame, [outer] the
    enclosing ones, the global frame last. *)
Record SymbolTable := mkSymbolTable { inner : Frame; outer : list Frame }.

Definition OnOverrideProc := ASTPtr → bool.

Module SymTab.

(** Modelled from the spec: "a new, empty frame" is pushed. *)
Definition OpenScope (t : SymbolTable) : SymbolTable :=
  mkSymbolTable ∅ (inner t :: outer t).

(** Modelled from the spec: "pops the innermost frame, discarding all
    entries registered in it".  The global frame stays (the spec keeps it
    open and the analyzer closes only scopes it opened). *)
Definition CloseScope (t : SymbolTable) : SymbolTable :=
  match outer t with
  | [] => t
  | f :: fs => mkSymbolTable f fs
  end.

(** Modelled from the spec: a failed registration is a "duplicate symbol"
    condition; the wording of the exception is not in the file, this text
    stands for it. *)
Definition duplicate (ident : string) : string :=
  "duplicate symbol '" +:+ ident +:+ "'".

(** Modelled from the spec: only the innermost frame is consulted; a name
    that is free there is inserted; for a taken name the predicate is
    asked about the existing entry, and the slot is updated when it
    agrees, the registration fails (an exception in the source, [inl]
    here) when it does not. *)
Definition Register (ident : string) (ast : ASTPtr)
    (overrideProc : OnOverrideProc) (t : SymbolTable)
  : string + SymbolTable :=
  match inner t !! ident with
  | None => inr (mkSymbolTable (<[ident := ast]> (inner t)) (outer t))
  | Some existing =>
      if overrideProc existing
      then inr (mkSymbolTable (<[ident := ast]> (inner t)) (outer t))
      else inl (duplicate ident)
  end.

Fixpoint lookup_frames (ident : string) (fs : list Frame) : option ASTPtr :=
  match fs with
  | [] => None
  | f :: fs' =>
      match f !! ident with
      | Some p => Some p
      | None => lookup_frames ident fs'
      end
  end.

(** Modelled from the spec: "searches frames from innermost to outermost,
    returns the first match or not found". *)
Definition Fetch (ident : string) (t : SymbolTable) : option ASTPtr :=
  lookup_frames ident (inner t :: outer t).

(** Modelled from the spec: the table of a new analyzer has the global
    frame open, and nothing in it. *)
Definition fresh : SymbolTable := mkSymbolTable ∅ [].

End SymTab.

(** ** The analyzer and the tree it works on *)

(** [ShaderTargets] and [ShaderVersions] are enumerations declared outside the
    file; the analyzer only stores the values. *)
Definition ShaderTargets := nat.
Definition ShaderVersions := nat.

Inductive IntrinsicClasses := Interlocked.

(** [EstablishMaps]: the constructor fills [intrinsicMap_] once and nothing
    assigns it afterwards. *)
Definition EstablishMaps : gmap string IntrinsicClasses :=
  list_to_map
    [ ("InterlockedAdd", Interlocked);
      ("InterlockedAnd", Interlocked);
      ("InterlockedOr", Interlocked);
      ("InterlockedXor", Interlocked);
      ("InterlockedMin", Interlocked);
      ("InterlockedMax", Interlocked);
      ("InterlockedCompareExchange", Interlocked);
      ("InterlockedExchange", Interlocked) ].

Definition intrinsicMap_ : gmap string IntrinsicClasses := EstablishMaps.

(** The members of the analyzer, and the fields of the tree.  [log_] is the
    logger: [None] for a null pointer, otherwise the messages it has received,
    newest first.  [reported] is not a member: it records the message of every
    call of [Error], newest first, whether or not a logger is attached.
    [program_] is the address of the program; [DecorateAST] assigns it before
    the first visit. *)
Record State := mkState {
  log_ : option (list string);
  hasErrors_ : bool;
  reported : list string;
  entryPoint_ : string;
  shaderTarget_ : ShaderTargets;
  shaderVersion_ : ShaderVersions;
  program_ : addr;
  isInsideEntryPoint_ : bool;
  symTable_ : SymbolTable;
  tree : Store
}.

Definition set_symTable (t : SymbolTable) (s : State) : State :=
  mkState (log_ s) (hasErrors_ s) (reported s) (entryPoint_ s)
    (shaderTarget_ s) (shaderVersion_ s) (program_ s)
    (isInsideEntryPoint_ s) t (tree s).

Definition set_isInsideEntryPoint (b : bool) (s : State) : State :=
  mkState (log_ s) (hasErrors_ s) (reported s) (entryPoint_ s)
    (shaderTarget_ s) (shaderVersion_ s) (program_ s)
    b (symTable_ s) (tree s).

Definition set_tree (h : Store) (s : State) : State :=
  mkState (log_ s) (hasErrors_ s) (reported s) (entryPoint_ s)
    (shaderTarget_ s) (shaderVersion_ s) (program_ s)
    (isInsideEntryPoint_ s) (symTable_ s) h.

Definition upd_programFlags (f : gmap addr Flags → gmap addr Flags)
    (h : Store) : Store :=
  mkStore (f (programFlags h)) (functionFlags h) (structureFlags h)
    (stmntFlags h) (aliasNames h) (symbolRefs h).
Definition upd_functionFlags (f : gmap addr Flags → gmap addr Flags)
    (h : Store) : Store :=
  mkStore (programFlags h) (f (functionFlags h)) (structureFlags h)
    (stmntFlags h) (aliasNames h) (symbolRefs h).
Definition upd_structureFlags (f : gmap addr Flags → gmap addr Flags)
    (h : Store) : Store :=
  mkStore (programFlags h) (functionFlags h) (f (structureFlags h))
    (stmntFlags h) (aliasNames h) (symbolRefs h).
Definition upd_stmntFlags (f : gmap addr Flags → gmap addr Flags)
    (h : Store) : Store :=
  mkStore (programFlags h) (functionFlags h) (structureFlags h)
    (f (stmntFlags h)) (aliasNames h) (symbolRefs h).
Definition set_aliasName (a : addr) (n : string) (h : Store) : Store :=
  mkStore (programFlags h) (functionFlags h) (structureFlags h)
    (stmntFlags h) (<[a := n]> (aliasNames h)) (symbolRefs h).
Definition set_symbolRef (a : addr) (p : ASTPtr) (h : Store) : Store :=
  mkStore (programFlags h) (functionFlags h) (structureFlags h)
    (stmntFlags h) (aliasNames h) (<[a := p]> (symbolRefs h)).

(** The one-character string holding a double quote. *)
Definition quote : string := String (Ascii.ascii_of_nat 34) EmptyString.

(** [HLSLAnalyzer::Error]. *)
Definition Error (msg : string) (ast : option AST) (s : State) : State :=
  let line :=
    match ast with
    | Some a => "context error (" +:+ pos a +:+ ") : " +:+ msg
    | None => "context error : " +:+ msg
    end in
  mkState (match log_ s with Some l => Some (line :: l) | None => None end)
    true (msg :: reported s) (entryPoint_ s)
    (shaderTarget_ s) (shaderVersion_ s) (program_ s)
    (isInsideEntryPoint_ s) (symTable_ s) (tree s).

Definition OpenScope (s : State) : State :=
  set_symTable (SymTab.OpenScope (symTable_ s)) s.

Definition CloseScope (s : State) : State :=
  set_symTable (SymTab.CloseScope (symTable_ s)) s.

(** [HLSLAnalyzer::Register]: the exception of the table becomes a report. *)
Definition Register (ident : string) (ty : Types) (ast : AST)
    (overrideProc : OnOverrideProc) (s : State) : State :=
  match SymTab.Register ident (ptr_of ty ast) overrideProc (symTable_ s) with
  | inr t => set_symTable t s
  | inl what => Error what (Some ast) s
  end.

Definition Fetch (ident : string) (s : State) : option ASTPtr :=
  SymTab.Fetch ident (symTable_ s).

(** Writes to the fields of a node, through its address. *)
Definition add_programFlag (a : addr) (f : Flag) (s : State) : State :=
  set_tree (upd_programFlags (add_flag a f) (tree s)) s.
Definition add_functionFlag (a : addr) (f : Flag) (s : State) : State :=
  set_tree (upd_functionFlags (add_flag a f) (tree s)) s.
Definition add_structureFlag (a : addr) (f : Flag) (s : State) : State :=
  set_tree (upd_structureFlags (add_flag a f) (tree s)) s.
Definition add_stmntFlag (a : addr) (f : Flag) (s : State) : State :=
  set_tree (upd_stmntFlags (add_flag a f) (tree s)) s.
Definition assign_aliasName (a : addr) (n : string) (s : State) : State :=
  set_tree (set_aliasName a n (tree s)) s.
Definition assign_symbolRef (a : addr) (p : ASTPtr) (s : State) : State :=
  set_tree (set_symbolRef a p (tree s)) s.

(** [std::vector::front]: undefined on an empty vector, [None] here. *)
Definition front {A} (v : list A) : option A := head v.

(** [DecorateEntryInOut(VarDeclStmnt*, bool)]. *)
Definition DecorateEntryInOut_VarDeclStmnt (ast : VarDeclStmnt)
    (isInput : bool) (s : State) : State :=
  let structFlag :=
    if isInput then Structure_isShaderInput else Structure_isShaderOutput in
  (* Add flag to variable declaration statement *)
  let s1 :=
    add_stmntFlag (address (vds_base ast))
      (if isInput then VarDeclStmnt_isShaderInput
       else VarDeclStmnt_isShaderOutput) s in
  (* Add flag to structure type *)
  let varType := vds_varType ast in
  let s2 :=
    match vt_structType varType with
    | Some st => add_structureFlag (address (s_base st)) structFlag s1
    | None => s1
    end in
  (* Add flag to optional symbol reference *)
  match symbolRef_at (tree s2) (address (vt_base varType)) with
  | Some symbolRef =>
      if bool_decide (ptr_type symbolRef = T_Structure) then
        let s3 := add_structureFlag (ptr_addr symbolRef) structFlag s2 in
        match vds_varDecls ast with
        | [] => s3
        | d :: _ => assign_aliasName (ptr_addr symbolRef) (vd_name d) s3
        end
      else s2
  | None => s2
  end.

(** [DecorateEntryInOut(VarType*, bool)]. *)
Definition DecorateEntryInOut_VarType (ast : VarType) (isInput : bool)
    (s : State) : State :=
  let structFlag :=
    if isInput then Structure_isShaderInput else Structure_isShaderOutput in
  (* Add flag to structure type *)
  let s1 :=
    match vt_structType ast with
    | Some st => add_structureFlag (address (s_base st)) structFlag s
    | None => s
    end in
  (* Add flag to optional symbol reference *)
  match symbolRef_at (tree s1) (address (vt_base ast)) with
  | Some symbolRef =>
      if bool_decide (ptr_type symbolRef = T_Structure) then
        add_structureFlag (ptr_addr symbolRef) structFlag s1
      else s1
  | None => s1
  end.

(** ** The walk *)

(** A walk yields the state it ends in, or [None] when it reads the first
    element of an empty vector, after which the source has no defined
    behaviour. *)
Definition Walk := State → option State.

(** [for (auto& x : xs) Visit(x);] *)
Definition visit_each {A} (visit : A → Walk) : list A → Walk :=
  fix go xs s :=
    match xs with
    | [] => Some s
    | x :: xs' => match visit x s with Some s' => go xs' s' | None => None end
    end.

(** [Visit(p)] for a child pointer [p]: nothing happens for a null one. *)
Definition visit_ptr {A} (visit : A → Walk) (p : option A) : Walk :=
  λ s, match p with Some x => visit x s | None => Some s end.

Definition then_ (w : Walk) (k : State → option State) : Walk :=
  λ s, match w s with Some s' => k s' | None => None end.

Infix ">=>" := then_ (at level 65, right associativity).

Section Analyzer.

(** [FullVarIdent], which gives the full name of an identifier chain, is
    declared outside the file. *)
Variable FullVarIdent : VarIdent → string.

(** The flag a call of the given name sets on the program, if any. *)
Definition intrinsic_flag (name : string) : option Flag :=
  if bool_decide (name = "mul") then Some Program_mulIntrinsicUsed
  else
    match intrinsicMap_ !! name with
    | Some Interlocked => Some Program_interlockedIntrinsicsUsed
    | None => None
    end.

(** The first half of [VisitFunctionCall]. *)
Definition check_intrinsic (name : string) (s : State) : State :=
  match intrinsic_flag name with
  | Some f => add_programFlag (program_ s) f s
  | None => s
  end.

(** The registration at the head of [VisitStructure]. *)
Definition register_Structure (base : AST) (name : string) (s : State)
  : State :=
  if bool_decide (name ≠ "") then
    Register name T_Structure base
      (λ symbol, bool_decide (ptr_type symbol = T_StructDecl)) s
  else s.

(** The registration at the head of [VisitFunctionDecl]. *)
Definition register_FunctionDecl (base : AST) (name : string) (s : State)
  : State :=
  Register name T_FunctionDecl base
    (λ symbol, bool_decide (ptr_type symbol = T_FunctionDecl)) s.

(** The entry-point part of [VisitFunctionDecl], between the header and
    the body. *)
Definition mark_entry_point (base : AST) (returnType : VarType)
    (parameters : list VarDeclStmnt) (s : State) : State :=
  (* Add flags *)
  let s1 :=
    add_functionFlag (address base) FunctionDecl_isUsed
      (add_functionFlag (address base) FunctionDecl_isEntryPoint s) in
  (* Add flags to input- and output parameters of the main entry point *)
  let s2 := DecorateEntryInOut_VarType returnType false s1 in
  foldl (λ acc param, DecorateEntryInOut_VarDeclStmnt param true acc)
    s2 parameters.

(** The decoration at the end of [VisitVarDeclStmnt]. *)
Definition decorate_variable_type (varType : VarType)
    (varDecls : list VarDecl) : Walk :=
  λ s,
  if isInsideEntryPoint_ s && bool_decide (varDecls = []) then
    match symbolRef_at (tree s) (address (vt_base varType)) with
    | Some symbolRef =>
        if bool_decide (ptr_type symbolRef = T_Structure) then
          let structType := ptr_addr symbolRef in
          if has_flag (flags_at (structureFlags (tree s)) structType)
               Structure_isShaderOutput
             && bool_decide (aliasName_at (tree s) structType = "")
          then
            (* Store alias name for shader output interface block *)
            match front varDecls with
            | Some d => Some (assign_aliasName structType (vd_name d) s)
            | None => None
            end
          else Some s
        else Some s
    | None => Some s
    end
  else Some s.

(** The visit functions, one per variant, and [Visit], which dispatches on
    the variant of the node. *)
Fixpoint Visit (n : Node) : Walk :=
  match n with
  | NCodeBlock cb => VisitCodeBlock cb
  | NFunctionCall name arguments =>
      λ s, visit_each Visit arguments (check_intrinsic (FullVarIdent name) s)
  | NStructure st => VisitStructure st
  | NFunctionDecl fd => VisitFunctionDecl fd
  | NBufferDecl base bufferType members =>
      λ s,
      visit_each Visit members
        (if bool_decide (bufferType ≠ "cbuffer") then
           Error ("buffer type " +:+ quote +:+ bufferType +:+ quote
                    +:+ " currently not supported") (Some base) s
         else s)
  | NStructDecl structure => visit_ptr VisitStructure structure
  | NVarDeclStmnt vds => VisitVarDeclStmnt vds
  | NCtrlTransferStmnt => Some
  | NPackOffset => Some
  | NVarSemantic => Some
  | NVarType vt => VisitVarType vt
  | NVarIdent vi => VisitVarIdent vi
  | NVarDecl vd => VisitVarDecl vd
  | NOther _ visited => visit_each Visit visited
  end
with VisitCodeBlock (ast : CodeBlock) : Walk :=
  match ast with
  | mkCodeBlock stmnts =>
      λ s, (visit_each Visit stmnts >=> λ s', Some (CloseScope s'))
             (OpenScope s)
  end
with VisitStructure (ast : Structure) : Walk :=
  match ast with
  | mkStructure base name members =>
      λ s, visit_each Visit members (register_Structure base name s)
  end
with VisitFunctionDecl (ast : FunctionDecl) : Walk :=
  match ast with
  | mkFunctionDecl base name attribs returnType parameters codeBlock =>
      λ s,
      (* Register symbol name, visit function header *)
      (visit_each Visit attribs >=>
       VisitVarType returnType >=>
       visit_each VisitVarDeclStmnt parameters >=>
       λ s1,
       (* Mark function as used when it's the main entry point *)
       let isEntryPoint := bool_decide (name = entryPoint_ s1) in
       let s2 :=
         if isEntryPoint
         then mark_entry_point base returnType parameters s1
         else s1 in
       (* Visit function body *)
       (visit_ptr VisitCodeBlock codeBlock >=>
        λ s3, Some (set_isInsideEntryPoint false s3))
         (set_isInsideEntryPoint isEntryPoint s2))
        (register_FunctionDecl base name s)
  end
with VisitVarDeclStmnt (ast : VarDeclStmnt) : Walk :=
  match ast with
  | mkVarDeclStmnt _ varType varDecls =>
      VisitVarType varType >=>
      visit_each VisitVarDecl varDecls >=>
      decorate_variable_type varType varDecls
  end
with VisitVarType (ast : VarType) : Walk :=
  match ast with
  | mkVarType base baseType structType =>
      λ s,
      if bool_decide (baseType ≠ "") then
        (* Decorate variable type *)
        match Fetch baseType s with
        | Some symbol => Some (assign_symbolRef (address base) symbol s)
        | None => Some s
        end
      else
        match structType with
        | Some st => VisitStructure st s
        | None => Some (Error "missing variable type" (Some base) s)
        end
  end
with VisitVarIdent (ast : VarIdent) : Walk :=
  match ast with
  | mkVarIdent _ arrayIndices next =>
      visit_each Visit arrayIndices >=> visit_ptr VisitVarIdent next
  end
with VisitVarDecl (ast : VarDecl) : Walk :=
  match ast with
  | mkVarDecl _ arrayDims semantics initializer =>
      visit_each Visit arrayDims >=>
      visit_each Visit semantics >=>
      visit_ptr Visit initializer
  end.

Definition VisitProgram (ast : Program) : Walk :=
  visit_each Visit (globalDecls ast).

(** [DecorateAST].  A null [program] is [None]. *)
Definition DecorateAST (program : option Program) (entryPoint : string)
    (shaderTarget : ShaderTargets) (shaderVersion : ShaderVersions)
    (s : State) : option (bool * State) :=
  match program with
  | None => Some (false, s)
  | Some p =>
      (* Store parameters, decorate program AST *)
      let s0 :=
        mkState (log_ s) false (reported s) entryPoint shaderTarget
          shaderVersion (address (prog_base p)) (isInsideEntryPoint_ s)
          (symTable_ s) (tree s) in
      match VisitProgram p s0 with
      | Some s1 => Some (negb (hasErrors_ s1), s1)
      | None => None
      end
  end.

End Analyzer.

(** ** Induction over the tree

    The types of the tree are mutually recursive through lists and optional
    children, so the induction principle is written by hand: one predicate
    per type, and every child of a node comes with its hypothesis. *)
Section TreeInduction.

Variables (PN : Node → Prop) (PCB : CodeBlock → Prop)
  (PS : Structure → Prop) (PFD : FunctionDecl → Prop)
  (PVDS : VarDeclStmnt → Prop) (PVT : VarType → Prop)
  (PVD : VarDecl → Prop) (PVI : VarIdent → Prop).

Hypothesis H_NCodeBlock : ∀ cb, PCB cb → PN (NCodeBlock cb).
Hypothesis H_NFunctionCall :
  ∀ name arguments, Forall PN arguments → PN (NFunctionCall name arguments).
Hypothesis H_NStructure : ∀ st, PS st → PN (NStructure st).
Hypothesis H_NFunctionDecl : ∀ fd, PFD fd → PN (NFunctionDecl fd).
Hypothesis H_NBufferDecl :
  ∀ base bufferType members,
    Forall PN members → PN (NBufferDecl base bufferType members).
Hypothesis H_NStructDecl :
  ∀ structure, from_option PS True structure → PN (NStructDecl structure).
Hypothesis H_NVarDeclStmnt : ∀ vds, PVDS vds → PN (NVarDeclStmnt vds).
Hypothesis H_NCtrlTransferStmnt : PN NCtrlTransferStmnt.
Hypothesis H_NPackOffset : PN NPackOffset.
Hypothesis H_NVarSemantic : PN NVarSemantic.
Hypothesis H_NVarType : ∀ vt, PVT vt → PN (NVarType vt).
Hypothesis H_NVarIdent : ∀ vi, PVI vi → PN (NVarIdent vi).
Hypothesis H_NVarDecl : ∀ vd, PVD vd → PN (NVarDecl vd).
Hypothesis H_NOther :
  ∀ tag visited, Forall PN visited → PN (NOther tag visited).
Hypothesis H_CodeBlock :
  ∀ stmnts, Forall PN stmnts → PCB (mkCodeBlock stmnts).
Hypothesis H_Structure :
  ∀ base name members,
    Forall PN members → PS (mkStructure base name members).
Hypothesis H_FunctionDecl :
  ∀ base name attribs returnType parameters codeBlock,
    Forall PN attribs → PVT returnType → Forall PVDS parameters →
    from_option PCB True codeBlock →
    PFD (mkFunctionDecl base name attribs returnType parameters codeBlock).
Hypothesis H_VarDeclStmnt :
  ∀ base varType varDecls,
    PVT varType → Forall PVD varDecls →
    PVDS (mkVarDeclStmnt base varType varDecls).
Hypothesis H_VarType :
  ∀ base baseType structType,
    from_option PS True structType →
    PVT (mkVarType base baseType structType).
Hypothesis H_VarDecl :
  ∀ name arrayDims semantics initializer,
    Forall PN arrayDims → Forall PN semantics →
    from_option PN True initializer →
    PVD (mkVarDecl name arrayDims semantics initializer).
Hypothesis H_VarIdent :
  ∀ ident arrayIndices next,
    Forall PN arrayIndices → from_option PVI True next →
    PVI (mkVarIdent ident arrayIndices next).

Definition all_of {A} (P : A → Prop) (f : ∀ x, P x) : ∀ xs, Forall P xs :=
  fix go xs :=
    match xs with
    | [] => Forall_nil_2 P
    | x :: xs' => Forall_cons_2 P x xs' (f x) (go xs')
    end.

Definition opt_of {A} (P : A → Prop) (f : ∀ x, P x)
  : ∀ o, from_option P True o :=
  λ o, match o with Some x => f x | None => I end.

Fixpoint Node_tree_ind (n : Node) : PN n :=
  match n with
  | NCodeBlock cb => H_NCodeBlock cb (CodeBlock_tree_ind cb)
  | NFunctionCall name arguments =>
      H_NFunctionCall name arguments (all_of PN Node_tree_ind arguments)
  | NStructure st => H_NStructure st (Structure_tree_ind st)
  | NFunctionDecl fd => H_NFunctionDecl fd (FunctionDecl_tree_ind fd)
  | NBufferDecl base bufferType members =>
      H_NBufferDecl base bufferType members
        (all_of PN Node_tree_ind members)
  | NStructDecl structure =>
      H_NStructDecl structure (opt_of PS Structure_tree_ind structure)
  | NVarDeclStmnt vds => H_NVarDeclStmnt vds (VarDeclStmnt_tree_ind vds)
  | NCtrlTransferStmnt => H_NCtrlTransferStmnt
  | NPackOffset => H_NPackOffset
  | NVarSemantic => H_NVarSemantic
  | NVarType vt => H_NVarType vt (VarType_tree_ind vt)
  | NVarIdent vi => H_NVarIdent vi (VarIdent_tree_ind vi)
  | NVarDecl vd => H_NVarDecl vd (VarDecl_tree_ind vd)
  | NOther tag visited =>
      H_NOther tag visited (all_of PN Node_tree_ind visited)
  end
with CodeBlock_tree_ind (cb : CodeBlock) : PCB cb :=
  match cb with
  | mkCodeBlock stmnts =>
      H_CodeBlock stmnts (all_of PN Node_tree_ind stmnts)
  end
with Structure_tree_ind (st : Structure) : PS st :=
  match st with
  | mkStructure base name members =>
      H_Structure base name members (all_of PN Node_tree_ind members)
  end
with FunctionDecl_tree_ind (fd : FunctionDecl) : PFD fd :=
  match fd with
  | mkFunctionDecl base name attribs returnType parameters codeBlock =>
      H_FunctionDecl base name attribs returnType parameters codeBlock
        (all_of PN Node_tree_ind attribs)
        (VarType_tree_ind returnType)
        (all_of PVDS VarDeclStmnt_tree_ind parameters)
        (opt_of PCB CodeBlock_tree_ind codeBlock)
  end
with VarDeclStmnt_tree_ind (vds : VarDeclStmnt) : PVDS vds :=
  match vds with
  | mkVarDeclStmnt base varType varDecls =>
      H_VarDeclStmnt base varType varDecls
        (VarType_tree_ind varType)
        (all_of PVD VarDecl_tree_ind varDecls)
  end
with VarType_tree_ind (vt : VarType) : PVT vt :=
  match vt with
  | mkVarType base baseType structType =>
      H_VarType base baseType structType
        (opt_of PS Structure_tree_ind structType)
  end
with VarDecl_tree_ind (vd : VarDecl) : PVD vd :=
  match vd with
  | mkVarDecl name arrayDims semantics initializer =>
      H_VarDecl name arrayDims semantics initializer
        (all_of PN Node_tree_ind arrayDims)
        (all_of PN Node_tree_ind semantics)
        (opt_of PN Node_tree_ind initializer)
  end
with VarIdent_tree_ind (vi : VarIdent) : PVI vi :=
  match vi with
  | mkVarIdent ident arrayIndices next =>
      H_VarIdent ident arrayIndices
        next (all_of PN Node_tree_ind arrayIndices)
        (opt_of PVI VarIdent_tree_ind next)
  end.

Definition tree_mutind :
  (∀ n, PN n) ∧ (∀ cb, PCB cb) ∧ (∀ st, PS st) ∧ (∀ fd, PFD fd) ∧
  (∀ vds, PVDS vds) ∧ (∀ vt, PVT vt) ∧ (∀ vd, PVD vd) ∧ (∀ vi, PVI vi) :=
  conj Node_tree_ind (conj CodeBlock_tree_ind (conj Structure_tree_ind
    (conj FunctionDecl_tree_ind (conj VarDeclStmnt_tree_ind
      (conj VarType_tree_ind (conj VarDecl_tree_ind VarIdent_tree_ind)))))).

End TreeInduction.

(** ** Relations every walk respects *)

(** A walk respects [R] when [R] relates the state it starts in to the state
    it ends in. *)
Definition respects (R : State → State → Prop) (w : Walk) : Prop :=
  ∀ s s', w s = Some s' → R s s'.

(** The messages the visit functions hand to [Error]: the one of a failed
    registration, the one of [VisitBufferDecl] and the one of
    [VisitVarType]. *)
Inductive known_report : string → Prop :=
  | report_duplicate ident : known_report (SymTab.duplicate ident)
  | report_buffer bufferType :
      bufferType ≠ "cbuffer" →
      known_report
        ("buffer type " +:+ quote +:+ bufferType +:+ quote
           +:+ " currently not supported")
  | report_missing_type : known_report "missing variable type".

(** What a relation needs in order to be respected by every visit: it is
    a preorder, every single write of the analyzer stays inside it, and a
    scope that is opened and closed again does.  The visit functions call
    [Error] with one of their three messages and always with a node. *)
Record WalkInvariant (R : State → State → Prop) : Prop := {
  inv_refl : ∀ s, R s s;
  inv_trans : ∀ s1 s2 s3, R s1 s2 → R s2 s3 → R s1 s3;
  inv_Error : ∀ msg ast s, known_report msg → R s (Error msg (Some ast) s);
  inv_Register :
    ∀ f s, R s (set_symTable (mkSymbolTable f (outer (symTable_ s))) s);
  inv_scope : ∀ s s', R (OpenScope s) s' → R s (CloseScope s');
  inv_isInsideEntryPoint : ∀ b s, R s (set_isInsideEntryPoint b s);
  inv_programFlags : ∀ a f s, R s (add_programFlag a f s);
  inv_functionFlags : ∀ a f s, R s (add_functionFlag a f s);
  inv_structureFlags : ∀ a f s, R s (add_structureFlag a f s);
  inv_stmntFlags : ∀ a f s, R s (add_stmntFlag a f s);
  inv_aliasName : ∀ a n s, R s (assign_aliasName a n s);
  inv_symbolRef : ∀ a p s, R s (assign_symbolRef a p s)
}.

(** The reports of a walk are put in front of the earlier ones, and the error
    flag is raised exactly when there is a new one. *)
Definition diag_rel (s s' : State) : Prop :=
  ∃ new, reported s' = new ++ reported s ∧
         hasErrors_ s' = hasErrors_ s || bool_decide (new ≠ []).

(** The enclosing scopes are as they were. *)
Definition scope_rel (s s' : State) : Prop :=
  outer (symTable_ s') = outer (symTable_ s).

(** The parameters stored by [DecorateAST] are as they were. *)
Definition config_rel (s s' : State) : Prop :=
  entryPoint_ s' = entryPoint_ s ∧ program_ s' = program_ s ∧
  shaderTarget_ s' = shaderTarget_ s ∧ shaderVersion_ s' = shaderVersion_ s.

(** No flag of any node is cleared. *)
Definition flags_rel (s s' : State) : Prop :=
  ∀ a,
    flags_at (programFlags (tree s)) a ⊆ flags_at (programFlags (tree s')) a ∧
    flags_at (functionFlags (tree s)) a
      ⊆ flags_at (functionFlags (tree s')) a ∧
    flags_at (structureFlags (tree s)) a
      ⊆ flags_at (structureFlags (tree s')) a ∧
    flags_at (stmntFlags (tree s)) a ⊆ flags_at (stmntFlags (tree s')) a.

(** ** What a walk passes

    The function calls, function declarations, types and declaration
    statements a walk visits, in the order of the visit.  [VisitFunctionCall] does not visit the called
    name, and [VisitVarType] visits an inline structure only when the type
    has no name, so the index expressions of a called name and the inline
    structure of a named type are not on the walk. *)
Record Footprint := mkFootprint {
  fp_calls : list string;        (* full names of the function calls *)
  fp_funcs : list FunctionDecl;  (* function declarations *)
  fp_types : list addr;          (* addresses of the types *)
  fp_stmnts : list VarDeclStmnt  (* declaration statements *)
}.

Definition fp_empty : Footprint := mkFootprint [] [] [] [].
Definition fp_app (F G : Footprint) : Footprint :=
  mkFootprint (fp_calls F ++ fp_calls G) (fp_funcs F ++ fp_funcs G)
    (fp_types F ++ fp_types G) (fp_stmnts F ++ fp_stmnts G).
Definition fp_call (name : string) : Footprint :=
  mkFootprint [name] [] [] [].
Definition fp_func (f : FunctionDecl) : Footprint := mkFootprint [] [f] [] [].
Definition fp_type (a : addr) : Footprint := mkFootprint [] [] [a] [].
Definition fp_stmnt (v : VarDeclStmnt) : Footprint :=
  mkFootprint [] [] [] [v].

Infix "⋅" := fp_app (at level 50, left associativity).

Definition fp_all {A} (fp : A → Footprint) : list A → Footprint :=
  fix go xs :=
    match xs with
    | [] => fp_empty
    | x :: xs' => fp x ⋅ go xs'
    end.

Definition fp_opt {A} (fp : A → Footprint) (p : option A) : Footprint :=
  match p with Some x => fp x | None => fp_empty end.

Section Walked.

Variable FullVarIdent : VarIdent → string.

Fixpoint walked (n : Node) : Footprint :=
  match n with
  | NCodeBlock cb => walked_CodeBlock cb
  | NFunctionCall name arguments =>
      fp_call (FullVarIdent name) ⋅ fp_all walked arguments
  | NStructure st => walked_Structure st
  | NFunctionDecl fd => walked_FunctionDecl fd
  | NBufferDecl _ _ members => fp_all walked members
  | NStructDecl structure => fp_opt walked_Structure structure
  | NVarDeclStmnt vds => walked_VarDeclStmnt vds
  | NCtrlTransferStmnt => fp_empty
  | NPackOffset => fp_empty
  | NVarSemantic => fp_empty
  | NVarType vt => walked_VarType vt
  | NVarIdent vi => walked_VarIdent vi
  | NVarDecl vd => walked_VarDecl vd
  | NOther _ visited => fp_all walked visited
  end
with walked_CodeBlock (ast : CodeBlock) : Footprint :=
  match ast with
  | mkCodeBlock stmnts => fp_all walked stmnts
  end
with walked_Structure (ast : Structure) : Footprint :=
  match ast with
  | mkStructure _ _ members => fp_all walked members
  end
with walked_FunctionDecl (ast : FunctionDecl) : Footprint :=
  match ast with
  | mkFunctionDecl _ _ attribs returnType parameters codeBlock =>
      fp_all walked attribs ⋅
      (walked_VarType returnType ⋅ fp_all walked_VarDeclStmnt parameters
         ⋅ fp_func ast) ⋅
      fp_opt walked_CodeBlock codeBlock
  end
with walked_VarDeclStmnt (ast : VarDeclStmnt) : Footprint :=
  match ast with
  | mkVarDeclStmnt _ varType varDecls =>
      fp_stmnt ast ⋅ (walked_VarType varType ⋅ fp_all walked_VarDecl varDecls)
  end
with walked_VarType (ast : VarType) : Footprint :=
  match ast with
  | mkVarType base baseType structType =>
      fp_type (address base) ⋅
      (if bool_decide (baseType ≠ "") then fp_empty
       else fp_opt walked_Structure structType)
  end
with walked_VarIdent (ast : VarIdent) : Footprint :=
  match ast with
  | mkVarIdent _ arrayIndices next =>
      fp_all walked arrayIndices ⋅ fp_opt walked_VarIdent next
  end
with walked_VarDecl (ast : VarDecl) : Footprint :=
  match ast with
  | mkVarDecl _ arrayDims semantics initializer =>
      fp_all walked arrayDims ⋅ fp_all walked semantics
        ⋅ fp_opt walked initializer
  end.

Definition walked_Program (ast : Program) : Footprint :=
  fp_all walked (globalDecls ast).

End Walked.

(** ** The function calls of a tree

    The full names of all function calls in a tree, wherever they stand.
    Unlike [walked] this follows every child: also the index expressions of
    a called name, and the inline structure of a type that has a name. *)
Section Calls.

Variable FullVarIdent : VarIdent → string.

Fixpoint calls_in (n : Node) : list string :=
  match n with
  | NCodeBlock cb => calls_in_CodeBlock cb
  | NFunctionCall name arguments =>
      FullVarIdent name :: calls_in_VarIdent name ++ flat_map calls_in arguments
  | NStructure st => calls_in_Structure st
  | NFunctionDecl fd => calls_in_FunctionDecl fd
  | NBufferDecl _ _ members => flat_map calls_in members
  | NStructDecl structure => from_option calls_in_Structure [] structure
  | NVarDeclStmnt vds => calls_in_VarDeclStmnt vds
  | NCtrlTransferStmnt => []
  | NPackOffset => []
  | NVarSemantic => []
  | NVarType vt => calls_in_VarType vt
  | NVarIdent vi => calls_in_VarIdent vi
  | NVarDecl vd => calls_in_VarDecl vd
  | NOther _ visited => flat_map calls_in visited
  end
with calls_in_CodeBlock (ast : CodeBlock) : list string :=
  match ast with
  | mkCodeBlock stmnts => flat_map calls_in stmnts
  end
with calls_in_Structure (ast : Structure) : list string :=
  match ast with
  | mkStructure _ _ members => flat_map calls_in members
  end
with calls_in_FunctionDecl (ast : FunctionDecl) : list string :=
  match ast with
  | mkFunctionDecl _ _ attribs returnType parameters codeBlock =>
      flat_map calls_in attribs ++ calls_in_VarType returnType
        ++ flat_map calls_in_VarDeclStmnt parameters
        ++ from_option calls_in_CodeBlock [] codeBlock
  end
with calls_in_VarDeclStmnt (ast : VarDeclStmnt) : list string :=
  match ast with
  | mkVarDeclStmnt _ varType varDecls =>
      calls_in_VarType varType ++ flat_map calls_in_VarDecl varDecls
  end
with calls_in_VarType (ast : VarType) : list string :=
  match ast with
  | mkVarType _ _ structType => from_option calls_in_Structure [] structType
  end
with calls_in_VarIdent (ast : VarIdent) : list string :=
  match ast with
  | mkVarIdent _ arrayIndices next =>
      flat_map calls_in arrayIndices ++ from_option calls_in_VarIdent [] next
  end
with calls_in_VarDecl (ast : VarDecl) : list string :=
  match ast with
  | mkVarDecl _ arrayDims semantics initializer =>
      flat_map calls_in arrayDims ++ flat_map calls_in semantics
        ++ from_option calls_in [] initializer
  end.

Definition calls_in_Program (ast : Program) : list string :=
  flat_map calls_in (globalDecls ast).

End Calls.

(** The flags the calls of a walk put on the program. *)
Definition call_flags (F : Footprint) : Flags :=
  list_to_set (omap intrinsic_flag (fp_calls F)).

(** The addresses of the function declarations of a walk that have the name
    of the entry point, and the flags the walk puts on the function at an
    address. *)
Definition entry_addrs (E : string) (F : Footprint) : list addr :=
  (λ f, address (fd_base f)) <$> filter (λ f, fd_name f = E) (fp_funcs F).

Definition entry_flags (E : string) (F : Footprint) (a : addr) : Flags :=
  if bool_decide (a ∈ entry_addrs E F)
  then {[ FunctionDecl_isEntryPoint; FunctionDecl_isUsed ]} else ∅.

(** A type decorated with a structure flag: the inline structure of the type
    has the flag, and so has the structure its symbol reference points to. *)
Definition type_decorated (fl : Flag) (vt : VarType) (s : State) : Prop :=
  (∀ st, vt_structType vt = Some st →
     fl ∈ flags_at (structureFlags (tree s)) (address (s_base st))) ∧
  (∀ symbolRef,
     symbolRef_at (tree s) (address (vt_base vt)) = Some symbolRef →
     ptr_type symbolRef = T_Structure →
     fl ∈ flags_at (structureFlags (tree s)) (ptr_addr symbolRef)).

(** A function declaration decorated as the entry point: it has both flags,
    its return type is decorated as shader output, and every parameter has
    the shader-input flag and a type decorated as shader input. *)
Definition entry_decorated (f : FunctionDecl) (s : State) : Prop :=
  FunctionDecl_isEntryPoint
    ∈ flags_at (functionFlags (tree s)) (address (fd_base f)) ∧
  FunctionDecl_isUsed
    ∈ flags_at (functionFlags (tree s)) (address (fd_base f)) ∧
  type_decorated Structure_isShaderOutput (fd_returnType f) s ∧
  Forall
    (λ param,
       VarDeclStmnt_isShaderInput
         ∈ flags_at (stmntFlags (tree s)) (address (vds_base param)) ∧
       type_decorated Structure_isShaderInput (vds_varType param) s)
    (fd_parameters f).

(** The addresses of the types in the header of a function. *)
Definition header_types (f : FunctionDecl) : list addr :=
  address (vt_base (fd_returnType f))
  :: ((λ param, address (vt_base (vds_varType param))) <$> fd_parameters f).

(** What a walk with footprint [F] does to the tree when the entry point is
    named [E]: the program gets the flags of the calls, the functions named
    [E] get the two flags, and symbol references change at the walked types
    only. *)
Definition walk_base (E : string) (F : Footprint) (s s' : State) : Prop :=
  config_rel s s' ∧ flags_rel s s' ∧
  (∀ a, flags_at (programFlags (tree s')) a =
        flags_at (programFlags (tree s)) a
          ∪ (if bool_decide (a = program_ s) then call_flags F else ∅)) ∧
  (∀ a, flags_at (functionFlags (tree s')) a =
        flags_at (functionFlags (tree s)) a ∪ entry_flags E F a) ∧
  (∀ a, a ∉ fp_types F →
        symbolRef_at (tree s') a = symbolRef_at (tree s) a).

(** When no two walked types share an address, the functions named [E] end
    up decorated as entry points. *)
Definition walk_entries (E : string) (F : Footprint) (s' : State) : Prop :=
  NoDup (fp_types F) →
  ∀ f, f ∈ fp_funcs F → fd_name f = E →
       entry_decorated f s' ∧ header_types f ⊆ fp_types F.

Definition walk_rel (E : string) (F : Footprint) (s s' : State) : Prop :=
  walk_base E F s s' ∧ walk_entries E F s'.

(** The structure the symbol reference of a type points to, and the
    structures a type refers to: its inline structure and the referenced
    one.  These are the structures [DecorateEntryInOut] flags. *)
Definition type_ref (h : Store) (vt : VarType) : list addr :=
  match symbolRef_at h (address (vt_base vt)) with
  | Some symbolRef =>
      if bool_decide (ptr_type symbolRef = T_Structure)
      then [ptr_addr symbolRef] else []
  | None => []
  end.

Definition type_structs (h : Store) (vt : VarType) : list addr :=
  match vt_structType vt with
  | Some st => [address (s_base st)]
  | None => []
  end ++ type_ref h vt.

(** The function declarations of a walk that have the name of the entry
    point, and what their headers reach: the structures of the return types,
    the structures of the parameter types, the parameters themselves, and
    the structures referenced by a parameter that has a declarator. *)
Definition entry_funcs (E : string) (F : Footprint) : list FunctionDecl :=
  filter (λ f, fd_name f = E) (fp_funcs F).

Definition output_structs (E : string) (F : Footprint) (h : Store)
  : list addr :=
  entry_funcs E F ≫= λ f, type_structs h (fd_returnType f).

Definition input_structs (E : string) (F : Footprint) (h : Store)
  : list addr :=
  entry_funcs E F ≫= λ f,
    fd_parameters f ≫= λ param, type_structs h (vds_varType param).

Definition input_stmnts (E : string) (F : Footprint) : list addr :=
  entry_funcs E F ≫= λ f,
    (λ param, address (vds_base param)) <$> fd_parameters f.

Definition aliased_structs (E : string) (F : Footprint) (h : Store)
  : list addr :=
  entry_funcs E F ≫= λ f,
    fd_parameters f ≫= λ param,
      match vds_varDecls param with
      | [] => []
      | _ :: _ => type_ref h (vds_varType param)
      end.

(** The flags the decoration of the entry points puts on the statement and
    on the structure at an address. *)
Definition stmnt_marks (E : string) (F : Footprint) (a : addr) : Flags :=
  if bool_decide (a ∈ input_stmnts E F)
  then {[ VarDeclStmnt_isShaderInput ]} else ∅.

Definition structure_marks (E : string) (F : Footprint) (h : Store)
    (a : addr) : Flags :=
  (if bool_decide (a ∈ output_structs E F h)
   then {[ Structure_isShaderOutput ]} else ∅)
  ∪ (if bool_decide (a ∈ input_structs E F h)
     then {[ Structure_isShaderInput ]} else ∅).

(** What a walk with footprint [F] marks when the entry point is named [E]:
    statements and structures get exactly the flags of the decoration of the
    entry points, and alias names change only where that decoration writes
    them. *)
Definition marks (E : string) (F : Footprint) (s s' : State) : Prop :=
  (∀ a, flags_at (stmntFlags (tree s')) a =
        flags_at (stmntFlags (tree s)) a ∪ stmnt_marks E F a) ∧
  (∀ a, flags_at (structureFlags (tree s')) a =
        flags_at (structureFlags (tree s)) a
          ∪ structure_marks E F (tree s') a) ∧
  (∀ a, a ∉ aliased_structs E F (tree s') →
        aliasName_at (tree s') a = aliasName_at (tree s) a).

Definition decor_rel (E : string) (F : Footprint) (s s' : State) : Prop :=
  walk_rel E F s s' ∧ (NoDup (fp_types F) → marks E F s s').

Definition decorates (E : string) (F : Footprint) (w : Walk) : Prop :=
  ∀ s s', entryPoint_ s = E → w s = Some s' → decor_rel E F s s'.

(** A step that writes no flag of a statement or structure and no alias
    name. *)
Definition plain (s s' : State) : Prop :=
  structureFlags (tree s') = structureFlags (tree s) ∧
  stmntFlags (tree s') = stmntFlags (tree s) ∧
  aliasNames (tree s') = aliasNames (tree s).

(** A step that leaves the program flags, the function flags and the symbol
    references alone. *)
Definition quiet (s s' : State) : Prop :=
  config_rel s s' ∧ flags_rel s s' ∧
  programFlags (tree s') = programFlags (tree s) ∧
  functionFlags (tree s') = functionFlags (tree s) ∧
  symbolRefs (tree s') = symbolRefs (tree s).

(** Every declaration statement of the walk declares something. *)
Definition declares (F : Footprint) : Prop :=
  Forall (λ v, vds_varDecls v ≠ []) (fp_stmnts F).

(** A walk with footprint [F] has a result from every state, provided the
    declaration statements of [F] all declare something. *)
Definition defined (F : Footprint) (w : Walk) : Prop :=
  declares F → ∀ s, is_Some (w s).

Definition sound (E : string) (F : Footprint) (w : Walk) : Prop :=
  ∀ s s', entryPoint_ s = E → w s = Some s' → walk_rel E F s s'.

(** The eight names of [intrinsicMap_]. *)
Definition interlocked_names : list string :=
  [ "InterlockedAdd"; "InterlockedAnd"; "InterlockedOr"; "InterlockedXor";
    "InterlockedMin"; "InterlockedMax"; "InterlockedCompareExchange";
    "InterlockedExchange" ].

(** ** Walks that do not depend on the diagnostics *)

(** Everything in a state but the error flag, the logger and the reports. *)
Definition decoration (s : State)
  : string * ShaderTargets * ShaderVersions * addr * bool * SymbolTable
    * Store :=
  (entryPoint_ s, shaderTarget_ s, shaderVersion_ s, program_ s,
   isInsideEntryPoint_ s, symTable_ s, tree s).

(** From two states with the same decoration a walk is undefined in both or
    ends in both, with the same decoration and the same new reports. *)
Definition agree (w : Walk) : Prop :=
  ∀ s1 s2, decoration s1 = decoration s2 →
    match w s1, w s2 with
    | Some s1', Some s2' =>
        decoration s1' = decoration s2' ∧
        ∃ new, reported s1' = new ++ reported s1 ∧
               reported s2' = new ++ reported s2
    | None, None => True
    | _, _ => False
    end.

(** ** Sample trees *)
Module Sample.

(** The full name of an identifier chain, its parts joined by dots. *)
Fixpoint dotted (v : VarIdent) : string :=
  match v with
  | mkVarIdent i _ None => i
  | mkVarIdent i _ (Some n) => i +:+ "." +:+ dotted n
  end.

Definition no_fields : Store := mkStore ∅ ∅ ∅ ∅ ∅ ∅.

(** A new analyzer with a logger, and a tree as the parser leaves it. *)
Definition start : State :=
  mkState (Some []) false [] "" 0 0 0 false SymTab.fresh no_fields.

Definition at_ (a : addr) : AST := mkAST a "1:1".

(** [struct S {};] *)
Definition struct_S : Structure := mkStructure (at_ 10) "S" [].

(** The type [S], by name. *)
Definition type_S (a : addr) : VarType := mkVarType (at_ a) "S" None.

(** [S x] *)
Definition decl_S (a b : addr) (x : string) : VarDeclStmnt :=
  mkVarDeclStmnt (at_ a) (type_S b) [mkVarDecl x [] [] None].

(** [S main(S a, S b) {}] after [struct S {};] *)
Definition main_two_params : FunctionDecl :=
  mkFunctionDecl (at_ 20) "main" [] (type_S 21)
    [decl_S 22 23 "a"; decl_S 24 25 "b"] (Some (mkCodeBlock [])).
Definition two_params : Program :=
  mkProgram (at_ 1)
    [NStructDecl (Some struct_S); NFunctionDecl main_two_params].

(** [S main() { S; }] after [struct S {};]: the statement in the body
    names the type and declares nothing. *)
Definition bare_stmnt : VarDeclStmnt :=
  mkVarDeclStmnt (at_ 30) (type_S 31) [].
Definition main_bare_stmnt : FunctionDecl :=
  mkFunctionDecl (at_ 20) "main" [] (type_S 21) []
    (Some (mkCodeBlock [NVarDeclStmnt bare_stmnt])).
Definition bare_statement : Program :=
  mkProgram (at_ 1)
    [NStructDecl (Some struct_S); NFunctionDecl main_bare_stmnt].

(** [tbuffer { }] next to a declaration without a type. *)
Definition untyped : VarDeclStmnt :=
  mkVarDeclStmnt (at_ 40) (mkVarType (at_ 41) "" None)
    [mkVarDecl "x" [] [] None].
Definition tbuffer_program : Program :=
  mkProgram (at_ 1) [NBufferDecl (at_ 50) "tbuffer" [NVarDeclStmnt untyped]].

(** [S helper(S a, S b) {}] after [struct S {};]: the header of
    [main_two_params] on a function that is not the entry point. *)
Definition helper_two_params : Program :=
  mkProgram (at_ 1)
    [NStructDecl (Some struct_S);
     NFunctionDecl
       (mkFunctionDecl (at_ 20) "helper" [] (type_S 21)
          [decl_S 22 23 "a"; decl_S 24 25 "b"] (Some (mkCodeBlock [])))].

(** [T helper(T x) {}] and [S main(S a, S b) {}] after [struct S {};] and
    [struct T {};]: an entry point next to a function of another name
    whose header refers to a structure of its own. *)
Definition struct_T : Structure := mkStructure (at_ 60) "T" [].
Definition helper_T : FunctionDecl :=
  mkFunctionDecl (at_ 61) "helper" [] (mkVarType (at_ 62) "T" None)
    [mkVarDeclStmnt (at_ 63) (mkVarType (at_ 64) "T" None)
       [mkVarDecl "x" [] [] None]]
    (Some (mkCodeBlock [])).
Definition main_and_helper : Program :=
  mkProgram (at_ 1)
    [NStructDecl (Some struct_S); NStructDecl (Some struct_T);
     NFunctionDecl helper_T; NFunctionDecl main_two_params].

(** Inside the body of the entry point, with the type at address 31
    resolved to the structure at address 10, which is flagged as shader
    output and has no alias name. *)
Definition in_entry_body : State :=
  mkState (Some []) false [] "main" 0 0 1 true
    (mkSymbolTable ∅ [{[ "S" := mkPtr 10 T_Structure ]}])
    (mkStore ∅ ∅ {[ 10 := {[ Structure_isShaderOutput ]} ]} ∅ ∅
       {[ 31 := mkPtr 10 T_Structure ]}).

(** The global scope with [struct S] registered in it. *)
Definition with_S : State := register_Structure (at_ 10) "S" start.

(** [[attr(mul())] void main() { mul(a, b); sin(x); }], the statements and
    the operands being nodes of variants the analyzer has no function for. *)
Definition call (name : string) (arguments : list Node) : Node :=
  NFunctionCall (mkVarIdent name [] None) arguments.
Definition main_with_calls : FunctionDecl :=
  mkFunctionDecl (at_ 20) "main" [call "attr" [NOther 3 [call "mul" []]]]
    (mkVarType (at_ 21) "void" None) []
    (Some (mkCodeBlock
             [NOther 1 [call "mul" [NOther 2 []; NOther 2 []]];
              NOther 1 [call "sin" [NOther 2 []]]])).
Definition with_calls : Program :=
  mkProgram (at_ 1) [NFunctionDecl main_with_calls].

(** [void main() { f[mul(a, b)](); }]: a call of [mul] that is an index
    expression of a called name, and [void main() { f(mul(a, b)); }], the
    same call as an argument. *)
Definition mul_a_b : Node := NOther 2 [call "mul" [NOther 2 []; NOther 2 []]].
Definition main_of (stmnts : list Node) : FunctionDecl :=
  mkFunctionDecl (at_ 20) "main" [] (mkVarType (at_ 21) "void" None) []
    (Some (mkCodeBlock stmnts)).
Definition call_in_name : Program :=
  mkProgram (at_ 1)
    [NFunctionDecl
       (main_of [NOther 1 [NFunctionCall (mkVarIdent "f" [mul_a_b] None) []]])].
Definition call_in_argument : Program :=
  mkProgram (at_ 1)
    [NFunctionDecl (main_of [NOther 1 [call "f" [mul_a_b]]])].

(** The state the analyzer ends in on a program, if it comes that far. *)
Definition end_of (p : Program) : State :=
  match DecorateAST dotted (Some p) "main" 0 0 start with
  | Some (_, s) => s
  | None => start
  end.

End Sample.

(** ** Further relations and predicates *)

(** The line [Error] hands to the logger for a message about a node. *)
Definition error_line (entry : string * AST) : string :=
  "context error (" +:+ pos entry.2 +:+ ") : " +:+ entry.1.

(** The calls of [Error] between two states, newest first, each with its
    message and its node: the message is one of the three the visit
    functions have, it is in [reported], and the logger, if there is one,
    has got its line. *)
Definition log_rel (s s' : State) : Prop :=
  ∃ entries : list (string * AST),
    Forall (λ entry, known_report entry.1) entries ∧
    reported s' = (fst <$> entries) ++ reported s ∧
    log_ s' = (λ l, (error_line <$> entries) ++ l) <$> log_ s.

(** A symbol reference that is set stays set. *)
Definition refs_rel (s s' : State) : Prop :=
  ∀ a, is_Some (symbolRef_at (tree s) a) → is_Some (symbolRef_at (tree s') a).

(** Nothing is marked: the flags of functions, structures and statements and
    the alias names are as they were, and the walk is outside the entry
    point. *)
Definition unmarked (s s' : State) : Prop :=
  entryPoint_ s' = entryPoint_ s ∧
  isInsideEntryPoint_ s' = false ∧
  functionFlags (tree s') = functionFlags (tree s) ∧
  structureFlags (tree s') = structureFlags (tree s) ∧
  stmntFlags (tree s') = stmntFlags (tree s) ∧
  aliasNames (tree s') = aliasNames (tree s).

(** A walk with footprint [F] none of whose functions is named [E], started
    outside the entry point, has a result and marks nothing. *)
Definition calm (E : string) (F : Footprint) (w : Walk) : Prop :=
  Forall (λ f, fd_name f ≠ E) (fp_funcs F) →
  ∀ s, entryPoint_ s = E → isInsideEntryPoint_ s = false →
       ∃ s', w s = Some s' ∧ unmarked s s'.

(** The structure at an address has a flag, stored in the map. *)
Definition flag_stored (m : gmap addr Flags) (a : addr) (f : Flag) : Prop :=
  ∃ fl, m !! a = Some fl ∧ f ∈ fl.

(** A step that marks nothing and stays where it is with respect to the
    entry point. *)
Definition still (s s' : State) : Prop :=
  entryPoint_ s' = entryPoint_ s ∧
  isInsideEntryPoint_ s' = isInsideEntryPoint_ s ∧
  functionFlags (tree s') = functionFlags (tree s) ∧
  structureFlags (tree s') = structureFlags (tree s) ∧
  stmntFlags (tree s') = stmntFlags (tree s) ∧
  aliasNames (tree s') = aliasNames (tree s).

(** * Properties of the walk *)

(** ** Unfolding the visit functions *)
Section Unfold.

Variable FullVarIdent : VarIdent → string.

Lemma VisitCodeBlock_eq stmnts s :
  VisitCodeBlock FullVarIdent (mkCodeBlock stmnts) s =
  match visit_each (Visit FullVarIdent) stmnts (OpenScope s) with
  | Some s' => Some (CloseScope s')
  | None => None
  end.
Proof. reflexivity. Qed.

Lemma VisitStructure_eq base name members s :
  VisitStructure FullVarIdent (mkStructure base name members) s =
  visit_each (Visit FullVarIdent) members (register_Structure base name s).
Proof. reflexivity. Qed.

Lemma VisitFunctionDecl_eq base name attribs returnType parameters cb s :
  VisitFunctionDecl FullVarIdent
    (mkFunctionDecl base name attribs returnType parameters cb) s =
  (visit_each (Visit FullVarIdent) attribs >=>
   VisitVarType FullVarIdent returnType >=>
   visit_each (VisitVarDeclStmnt FullVarIdent) parameters >=>
   λ s1,
     (visit_ptr (VisitCodeBlock FullVarIdent) cb >=>
      λ s3, Some (set_isInsideEntryPoint false s3))
       (set_isInsideEntryPoint (bool_decide (name = entryPoint_ s1))
          (if bool_decide (name = entryPoint_ s1)
           then mark_entry_point base returnType parameters s1
           else s1)))
    (register_FunctionDecl base name s).
Proof. reflexivity. Qed.

Lemma VisitVarDeclStmnt_eq base varType varDecls :
  VisitVarDeclStmnt FullVarIdent (mkVarDeclStmnt base varType varDecls) =
  (VisitVarType FullVarIdent varType >=>
   visit_each (VisitVarDecl FullVarIdent) varDecls >=>
   decorate_variable_type varType varDecls).
Proof. reflexivity. Qed.

Lemma VisitVarType_eq base baseType structType s :
  VisitVarType FullVarIdent (mkVarType base baseType structType) s =
  if bool_decide (baseType ≠ "") then
    match Fetch baseType s with
    | Some symbol => Some (assign_symbolRef (address base) symbol s)
    | None => Some s
    end
  else
    match structType with
    | Some st => VisitStructure FullVarIdent st s
    | None => Some (Error "missing variable type" (Some base) s)
    end.
Proof. reflexivity. Qed.

Lemma VisitVarIdent_eq ident arrayIndices next :
  VisitVarIdent FullVarIdent (mkVarIdent ident arrayIndices next) =
  (visit_each (Visit FullVarIdent) arrayIndices >=>
   visit_ptr (VisitVarIdent FullVarIdent) next).
Proof. reflexivity. Qed.

Lemma VisitVarDecl_eq name arrayDims semantics initializer :
  VisitVarDecl FullVarIdent (mkVarDecl name arrayDims semantics initializer)
  = (visit_each (Visit FullVarIdent) arrayDims >=>
     visit_each (Visit FullVarIdent) semantics >=>
     visit_ptr (Visit FullVarIdent) initializer).
Proof. reflexivity. Qed.

End Unfold.

(** ** Every visit respects a walk invariant *)
Section Respects.

Variable R : State → State → Prop.
Hypothesis HR : WalkInvariant R.

Lemma respects_Some : respects R Some.
Proof. intros s s' [= <-]. apply HR. Qed.

Lemma respects_step (f : State → State) :
  (∀ s, R s (f s)) → respects R (λ s, Some (f s)).
Proof. intros Hf s s' [= <-]. apply Hf. Qed.

Lemma respects_then w k :
  respects R w → respects R k → respects R (w >=> k).
Proof.
  intros Hw Hk s s'. unfold then_.
  destruct (w s) as [s1|] eqn:E; [|done].
  intros Hs'. eapply (inv_trans R HR); eauto.
Qed.

Lemma respects_after (f : State → State) w :
  (∀ s, R s (f s)) → respects R w → respects R (λ s, w (f s)).
Proof.
  intros Hf Hw s s' Hs'. eapply (inv_trans R HR); [apply Hf|].
  by apply Hw.
Qed.

Lemma respects_visit_each {A} (visit : A → Walk) xs :
  Forall (λ x, respects R (visit x)) xs →
  respects R (visit_each visit xs).
Proof.
  induction 1 as [|x xs Hx _ IH]; simpl.
  - apply respects_Some.
  - intros s s'. destruct (visit x s) as [s1|] eqn:E; [|done].
    intros Hs'. eapply (inv_trans R HR); [by apply Hx|by apply IH].
Qed.

Lemma respects_visit_ptr {A} (visit : A → Walk) p :
  from_option (λ x, respects R (visit x)) True p →
  respects R (visit_ptr visit p).
Proof.
  destruct p as [x|]; simpl; [done|]. intros _. apply respects_Some.
Qed.

Lemma R_Register ident ty ast proc s : R s (Register ident ty ast proc s).
Proof.
  unfold Register, SymTab.Register.
  destruct (inner (symTable_ s) !! ident) as [old|];
    [destruct (proc old)|];
    first [apply (inv_Register R HR)|apply (inv_Error R HR); constructor].
Qed.

Lemma R_check_intrinsic name s : R s (check_intrinsic name s).
Proof.
  unfold check_intrinsic. destruct (intrinsic_flag name); apply HR.
Qed.

Lemma R_register_Structure base name s :
  R s (register_Structure base name s).
Proof.
  unfold register_Structure. case_bool_decide; [apply R_Register|apply HR].
Qed.

Lemma R_DecorateEntryInOut_VarType ast isInput s :
  R s (DecorateEntryInOut_VarType ast isInput s).
Proof.
  unfold DecorateEntryInOut_VarType.
  set (fl := if isInput then _ else _).
  set (s1 := match vt_structType ast with Some _ => _ | None => _ end).
  assert (R s s1) as H1 by (subst s1; destruct (vt_structType ast); apply HR).
  eapply (inv_trans R HR); [exact H1|].
  destruct (symbolRef_at _ _) as [p|]; [case_bool_decide|]; apply HR.
Qed.

Lemma R_DecorateEntryInOut_VarDeclStmnt ast isInput s :
  R s (DecorateEntryInOut_VarDeclStmnt ast isInput s).
Proof.
  unfold DecorateEntryInOut_VarDeclStmnt.
  set (fl := if isInput then Structure_isShaderInput else _).
  set (s1 := add_stmntFlag _ _ s).
  set (s2 := match vt_structType _ with Some _ => _ | None => _ end).
  assert (R s s2) as H2.
  { eapply (inv_trans R HR); [apply (inv_stmntFlags R HR)|].
    subst s2. destruct (vt_structType _); apply HR. }
  eapply (inv_trans R HR); [exact H2|].
  destruct (symbolRef_at _ _) as [p|]; [case_bool_decide|]; try apply HR.
  destruct (vds_varDecls ast); [apply HR|].
  eapply (inv_trans R HR); [apply (inv_structureFlags R HR)|apply HR].
Qed.

Lemma R_mark_entry_point base returnType parameters s :
  R s (mark_entry_point base returnType parameters s).
Proof.
  unfold mark_entry_point.
  set (s2 := DecorateEntryInOut_VarType _ _ _).
  assert (R s s2) as H2.
  { eapply (inv_trans R HR); [apply (inv_functionFlags R HR)|].
    eapply (inv_trans R HR); [apply (inv_functionFlags R HR)|].
    apply R_DecorateEntryInOut_VarType. }
  clearbody s2. revert s2 H2.
  induction parameters as [|p ps IH]; simpl; [done|].
  intros s2 H2. apply IH. eapply (inv_trans R HR); [exact H2|].
  apply R_DecorateEntryInOut_VarDeclStmnt.
Qed.

Lemma respects_decorate_variable_type varType varDecls :
  respects R (decorate_variable_type varType varDecls).
Proof.
  intros s s'. unfold decorate_variable_type.
  repeat case_match; intros [= <-]; apply HR.
Qed.

Variable FullVarIdent : VarIdent → string.

(** Every visit function respects the invariant. *)
Lemma respects_all :
  (∀ n, respects R (Visit FullVarIdent n)) ∧
  (∀ cb, respects R (VisitCodeBlock FullVarIdent cb)) ∧
  (∀ st, respects R (VisitStructure FullVarIdent st)) ∧
  (∀ fd, respects R (VisitFunctionDecl FullVarIdent fd)) ∧
  (∀ vds, respects R (VisitVarDeclStmnt FullVarIdent vds)) ∧
  (∀ vt, respects R (VisitVarType FullVarIdent vt)) ∧
  (∀ vd, respects R (VisitVarDecl FullVarIdent vd)) ∧
  (∀ vi, respects R (VisitVarIdent FullVarIdent vi)).
Proof.
  apply tree_mutind; try done; try apply respects_Some.
  - intros name args IH. simpl.
    apply (respects_after (check_intrinsic _));
      [apply R_check_intrinsic|by apply respects_visit_each].
  - intros base bt ms IH. simpl.
    apply (respects_after
             (λ s, if bool_decide (bt ≠ "cbuffer") then _ else s));
      [|by apply respects_visit_each].
    intros s. case_bool_decide; [|apply HR].
    apply (inv_Error R HR). by constructor.
  - intros o IH. simpl. by apply respects_visit_ptr.
  - intros tag vs IH. simpl. by apply respects_visit_each.
  - intros stmnts IH s s'. rewrite VisitCodeBlock_eq.
    destruct (visit_each _ _ _) as [s1|] eqn:E; [|done]. intros [= <-].
    apply (inv_scope R HR). revert E. by apply respects_visit_each.
  - intros base name ms IH s s'. rewrite VisitStructure_eq. revert s s'.
    apply (respects_after (register_Structure base name));
      [apply R_register_Structure|by apply respects_visit_each].
  - intros base name attribs rt ps cb IHa IHr IHp IHc s s'.
    rewrite VisitFunctionDecl_eq. revert s s'.
    apply (respects_after (register_FunctionDecl base name));
      [intros s; apply R_Register|].
    apply respects_then; [by apply respects_visit_each|].
    apply respects_then; [done|].
    apply respects_then; [by apply respects_visit_each|].
    apply (respects_after (λ s1, set_isInsideEntryPoint _
             (if bool_decide (name = entryPoint_ s1) then _ else s1))).
    + intros s. eapply (inv_trans R HR);
        [|apply (inv_isInsideEntryPoint R HR)].
      case_bool_decide; [apply R_mark_entry_point|apply HR].
    + apply respects_then; [by apply respects_visit_ptr|].
      apply respects_step. apply HR.
  - intros base vt vds IHt IHd. rewrite VisitVarDeclStmnt_eq.
    apply respects_then; [done|].
    apply respects_then; [by apply respects_visit_each|].
    apply respects_decorate_variable_type.
  - intros base bt st IH s s'. rewrite VisitVarType_eq.
    case_bool_decide.
    + destruct (Fetch bt s); intros [= <-]; apply HR.
    + destruct st as [st|]; [apply IH|]. intros [= <-].
      apply (inv_Error R HR). constructor.
  - intros name ds ss i IHd IHs IHi. rewrite VisitVarDecl_eq.
    apply respects_then; [by apply respects_visit_each|].
    apply respects_then; [by apply respects_visit_each|].
    by apply respects_visit_ptr.
  - intros ident idx nx IHi IHn. rewrite VisitVarIdent_eq.
    apply respects_then; [by apply respects_visit_each|].
    by apply respects_visit_ptr.
Qed.

End Respects.

(** ** The invariants *)

Lemma diag_rel_invariant : WalkInvariant diag_rel.
Proof.
  split; unfold diag_rel.
  - intros s. exists []. by rewrite orb_false_r.
  - intros s1 s2 s3 (n1 & E1 & H1) (n2 & E2 & H2). exists (n2 ++ n1).
    rewrite E2, E1, H2, H1, app_assoc. split; [done|].
    destruct n1, n2; simpl; by rewrite ?orb_false_r, ?orb_true_r.
  - intros msg ast s. exists [msg]. simpl. by rewrite orb_true_r.
  - intros f s. exists []. by rewrite orb_false_r.
  - intros s s' (n & E & H). exists n. by destruct s, s'.
  - intros b s. exists []. by rewrite orb_false_r.
  - intros a f s. exists []. by rewrite orb_false_r.
  - intros a f s. exists []. by rewrite orb_false_r.
  - intros a f s. exists []. by rewrite orb_false_r.
  - intros a f s. exists []. by rewrite orb_false_r.
  - intros a f s. exists []. by rewrite orb_false_r.
  - intros a f s. exists []. by rewrite orb_false_r.
Qed.

Lemma scope_rel_invariant : WalkInvariant scope_rel.
Proof.
  split; unfold scope_rel; try done.
  - intros s1 s2 s3 H1 H2. by rewrite H2.
  - intros s s' H. simpl in H. unfold CloseScope, SymTab.CloseScope.
    by rewrite H.
Qed.

Lemma config_rel_invariant : WalkInvariant config_rel.
Proof.
  split; unfold config_rel; try done.
  intros s1 s2 s3 (?&?&?&?) (?&?&?&?). repeat split; congruence.
Qed.

Lemma flags_at_add_flag a f m b :
  flags_at (add_flag a f m) b =
  if bool_decide (a = b) then flags_at m a ∪ {[f]} else flags_at m b.
Proof.
  unfold add_flag, flags_at at 1. case_bool_decide as E.
  - subst. by rewrite lookup_insert_eq.
  - by rewrite lookup_insert_ne.
Qed.

Lemma flags_at_add_flag_mono a f m b :
  flags_at m b ⊆ flags_at (add_flag a f m) b.
Proof.
  rewrite flags_at_add_flag. case_bool_decide; [subst|]; set_solver.
Qed.

Lemma flags_rel_invariant : WalkInvariant flags_rel.
Proof.
  split; unfold flags_rel; try done;
    try (intros a f s b; simpl; repeat split;
         first [apply flags_at_add_flag_mono|done]).
  intros s1 s2 s3 H1 H2 a. destruct (H1 a) as (?&?&?&?).
  destruct (H2 a) as (?&?&?&?). repeat split; set_solver.
Qed.


Lemma respects_VisitProgram FullVarIdent R p :
  WalkInvariant R → respects R (VisitProgram FullVarIdent p).
Proof.
  intros HR. apply respects_visit_each; [done|].
  apply Forall_forall. intros n _. by apply respects_all.
Qed.

(** ** The diagnostics do not steer the walk *)
Section Agree.

Ltac same_fields_in H :=
  match type of H with
  | decoration ?a = decoration ?b =>
      destruct a, b; unfold decoration in H; simpl in H; simplify_eq
  end;
  cbn; repeat (case_match; simplify_eq/=); try done.

Ltac same_fields := let H := fresh in intros ? ? H; same_fields_in H.

Lemma agree_Some : agree Some.
Proof. intros s1 s2 H. split; [done|]. by exists []. Qed.

Lemma agree_step (f : State → State) :
  (∀ s1 s2, decoration s1 = decoration s2 →
            decoration (f s1) = decoration (f s2)) →
  (∀ s, reported (f s) = reported s) →
  agree (λ s, Some (f s)).
Proof.
  intros Hd Hr s1 s2 H. split; [by apply Hd|]. exists []. by rewrite !Hr.
Qed.

Lemma agree_Error msg ast : agree (λ s, Some (Error msg ast s)).
Proof.
  intros s1 s2 H. split; [|by exists [msg]].
  by same_fields_in H.
Qed.

Lemma agree_then w k : agree w → agree k → agree (w >=> k).
Proof.
  intros Hw Hk s1 s2 H. unfold then_. specialize (Hw s1 s2 H).
  destruct (w s1) as [s1'|], (w s2) as [s2'|]; try done.
  destruct Hw as (Hd & new & E1 & E2). specialize (Hk s1' s2' Hd).
  destruct (k s1') as [s1''|], (k s2') as [s2''|]; try done.
  destruct Hk as (Hd' & new' & E1' & E2'). split; [done|].
  exists (new' ++ new). by rewrite E1', E2', E1, E2, !app_assoc.
Qed.

Lemma agree_after (f : State → State) w :
  agree (λ s, Some (f s)) → agree w → agree (λ s, w (f s)).
Proof. intros Hf Hw. exact (agree_then _ _ Hf Hw). Qed.

Lemma agree_visit_each {A} (visit : A → Walk) xs :
  Forall (λ x, agree (visit x)) xs → agree (visit_each visit xs).
Proof.
  induction 1 as [|x xs Hx _ IH]; [apply agree_Some|].
  exact (agree_then _ _ Hx IH).
Qed.

Lemma agree_visit_ptr {A} (visit : A → Walk) p :
  from_option (λ x, agree (visit x)) True p → agree (visit_ptr visit p).
Proof. destruct p; [done|]. intros _. apply agree_Some. Qed.

Lemma agree_Register ident ty ast proc :
  agree (λ s, Some (Register ident ty ast proc s)).
Proof.
  intros s1 s2 H. unfold Register.
  assert (symTable_ s1 = symTable_ s2) as -> by (by same_fields_in H).
  destruct (SymTab.Register _ _ _ _) as [what|t].
  - by apply agree_Error.
  - split; [|by exists []]. by same_fields_in H.
Qed.

Lemma agree_register_Structure base name :
  agree (λ s, Some (register_Structure base name s)).
Proof.
  unfold register_Structure. case_bool_decide;
    [apply agree_Register|apply agree_Some].
Qed.

Lemma agree_check_intrinsic name :
  agree (λ s, Some (check_intrinsic name s)).
Proof.
  unfold check_intrinsic. destruct (intrinsic_flag name); [|apply agree_Some].
  apply agree_step; [by same_fields|done].
Qed.

Lemma agree_DecorateEntryInOut_VarType ast isInput :
  agree (λ s, Some (DecorateEntryInOut_VarType ast isInput s)).
Proof.
  apply agree_step.
  - unfold DecorateEntryInOut_VarType. by same_fields.
  - intros []. unfold DecorateEntryInOut_VarType. cbn.
    by repeat case_match.
Qed.

Lemma agree_DecorateEntryInOut_VarDeclStmnt ast isInput :
  agree (λ s, Some (DecorateEntryInOut_VarDeclStmnt ast isInput s)).
Proof.
  apply agree_step.
  - unfold DecorateEntryInOut_VarDeclStmnt. by same_fields.
  - intros []. unfold DecorateEntryInOut_VarDeclStmnt. cbn.
    by repeat case_match.
Qed.

Lemma agree_foldl {A} (f : A → State → State) xs :
  (∀ x, agree (λ s, Some (f x s))) →
  agree (λ s, Some (foldl (λ acc x, f x acc) s xs)).
Proof.
  intros Hf. induction xs as [|x xs IH]; [apply agree_Some|].
  exact (agree_then _ _ (Hf x) IH).
Qed.

Lemma agree_mark_entry_point base returnType parameters :
  agree (λ s, Some (mark_entry_point base returnType parameters s)).
Proof.
  unfold mark_entry_point.
  apply (agree_then (λ s, Some (add_functionFlag _ _ s))
           (λ s, Some (foldl _ (DecorateEntryInOut_VarType _ _
                                  (add_functionFlag _ _ s)) _))).
  { apply agree_step; [by same_fields|done]. }
  apply (agree_then (λ s, Some (add_functionFlag _ _ s))
           (λ s, Some (foldl _ (DecorateEntryInOut_VarType _ _ s) _))).
  { apply agree_step; [by same_fields|done]. }
  apply (agree_then (λ s, Some (DecorateEntryInOut_VarType _ _ s))
           (λ s, Some (foldl _ s _))).
  { apply agree_DecorateEntryInOut_VarType. }
  apply (agree_foldl (λ param s, DecorateEntryInOut_VarDeclStmnt param true s)).
  intros x. apply agree_DecorateEntryInOut_VarDeclStmnt.
Qed.

Lemma agree_decorate_variable_type varType varDecls :
  agree (decorate_variable_type varType varDecls).
Proof.
  unfold decorate_variable_type. intros s1 s2 H.
  destruct s1, s2; unfold decoration in H; simpl in H; simplify_eq; cbn.
  repeat (case_match; simplify_eq/=); try done; (split; [done|by exists []]).
Qed.

Variable FullVarIdent : VarIdent → string.

(** Every visit function agrees on states of the same decoration. *)
Lemma agree_all :
  (∀ n, agree (Visit FullVarIdent n)) ∧
  (∀ cb, agree (VisitCodeBlock FullVarIdent cb)) ∧
  (∀ st, agree (VisitStructure FullVarIdent st)) ∧
  (∀ fd, agree (VisitFunctionDecl FullVarIdent fd)) ∧
  (∀ vds, agree (VisitVarDeclStmnt FullVarIdent vds)) ∧
  (∀ vt, agree (VisitVarType FullVarIdent vt)) ∧
  (∀ vd, agree (VisitVarDecl FullVarIdent vd)) ∧
  (∀ vi, agree (VisitVarIdent FullVarIdent vi)).
Proof.
  apply tree_mutind; try done; try apply agree_Some.
  - intros name args IH. simpl.
    apply (agree_after (check_intrinsic _));
      [apply agree_check_intrinsic|by apply agree_visit_each].
  - intros base bt ms IH. simpl.
    apply (agree_after
             (λ s, if bool_decide (bt ≠ "cbuffer") then _ else s));
      [|by apply agree_visit_each].
    case_bool_decide; [apply agree_Error|apply agree_Some].
  - intros o IH. simpl. by apply agree_visit_ptr.
  - intros tag vs IH. simpl. by apply agree_visit_each.
  - intros stmnts IH.
    apply (agree_after OpenScope
             (visit_each (Visit FullVarIdent) stmnts
                >=> λ s', Some (CloseScope s'))).
    + apply agree_step; [by same_fields|done].
    + apply agree_then; [by apply agree_visit_each|].
      apply agree_step; [by same_fields|done].
  - intros base name ms IH.
    apply (agree_after (register_Structure base name)
             (visit_each (Visit FullVarIdent) ms));
      [apply agree_register_Structure|by apply agree_visit_each].
  - intros base name attribs rt ps cb IHa IHr IHp IHc.
    apply (agree_after (register_FunctionDecl base name)
      (visit_each (Visit FullVarIdent) attribs >=>
       VisitVarType FullVarIdent rt >=>
       visit_each (VisitVarDeclStmnt FullVarIdent) ps >=>
       λ s1,
         (visit_ptr (VisitCodeBlock FullVarIdent) cb >=>
          λ s3, Some (set_isInsideEntryPoint false s3))
           (set_isInsideEntryPoint (bool_decide (name = entryPoint_ s1))
              (if bool_decide (name = entryPoint_ s1)
               then mark_entry_point base rt ps s1
               else s1)))); [apply agree_Register|].
    apply agree_then; [by apply agree_visit_each|].
    apply agree_then; [done|].
    apply agree_then; [by apply agree_visit_each|].
    apply (agree_after (λ s1, set_isInsideEntryPoint _
             (if bool_decide (name = entryPoint_ s1) then _ else s1))).
    + intros s1 s2 H.
      assert (entryPoint_ s1 = entryPoint_ s2) as He
        by (by same_fields_in H).
      rewrite He. case_bool_decide.
      * apply (agree_then
                 (λ s, Some (mark_entry_point base rt ps s))
                 (λ s, Some (set_isInsideEntryPoint true s)));
          [apply agree_mark_entry_point| |done].
        apply agree_step; [by same_fields|done].
      * apply (agree_step (set_isInsideEntryPoint false));
          [by same_fields|done|done].
    + apply agree_then; [by apply agree_visit_ptr|].
      apply agree_step; [by same_fields|done].
  - intros base vt vds IHt IHd. rewrite VisitVarDeclStmnt_eq.
    apply agree_then; [done|].
    apply agree_then; [by apply agree_visit_each|].
    apply agree_decorate_variable_type.
  - intros base bt st IH s1 s2 H. rewrite !VisitVarType_eq.
    case_bool_decide.
    + unfold Fetch.
      assert (symTable_ s1 = symTable_ s2) as -> by (by same_fields_in H).
      destruct (SymTab.Fetch bt _).
      * revert s1 s2 H. apply agree_step; [by same_fields|done].
      * by apply agree_Some.
    + destruct st as [st|]; [by apply IH|]. by apply agree_Error.
  - intros name ds ss i IHd IHs IHi. rewrite VisitVarDecl_eq.
    apply agree_then; [by apply agree_visit_each|].
    apply agree_then; [by apply agree_visit_each|].
    by apply agree_visit_ptr.
  - intros ident idx nx IHi IHn. rewrite VisitVarIdent_eq.
    apply agree_then; [by apply agree_visit_each|].
    by apply agree_visit_ptr.
Qed.

End Agree.

(** ** What a walk does to the flags *)

Lemma fp_app_empty_l F : fp_empty ⋅ F = F.
Proof. by destruct F. Qed.

Lemma fp_app_empty_r F : F ⋅ fp_empty = F.
Proof. destruct F. unfold fp_app. simpl. by rewrite !app_nil_r. Qed.

Lemma call_flags_app F G : call_flags (F ⋅ G) = call_flags F ∪ call_flags G.
Proof. unfold call_flags. simpl. by rewrite omap_app, list_to_set_app_L. Qed.

Lemma entry_addrs_app E F G :
  entry_addrs E (F ⋅ G) = entry_addrs E F ++ entry_addrs E G.
Proof. unfold entry_addrs. simpl. by rewrite filter_app, fmap_app. Qed.

Lemma entry_flags_app E F G a :
  entry_flags E (F ⋅ G) a = entry_flags E F a ∪ entry_flags E G a.
Proof.
  unfold entry_flags. rewrite entry_addrs_app.
  repeat case_bool_decide; set_solver.
Qed.

Lemma flags_rel_refl s : flags_rel s s.
Proof. apply flags_rel_invariant. Qed.

Lemma walk_base_refl E s : walk_base E fp_empty s s.
Proof.
  split; [apply config_rel_invariant|]. split; [apply flags_rel_refl|].
  split; [|split]; intros a; [|unfold entry_flags; simpl|done].
  - case_bool_decide; unfold call_flags; simpl; set_solver.
  - set_solver.
Qed.

Lemma walk_base_trans E F G s1 s2 s3 :
  walk_base E F s1 s2 → walk_base E G s2 s3 → walk_base E (F ⋅ G) s1 s3.
Proof.
  intros (Hc1 & Hf1 & Hp1 & Hd1 & Hr1) (Hc2 & Hf2 & Hp2 & Hd2 & Hr2).
  split; [by eapply (inv_trans _ config_rel_invariant)|].
  split; [by eapply (inv_trans _ flags_rel_invariant)|].
  destruct Hc1 as (_ & Hprog & _). split; [|split]; intros a.
  - rewrite Hp2, Hp1, Hprog, call_flags_app.
    case_bool_decide; set_solver.
  - rewrite Hd2, Hd1, entry_flags_app. set_solver.
  - simpl. intros Ha. rewrite Hr2, Hr1; set_solver.
Qed.

Lemma type_decorated_stable fl vt s s' :
  type_decorated fl vt s → flags_rel s s' →
  symbolRef_at (tree s') (address (vt_base vt))
    = symbolRef_at (tree s) (address (vt_base vt)) →
  type_decorated fl vt s'.
Proof.
  intros [H1 H2] Hf Hr. split.
  - intros st Hst. destruct (Hf (address (s_base st))) as (_ & _ & Hs & _).
    apply Hs. by apply H1.
  - intros p Hp Ht. rewrite Hr in Hp.
    destruct (Hf (ptr_addr p)) as (_ & _ & Hs & _). apply Hs. by apply H2.
Qed.

Lemma entry_decorated_stable f s s' :
  entry_decorated f s → flags_rel s s' →
  (∀ a, a ∈ header_types f →
        symbolRef_at (tree s') a = symbolRef_at (tree s) a) →
  entry_decorated f s'.
Proof.
  intros (H1 & H2 & H3 & H4) Hf Hr.
  destruct (Hf (address (fd_base f))) as (_ & Hfn & _ & _).
  split; [by apply Hfn|]. split; [by apply Hfn|]. split.
  - eapply type_decorated_stable; [done..|]. apply Hr. unfold header_types.
    set_solver.
  - apply Forall_forall. intros param Hin.
    rewrite Forall_forall in H4. destruct (H4 param Hin) as [Ha Hb]. split.
    + destruct (Hf (address (vds_base param))) as (_ & _ & _ & Hs).
      by apply Hs.
    + eapply type_decorated_stable; [done..|]. apply Hr. unfold header_types.
      apply elem_of_cons. right. apply list_elem_of_fmap. by exists param.
Qed.

Lemma walk_rel_trans E F G s1 s2 s3 :
  walk_rel E F s1 s2 → walk_rel E G s2 s3 → walk_rel E (F ⋅ G) s1 s3.
Proof.
  intros [Hb1 He1] [Hb2 He2]. split; [by eapply walk_base_trans|].
  intros Hnd f Hf Hname. simpl in Hnd, Hf.
  apply NoDup_app in Hnd as (Hn1 & Hdisj & Hn2).
  apply elem_of_app in Hf as [Hf|Hf].
  - destruct (He1 Hn1 f Hf Hname) as [Hdec Hsub]. split.
    + destruct Hb2 as (_ & Hfl & _ & _ & Hr).
      eapply entry_decorated_stable; [done..|].
      intros a Ha. apply Hr. apply Hdisj. by apply Hsub.
    + simpl. set_solver.
  - destruct (He2 Hn2 f Hf Hname) as [Hdec Hsub]. split; [done|].
    simpl. set_solver.
Qed.

Lemma walk_rel_refl E s : walk_rel E fp_empty s s.
Proof. split; [apply walk_base_refl|]. intros _ f Hf. by inversion Hf. Qed.

Lemma quiet_refl s : quiet s s.
Proof. split; [apply config_rel_invariant|]. split; [apply flags_rel_refl|done]. Qed.

Lemma quiet_trans s1 s2 s3 : quiet s1 s2 → quiet s2 s3 → quiet s1 s3.
Proof.
  intros (?&?&?&?&?) (?&?&?&?&?).
  split; [by eapply (inv_trans _ config_rel_invariant)|].
  split; [by eapply (inv_trans _ flags_rel_invariant)|].
  repeat split; congruence.
Qed.

Lemma walk_rel_quiet E s s' : quiet s s' → walk_rel E fp_empty s s'.
Proof.
  intros (Hc & Hf & Hp & Hd & Hr).
  split; [|intros _ f Hf'; by inversion Hf'].
  split; [done|]. split; [done|].
  split; [|split]; intros a.
  - rewrite Hp. case_bool_decide; unfold call_flags; simpl; set_solver.
  - rewrite Hd. unfold entry_flags. simpl. set_solver.
  - intros _. unfold symbolRef_at. by rewrite Hr.
Qed.

Lemma quiet_same_tree s s' :
  config_rel s s' → tree s' = tree s → quiet s s'.
Proof.
  intros Hc Ht. split; [done|]. unfold flags_rel. rewrite Ht.
  by repeat split.
Qed.

Lemma quiet_Error msg ast s : quiet s (Error msg ast s).
Proof. by apply quiet_same_tree. Qed.

Lemma quiet_set_symTable t s : quiet s (set_symTable t s).
Proof. by apply quiet_same_tree. Qed.

Lemma quiet_Register ident ty ast proc s : quiet s (Register ident ty ast proc s).
Proof.
  unfold Register. destruct (SymTab.Register _ _ _ _);
    [apply quiet_Error|apply quiet_set_symTable].
Qed.

Lemma quiet_register_Structure base name s :
  quiet s (register_Structure base name s).
Proof.
  unfold register_Structure. case_bool_decide;
    [apply quiet_Register|apply quiet_refl].
Qed.

Lemma quiet_set_isInsideEntryPoint b s : quiet s (set_isInsideEntryPoint b s).
Proof. by apply quiet_same_tree. Qed.

Lemma quiet_add_structureFlag a f s : quiet s (add_structureFlag a f s).
Proof.
  split; [done|]. split; [apply (inv_structureFlags _ flags_rel_invariant)|done].
Qed.

Lemma quiet_add_stmntFlag a f s : quiet s (add_stmntFlag a f s).
Proof.
  split; [done|]. split; [apply (inv_stmntFlags _ flags_rel_invariant)|done].
Qed.

Lemma quiet_assign_aliasName a n s : quiet s (assign_aliasName a n s).
Proof.
  split; [done|]. split; [apply (inv_aliasName _ flags_rel_invariant)|done].
Qed.

Lemma quiet_decorate_variable_type varType varDecls s s' :
  decorate_variable_type varType varDecls s = Some s' → quiet s s'.
Proof.
  unfold decorate_variable_type.
  repeat case_match; intros [= <-];
    first [apply quiet_refl|apply quiet_assign_aliasName].
Qed.

Lemma quiet_DecorateEntryInOut_VarType ast isInput s :
  quiet s (DecorateEntryInOut_VarType ast isInput s).
Proof.
  unfold DecorateEntryInOut_VarType.
  set (s1 := match vt_structType ast with Some _ => _ | None => _ end).
  assert (quiet s s1) as H1.
  { subst s1. destruct (vt_structType ast);
      [apply quiet_add_structureFlag|apply quiet_refl]. }
  eapply quiet_trans; [exact H1|].
  destruct (symbolRef_at _ _); [case_bool_decide|];
    first [apply quiet_add_structureFlag|apply quiet_refl].
Qed.

Lemma quiet_DecorateEntryInOut_VarDeclStmnt ast isInput s :
  quiet s (DecorateEntryInOut_VarDeclStmnt ast isInput s).
Proof.
  unfold DecorateEntryInOut_VarDeclStmnt.
  set (s2 := match vt_structType _ with Some _ => _ | None => _ end).
  assert (quiet s s2) as H2.
  { eapply quiet_trans; [apply quiet_add_stmntFlag|].
    subst s2. destruct (vt_structType _);
      [apply quiet_add_structureFlag|apply quiet_refl]. }
  eapply quiet_trans; [exact H2|].
  destruct (symbolRef_at _ _); [case_bool_decide|]; try apply quiet_refl.
  destruct (vds_varDecls ast); [apply quiet_add_structureFlag|].
  eapply quiet_trans; [apply quiet_add_structureFlag|].
  apply quiet_assign_aliasName.
Qed.

Lemma quiet_decorate_parameters parameters s :
  quiet s
    (foldl (λ acc param, DecorateEntryInOut_VarDeclStmnt param true acc)
       s parameters).
Proof.
  revert s. induction parameters as [|p ps IH]; intros s; simpl;
    [apply quiet_refl|].
  eapply quiet_trans; [apply quiet_DecorateEntryInOut_VarDeclStmnt|apply IH].
Qed.

Section Sound.

Variable E : string.

Lemma sound_Some : sound E fp_empty Some.
Proof. intros s s' _ [= <-]. apply walk_rel_refl. Qed.

Lemma sound_then F G w k :
  sound E F w → sound E G k → sound E (F ⋅ G) (w >=> k).
Proof.
  intros Hw Hk s s' HE. unfold then_.
  destruct (w s) as [s1|] eqn:E1; [|done]. intros Hs'.
  pose proof (Hw s s1 HE E1) as H1.
  eapply walk_rel_trans; [exact H1|]. apply Hk; [|done].
  destruct H1 as [(Hc & _) _]. destruct Hc as [-> _]. done.
Qed.

Lemma sound_step F G (f : State → State) w :
  (∀ s, entryPoint_ s = E → walk_rel E F s (f s)) →
  sound E G w → sound E (F ⋅ G) (λ s, w (f s)).
Proof.
  intros Hf Hw.
  apply (sound_then F G (λ s, Some (f s)) w); [|done].
  intros s s' HE [= <-]. by apply Hf.
Qed.

Lemma sound_before F (f : State → State) w :
  (∀ s, quiet s (f s)) → sound E F w → sound E F (λ s, w (f s)).
Proof.
  intros Hf Hw. rewrite <- (fp_app_empty_l F).
  apply sound_step; [|done]. intros s _. by apply walk_rel_quiet.
Qed.

Lemma sound_finally F w (k : Walk) :
  sound E F w → (∀ s s', k s = Some s' → quiet s s') → sound E F (w >=> k).
Proof.
  intros Hw Hk. rewrite <- (fp_app_empty_r F).
  apply sound_then; [done|]. intros s s' _ Hs'.
  by apply walk_rel_quiet, Hk.
Qed.

Lemma sound_visit_each {A} (fp : A → Footprint) (visit : A → Walk) xs :
  Forall (λ x, sound E (fp x) (visit x)) xs →
  sound E (fp_all fp xs) (visit_each visit xs).
Proof.
  induction 1 as [|x xs Hx _ IH]; [apply sound_Some|].
  exact (sound_then _ _ _ _ Hx IH).
Qed.

Lemma sound_visit_ptr {A} (fp : A → Footprint) (visit : A → Walk) p :
  from_option (λ x, sound E (fp x) (visit x)) True p →
  sound E (fp_opt fp p) (visit_ptr visit p).
Proof. destruct p; [done|]. intros _. apply sound_Some. Qed.

End Sound.

Lemma walk_rel_check_intrinsic E name s :
  walk_rel E (fp_call name) s (check_intrinsic name s).
Proof.
  split; [|intros _ f Hf; by inversion Hf].
  split; [apply (R_check_intrinsic _ config_rel_invariant)|].
  split; [apply (R_check_intrinsic _ flags_rel_invariant)|].
  unfold check_intrinsic, call_flags. simpl.
  split; [|split]; intros a.
  - destruct (intrinsic_flag name) as [f|]; simpl.
    + rewrite flags_at_add_flag. repeat case_bool_decide; set_solver.
    + case_bool_decide; set_solver.
  - unfold entry_flags. simpl.
    destruct (intrinsic_flag name); simpl; set_solver.
  - by destruct (intrinsic_flag name).
Qed.

Lemma walk_rel_type E a s s' :
  config_rel s s' → flags_rel s s' →
  programFlags (tree s') = programFlags (tree s) →
  functionFlags (tree s') = functionFlags (tree s) →
  (∀ b, b ≠ a → symbolRef_at (tree s') b = symbolRef_at (tree s) b) →
  walk_rel E (fp_type a) s s'.
Proof.
  intros Hc Hf Hp Hd Hr. split; [|intros _ f Hf'; by inversion Hf'].
  split; [done|]. split; [done|]. split; [|split]; intros b.
  - rewrite Hp. case_bool_decide; unfold call_flags; simpl; set_solver.
  - rewrite Hd. unfold entry_flags. simpl. set_solver.
  - simpl. intros Hb. apply Hr. set_solver.
Qed.

Lemma DecorateEntryInOut_VarType_decorates ast s :
  type_decorated Structure_isShaderOutput ast
    (DecorateEntryInOut_VarType ast false s).
Proof.
  unfold DecorateEntryInOut_VarType.
  set (s1 := match vt_structType ast with Some _ => _ | None => _ end).
  assert (∀ st, vt_structType ast = Some st →
            Structure_isShaderOutput
              ∈ flags_at (structureFlags (tree s1)) (address (s_base st)))
    as H1.
  { intros st Hst. subst s1. rewrite Hst. simpl.
    rewrite flags_at_add_flag, bool_decide_eq_true_2 by done. set_solver. }
  assert (symbolRefs (tree s1) = symbolRefs (tree s)) as Hr1.
  { subst s1. by destruct (vt_structType ast). }
  destruct (symbolRef_at (tree s1) _) as [p|] eqn:Hp.
  - case_bool_decide as Ht.
    + split.
      * intros st Hst. simpl. apply flags_at_add_flag_mono. by apply H1.
      * intros p' Hp' _.
        change (symbolRef_at (tree s1) (address (vt_base ast)) = Some p')
          in Hp'.
        rewrite Hp in Hp'. injection Hp' as <-. simpl.
        rewrite flags_at_add_flag, bool_decide_eq_true_2 by done. set_solver.
    + split; [done|]. intros p' Hp' Ht'. rewrite Hp in Hp'. by simplify_eq.
  - split; [done|]. intros p' Hp'. by rewrite Hp in Hp'.
Qed.

Lemma DecorateEntryInOut_VarDeclStmnt_decorates ast s :
  let s' := DecorateEntryInOut_VarDeclStmnt ast true s in
  VarDeclStmnt_isShaderInput
    ∈ flags_at (stmntFlags (tree s')) (address (vds_base ast)) ∧
  type_decorated Structure_isShaderInput (vds_varType ast) s'.
Proof.
  cbv zeta. unfold DecorateEntryInOut_VarDeclStmnt.
  set (s1 := add_stmntFlag _ _ s).
  set (s2 := match vt_structType _ with Some _ => _ | None => _ end).
  assert (VarDeclStmnt_isShaderInput
            ∈ flags_at (stmntFlags (tree s2)) (address (vds_base ast))) as H0.
  { assert (stmntFlags (tree s2) = stmntFlags (tree s1)) as ->
      by (subst s2; by destruct (vt_structType _)).
    subst s1. simpl.
    rewrite flags_at_add_flag, bool_decide_eq_true_2 by done. set_solver. }
  assert (∀ st, vt_structType (vds_varType ast) = Some st →
            Structure_isShaderInput
              ∈ flags_at (structureFlags (tree s2)) (address (s_base st)))
    as H1.
  { intros st Hst. subst s2. rewrite Hst. simpl.
    rewrite flags_at_add_flag, bool_decide_eq_true_2 by done. set_solver. }
  destruct (symbolRef_at (tree s2) _) as [p|] eqn:Hp.
  - case_bool_decide as Ht.
    + assert (∀ s3, s3 = add_structureFlag (ptr_addr p)
                            Structure_isShaderInput s2 →
        VarDeclStmnt_isShaderInput
          ∈ flags_at (stmntFlags (tree s3)) (address (vds_base ast)) ∧
        type_decorated Structure_isShaderInput (vds_varType ast) s3) as H3.
      { intros s3 ->. split; [done|]. split.
        - intros st Hst. simpl. apply flags_at_add_flag_mono. by apply H1.
        - intros p' Hp' _.
          change (symbolRef_at (tree s2)
                    (address (vt_base (vds_varType ast))) = Some p') in Hp'.
          rewrite Hp in Hp'. injection Hp' as <-. simpl.
          rewrite flags_at_add_flag, bool_decide_eq_true_2 by done.
          set_solver. }
      destruct (vds_varDecls ast) as [|d ds]; [by apply H3|].
      destruct (H3 _ eq_refl) as [Ha Hb]. split; [done|].
      eapply type_decorated_stable; [exact Hb| |done].
      apply (inv_aliasName _ flags_rel_invariant).
    + split; [done|]. split; [done|].
      intros p' Hp' Ht'. rewrite Hp in Hp'. by simplify_eq.
  - split; [done|]. split; [done|]. intros p' Hp'. by rewrite Hp in Hp'.
Qed.

Lemma decorate_parameters_decorates parameters s :
  let s' :=
    foldl (λ acc param, DecorateEntryInOut_VarDeclStmnt param true acc)
      s parameters in
  Forall
    (λ param,
       VarDeclStmnt_isShaderInput
         ∈ flags_at (stmntFlags (tree s')) (address (vds_base param)) ∧
       type_decorated Structure_isShaderInput (vds_varType param) s')
    parameters.
Proof.
  cbv zeta. revert s. induction parameters as [|p ps IH]; intros s; simpl;
    [done|].
  constructor; [|apply IH].
  destruct (DecorateEntryInOut_VarDeclStmnt_decorates p s) as [Ha Hb].
  set (s1 := DecorateEntryInOut_VarDeclStmnt p true s) in *.
  destruct (quiet_decorate_parameters ps s1) as (_ & Hf & _ & _ & Hr).
  split.
  - destruct (Hf (address (vds_base p))) as (_ & _ & _ & Hs). by apply Hs.
  - eapply type_decorated_stable; [done..|]. unfold symbolRef_at.
    by rewrite Hr.
Qed.

Lemma quiet_mark_body returnType parameters s :
  quiet s
    (foldl (λ acc param, DecorateEntryInOut_VarDeclStmnt param true acc)
       (DecorateEntryInOut_VarType returnType false s) parameters).
Proof.
  eapply quiet_trans; [apply quiet_DecorateEntryInOut_VarType|].
  apply quiet_decorate_parameters.
Qed.

Lemma mark_entry_point_decorated base name attribs returnType parameters cb s :
  entry_decorated
    (mkFunctionDecl base name attribs returnType parameters cb)
    (mark_entry_point base returnType parameters s).
Proof.
  unfold mark_entry_point.
  set (s1 := add_functionFlag (address base) FunctionDecl_isUsed _).
  set (s2 := DecorateEntryInOut_VarType returnType false s1).
  destruct (quiet_decorate_parameters parameters s2) as (_ & Hf & _ & Hd & Hr).
  destruct (quiet_DecorateEntryInOut_VarType returnType false s1)
    as (_ & _ & _ & Hd1 & _). fold s2 in Hd1.
  assert (∀ fl, fl = FunctionDecl_isEntryPoint ∨ fl = FunctionDecl_isUsed →
            fl ∈ flags_at (functionFlags (tree s1)) (address base)) as H1.
  { intros fl Hfl. subst s1. simpl.
    rewrite !flags_at_add_flag, !bool_decide_eq_true_2 by done.
    set_solver. }
  unfold entry_decorated. simpl. rewrite Hd, Hd1.
  split; [apply H1; by left|]. split; [apply H1; by right|]. split.
  - eapply type_decorated_stable;
      [apply DecorateEntryInOut_VarType_decorates|done|].
    unfold symbolRef_at. by rewrite Hr.
  - apply decorate_parameters_decorates.
Qed.

Lemma mark_entry_point_fields base returnType parameters s :
  let s' := mark_entry_point base returnType parameters s in
  config_rel s s' ∧ flags_rel s s' ∧
  programFlags (tree s') = programFlags (tree s) ∧
  functionFlags (tree s') =
    add_flag (address base) FunctionDecl_isUsed
      (add_flag (address base) FunctionDecl_isEntryPoint
         (functionFlags (tree s))) ∧
  symbolRefs (tree s') = symbolRefs (tree s).
Proof.
  cbv zeta.
  split; [apply (R_mark_entry_point _ config_rel_invariant)|].
  split; [apply (R_mark_entry_point _ flags_rel_invariant)|].
  unfold mark_entry_point.
  set (s1 := add_functionFlag (address base) FunctionDecl_isUsed _).
  destruct (quiet_mark_body returnType parameters s1)
    as (_ & _ & Hp & Hd & Hr).
  by rewrite Hp, Hd, Hr.
Qed.

Lemma entry_flags_func E f a :
  entry_flags E (fp_func f) a =
  if bool_decide (fd_name f = E ∧ a = address (fd_base f))
  then {[ FunctionDecl_isEntryPoint; FunctionDecl_isUsed ]} else ∅.
Proof.
  unfold entry_flags, entry_addrs. simpl. rewrite filter_cons, filter_nil.
  destruct (decide (fd_name f = E)) as [Hn|Hn]; simpl.
  - repeat case_bool_decide; set_solver.
  - repeat case_bool_decide; try done; set_solver || tauto.
Qed.

Lemma walk_rel_mark E F base name attribs returnType parameters cb s s2 :
  let f := mkFunctionDecl base name attribs returnType parameters cb in
  entryPoint_ s = E →
  walk_rel E F s s2 →
  header_types f ⊆ fp_types F →
  walk_rel E (F ⋅ fp_func f) s
    (set_isInsideEntryPoint (bool_decide (name = entryPoint_ s2))
       (if bool_decide (name = entryPoint_ s2)
        then mark_entry_point base returnType parameters s2
        else s2)).
Proof.
  intros f HE [Hb He] Hsub.
  assert (entryPoint_ s2 = E) as HE2.
  { destruct Hb as ((-> & _) & _). done. }
  rewrite HE2.
  set (s3 := if bool_decide (name = E) then _ else s2).
  destruct (mark_entry_point_fields base returnType parameters s2)
    as (Mc & Mf & Mp & Md & Mr).
  assert (config_rel s2 s3 ∧ flags_rel s2 s3 ∧
          programFlags (tree s3) = programFlags (tree s2) ∧
          symbolRefs (tree s3) = symbolRefs (tree s2)) as (Hc3 & Hf3 & Hp3 & Hr3).
  { subst s3. case_bool_decide; [done|].
    split; [apply config_rel_invariant|]. split; [apply flags_rel_refl|done]. }
  assert (walk_base E (fp_func f) s2 (set_isInsideEntryPoint
            (bool_decide (name = E)) s3)) as Hb3.
  { split; [done|]. split; [done|]. split; [|split]; intros a.
    - simpl. rewrite Hp3. unfold call_flags. simpl.
      case_bool_decide; set_solver.
    - rewrite entry_flags_func. simpl. subst s3.
      case_bool_decide as Hn.
      + rewrite Md, !flags_at_add_flag.
        repeat case_bool_decide; set_solver.
      + rewrite bool_decide_eq_false_2 by tauto. set_solver.
    - intros _. simpl. unfold symbolRef_at. by rewrite Hr3. }
  split; [by eapply walk_base_trans|].
  intros Hnd f' Hf' Hname. simpl in Hnd, Hf'. rewrite app_nil_r in Hnd.
  apply elem_of_app in Hf' as [Hf'|Hf'].
  - destruct (He Hnd f' Hf' Hname) as [Hdec Hs]. split.
    + eapply entry_decorated_stable; [exact Hdec|done|].
      intros a _. simpl. unfold symbolRef_at. by rewrite Hr3.
    + simpl. set_solver.
  - apply list_elem_of_singleton in Hf' as ->. split; [|simpl; set_solver].
    subst s3. simpl in Hname. rewrite bool_decide_eq_true_2 by done.
    apply (mark_entry_point_decorated base name attribs returnType parameters
             cb s2).
Qed.

Lemma fp_types_fp_all {A} (fp : A → Footprint) xs x :
  x ∈ xs → fp_types (fp x) ⊆ fp_types (fp_all fp xs).
Proof.
  induction 1 as [x xs|x y xs _ IH]; simpl; set_solver.
Qed.

Lemma walked_VarType_address FullVarIdent vt :
  address (vt_base vt) ∈ fp_types (walked_VarType FullVarIdent vt).
Proof. destruct vt. simpl. set_solver. Qed.

Lemma walked_header_types FullVarIdent base name attribs rt ps cb :
  header_types (mkFunctionDecl base name attribs rt ps cb)
  ⊆ fp_types (walked_VarType FullVarIdent rt
                ⋅ fp_all (walked_VarDeclStmnt FullVarIdent) ps).
Proof.
  unfold header_types. simpl. intros a Ha.
  apply elem_of_cons in Ha as [->|Ha].
  - apply elem_of_app. left. apply walked_VarType_address.
  - apply elem_of_app. right.
    apply list_elem_of_fmap in Ha as (p & -> & Hp).
    apply (fp_types_fp_all _ _ _ Hp). destruct p as [b vt ds]. simpl.
    apply elem_of_app. left. apply walked_VarType_address.
Qed.

Lemma walk_rel_entryPoint E F s s' :
  walk_rel E F s s' → entryPoint_ s = E → entryPoint_ s' = E.
Proof. intros [((-> & _) & _) _]. done. Qed.

Section SoundAll.

Variable FullVarIdent : VarIdent → string.
Variable E : string.

(** Every visit function does to the flags what its footprint says. *)
Lemma sound_all :
  (∀ n, sound E (walked FullVarIdent n) (Visit FullVarIdent n)) ∧
  (∀ cb, sound E (walked_CodeBlock FullVarIdent cb)
           (VisitCodeBlock FullVarIdent cb)) ∧
  (∀ st, sound E (walked_Structure FullVarIdent st)
           (VisitStructure FullVarIdent st)) ∧
  (∀ fd, sound E (walked_FunctionDecl FullVarIdent fd)
           (VisitFunctionDecl FullVarIdent fd)) ∧
  (∀ vds, sound E (walked_VarDeclStmnt FullVarIdent vds)
            (VisitVarDeclStmnt FullVarIdent vds)) ∧
  (∀ vt, sound E (walked_VarType FullVarIdent vt)
           (VisitVarType FullVarIdent vt)) ∧
  (∀ vd, sound E (walked_VarDecl FullVarIdent vd)
           (VisitVarDecl FullVarIdent vd)) ∧
  (∀ vi, sound E (walked_VarIdent FullVarIdent vi)
           (VisitVarIdent FullVarIdent vi)).
Proof.
  apply tree_mutind; try done; try apply sound_Some.
  - intros name args IH. simpl.
    apply (sound_step E _ _ (check_intrinsic _));
      [intros s _; apply walk_rel_check_intrinsic
      |by apply sound_visit_each].
  - intros base bt ms IH. simpl.
    apply (sound_before E _
             (λ s, if bool_decide (bt ≠ "cbuffer") then _ else s));
      [|by apply sound_visit_each].
    intros s. case_bool_decide; [apply quiet_Error|apply quiet_refl].
  - intros o IH. simpl. by apply sound_visit_ptr.
  - intros tag vs IH. simpl. by apply sound_visit_each.
  - intros stmnts IH.
    apply (sound_before E _ OpenScope
             (visit_each (Visit FullVarIdent) stmnts
                >=> λ s', Some (CloseScope s'))).
    + intros s. apply quiet_set_symTable.
    + apply sound_finally; [by apply sound_visit_each|].
      intros s s' [= <-]. apply quiet_set_symTable.
  - intros base name ms IH.
    apply (sound_before E _ (register_Structure base name)
             (visit_each (Visit FullVarIdent) ms));
      [apply quiet_register_Structure|by apply sound_visit_each].
  - intros base name attribs rt ps cb IHa IHr IHp IHc s s' HE.
    rewrite VisitFunctionDecl_eq. unfold then_ at 1 2 3.
    pose proof (walk_rel_quiet E _ _
                  (quiet_Register name T_FunctionDecl base
                     (λ symbol, bool_decide (ptr_type symbol = T_FunctionDecl))
                     s)) as H0.
    fold (register_FunctionDecl base name s) in H0.
    set (s0 := register_FunctionDecl base name s) in *.
    pose proof (walk_rel_entryPoint _ _ _ _ H0 HE) as HE0.
    destruct (visit_each _ attribs s0) as [sa|] eqn:EA; [|done].
    pose proof (sound_visit_each E _ _ _ IHa _ _ HE0 EA) as HA.
    pose proof (walk_rel_entryPoint _ _ _ _ HA HE0) as HEa.
    destruct (VisitVarType _ rt sa) as [sb|] eqn:EB; [|done].
    pose proof (IHr _ _ HEa EB) as HB.
    pose proof (walk_rel_entryPoint _ _ _ _ HB HEa) as HEb.
    destruct (visit_each _ ps sb) as [sc|] eqn:EC; [|done].
    pose proof (sound_visit_each E _ _ _ IHp _ _ HEb EC) as HC.
    pose proof (walk_rel_trans _ _ _ _ _ _ HB HC) as HBC.
    pose proof (walk_rel_mark E _ base name attribs rt ps cb sa sc HEa HBC
                  (walked_header_types FullVarIdent base name attribs rt ps cb))
      as HU.
    cbv zeta in HU.
    set (sd := set_isInsideEntryPoint _ _) in *.
    pose proof (walk_rel_entryPoint _ _ _ _ HU HEa) as HEd.
    intros Hs'.
    assert (walk_rel E (fp_opt (walked_CodeBlock FullVarIdent) cb) sd s')
      as HD.
    { revert Hs'. apply (sound_finally E); [by apply sound_visit_ptr| |done].
      intros s1 s2 [= <-]. apply quiet_set_isInsideEntryPoint. }
    pose proof (walk_rel_trans _ _ _ _ _ _
                  (walk_rel_trans _ _ _ _ _ _
                     (walk_rel_trans _ _ _ _ _ _ H0 HA) HU) HD) as H.
    rewrite fp_app_empty_l in H. exact H.
  - intros base vt vds IHt IHd. rewrite VisitVarDeclStmnt_eq.
    assert (sound E (walked_VarType FullVarIdent vt
                       ⋅ fp_all (walked_VarDecl FullVarIdent) vds)
              (VisitVarType FullVarIdent vt >=>
               visit_each (VisitVarDecl FullVarIdent) vds >=>
               decorate_variable_type vt vds)) as H.
    { apply sound_then; [done|].
      apply sound_finally; [by apply sound_visit_each|].
      apply quiet_decorate_variable_type. }
    intros s s' HE Hs'. exact (H s s' HE Hs').
  - intros base bt st IH s s' HE. rewrite VisitVarType_eq. simpl.
    case_bool_decide.
    + rewrite fp_app_empty_r.
      destruct (Fetch bt s); intros [= <-].
      * apply walk_rel_type; try done.
        intros b Hb. unfold symbolRef_at. simpl.
        by rewrite lookup_insert_ne.
      * by apply walk_rel_type.
    + intros Hs'.
      assert (walk_rel E (fp_type (address base)) s s) as H0
        by (by apply walk_rel_type).
      eapply walk_rel_trans; [exact H0|].
      destruct st as [st|]; simpl.
      * by apply IH.
      * injection Hs' as <-. apply walk_rel_quiet, quiet_Error.
  - intros name ds ss i IHd IHs IHi. rewrite VisitVarDecl_eq. simpl.
    assert (∀ F G H, F ⋅ G ⋅ H = F ⋅ (G ⋅ H)) as Hassoc.
    { intros [] [] []. unfold fp_app. simpl. by rewrite !app_assoc. }
    rewrite Hassoc.
    apply sound_then; [by apply sound_visit_each|].
    apply sound_then; [by apply sound_visit_each|].
    by apply sound_visit_ptr.
  - intros ident idx nx IHi IHn. rewrite VisitVarIdent_eq. simpl.
    apply sound_then; [by apply sound_visit_each|].
    by apply sound_visit_ptr.
Qed.

Lemma sound_VisitProgram p :
  sound E (walked_Program FullVarIdent p) (VisitProgram FullVarIdent p).
Proof.
  apply sound_visit_each, Forall_forall. intros n _. apply sound_all.
Qed.

End SoundAll.

(** ** Intrinsics *)

Lemma intrinsic_flag_interlocked name :
  intrinsicMap_ !! name = Some Interlocked ↔ name ∈ interlocked_names.
Proof.
  unfold intrinsicMap_, EstablishMaps, interlocked_names.
  rewrite <- elem_of_list_to_map.
  - rewrite !elem_of_cons, !elem_of_nil. naive_solver.
  - simpl. apply (bool_decide_unpack _). by vm_compute.
Qed.

Lemma intrinsic_flag_mul name :
  intrinsic_flag name = Some Program_mulIntrinsicUsed ↔ name = "mul".
Proof.
  unfold intrinsic_flag. case_bool_decide; [done|].
  destruct (intrinsicMap_ !! name) as [[]|]; naive_solver.
Qed.

Lemma intrinsic_flag_interlockedIntrinsicsUsed name :
  intrinsic_flag name = Some Program_interlockedIntrinsicsUsed
  ↔ name ∈ interlocked_names.
Proof.
  rewrite <- intrinsic_flag_interlocked. unfold intrinsic_flag.
  case_bool_decide as Hm.
  - subst. split; [done|]. by vm_compute.
  - destruct (intrinsicMap_ !! name) as [[]|]; naive_solver.
Qed.

Lemma intrinsic_flag_other name :
  name ≠ "mul" → name ∉ interlocked_names → intrinsic_flag name = None.
Proof.
  intros Hm Hi. rewrite <- intrinsic_flag_interlocked in Hi.
  unfold intrinsic_flag. rewrite bool_decide_eq_false_2 by done.
  by destruct (intrinsicMap_ !! name) as [[]|].
Qed.

Lemma elem_of_call_flags f F :
  f ∈ call_flags F ↔ ∃ name, name ∈ fp_calls F ∧ intrinsic_flag name = Some f.
Proof.
  unfold call_flags. rewrite elem_of_list_to_set, list_elem_of_omap.
  naive_solver.
Qed.

Lemma DecorateAST_walk FullVarIdent p entryPoint target version s b s' :
  DecorateAST FullVarIdent (Some p) entryPoint target version s
    = Some (b, s') →
  ∃ s0,
    tree s0 = tree s ∧ program_ s0 = address (prog_base p) ∧
    entryPoint_ s0 = entryPoint ∧
    walk_rel entryPoint (walked_Program FullVarIdent p) s0 s'.
Proof.
  unfold DecorateAST.
  destruct (VisitProgram _ _ _) as [s1|] eqn:Ev; [|done]. intros [= <- <-].
  pose proof (sound_VisitProgram FullVarIdent entryPoint p) as Hw.
  unfold sound in Hw. eapply Hw in Ev; [|done].
  eexists. split; [|split; [|split; [|exact Ev]]]; done.
Qed.

(** ** When a walk has a result *)

Lemma declares_empty : declares fp_empty.
Proof. constructor. Qed.

Lemma declares_app F G : declares (F ⋅ G) ↔ declares F ∧ declares G.
Proof. unfold declares. simpl. apply Forall_app. Qed.

Lemma defined_Some : defined fp_empty Some.
Proof. intros _ s. by exists s. Qed.

Lemma defined_then F G w k :
  defined F w → defined G k → defined (F ⋅ G) (w >=> k).
Proof.
  intros Hw Hk [HF HG]%declares_app s. unfold then_.
  destruct (Hw HF s) as [s1 ->]. by apply Hk.
Qed.

Lemma defined_before F (f : State → State) w :
  defined F w → defined F (λ s, w (f s)).
Proof. intros Hw HF s. by apply Hw. Qed.

Lemma defined_finally F w (f : State → State) :
  defined F w → defined F (w >=> λ s, Some (f s)).
Proof.
  intros Hw HF s. unfold then_. destruct (Hw HF s) as [s1 ->]. by eexists.
Qed.

Lemma defined_visit_each {A} (fp : A → Footprint) (visit : A → Walk) xs :
  Forall (λ x, defined (fp x) (visit x)) xs →
  defined (fp_all fp xs) (visit_each visit xs).
Proof.
  induction 1 as [|x xs Hx _ IH]; [apply defined_Some|].
  exact (defined_then _ _ _ _ Hx IH).
Qed.

Lemma defined_visit_ptr {A} (fp : A → Footprint) (visit : A → Walk) p :
  from_option (λ x, defined (fp x) (visit x)) True p →
  defined (fp_opt fp p) (visit_ptr visit p).
Proof. destruct p; [done|]. intros _. apply defined_Some. Qed.

Lemma decorate_variable_type_declared varType varDecls s :
  varDecls ≠ [] → decorate_variable_type varType varDecls s = Some s.
Proof.
  intros H. unfold decorate_variable_type.
  by rewrite (bool_decide_eq_false_2 _ H), andb_false_r.
Qed.

Section Defined.

Variable FullVarIdent : VarIdent → string.

(** Every visit function has a result on a tree whose declaration statements
    all declare something. *)
Lemma defined_all :
  (∀ n, defined (walked FullVarIdent n) (Visit FullVarIdent n)) ∧
  (∀ cb, defined (walked_CodeBlock FullVarIdent cb)
           (VisitCodeBlock FullVarIdent cb)) ∧
  (∀ st, defined (walked_Structure FullVarIdent st)
           (VisitStructure FullVarIdent st)) ∧
  (∀ fd, defined (walked_FunctionDecl FullVarIdent fd)
           (VisitFunctionDecl FullVarIdent fd)) ∧
  (∀ vds, defined (walked_VarDeclStmnt FullVarIdent vds)
            (VisitVarDeclStmnt FullVarIdent vds)) ∧
  (∀ vt, defined (walked_VarType FullVarIdent vt)
           (VisitVarType FullVarIdent vt)) ∧
  (∀ vd, defined (walked_VarDecl FullVarIdent vd)
           (VisitVarDecl FullVarIdent vd)) ∧
  (∀ vi, defined (walked_VarIdent FullVarIdent vi)
           (VisitVarIdent FullVarIdent vi)).
Proof.
  apply tree_mutind; try done; try apply defined_Some.
  - intros name args IH [_ Hd]%declares_app s. simpl.
    by apply (defined_visit_each _ _ _ IH).
  - intros base bt ms IH Hd s. simpl.
    by apply (defined_visit_each _ _ _ IH).
  - intros o IH. simpl. by apply defined_visit_ptr.
  - intros tag vs IH. simpl. by apply defined_visit_each.
  - intros stmnts IH Hd s. rewrite VisitCodeBlock_eq.
    destruct (defined_visit_each _ _ _ IH Hd (OpenScope s)) as [s1 ->].
    by eexists.
  - intros base name ms IH Hd s. rewrite VisitStructure_eq.
    by apply (defined_visit_each _ _ _ IH).
  - intros base name attribs rt ps cb IHa IHr IHp IHc Hd s.
    rewrite VisitFunctionDecl_eq. simpl in Hd.
    apply declares_app in Hd as [[Ha [[Hr Hp]%declares_app _]%declares_app]
                                   %declares_app Hc].
    unfold then_ at 1 2 3.
    destruct (defined_visit_each _ _ _ IHa Ha
                (register_FunctionDecl base name s)) as [sa ->].
    destruct (IHr Hr sa) as [sb ->].
    destruct (defined_visit_each _ _ _ IHp Hp sb) as [sc ->].
    apply (defined_finally _ _ (set_isInsideEntryPoint false)
             (defined_visit_ptr _ _ _ IHc) Hc).
  - intros base vt vds IHt IHd Hd s. rewrite VisitVarDeclStmnt_eq.
    simpl in Hd.
    apply declares_app in Hd as [Hs [Ht Hv]%declares_app].
    unfold then_. destruct (IHt Ht s) as [s1 ->].
    destruct (defined_visit_each _ _ _ IHd Hv s1) as [s2 ->].
    rewrite decorate_variable_type_declared; [by eexists|].
    apply Forall_cons_1 in Hs as [Hs _]. exact Hs.
  - intros base bt st IH Hd s. rewrite VisitVarType_eq.
    simpl in Hd. apply declares_app in Hd as [_ Hd].
    case_bool_decide.
    + destruct (Fetch bt s); by eexists.
    + destruct st as [st|]; [by apply IH|by eexists].
  - intros name ds ss i IHd IHs IHi. rewrite VisitVarDecl_eq. simpl.
    intros [[Hd Hs]%declares_app Hi]%declares_app s. unfold then_.
    destruct (defined_visit_each _ _ _ IHd Hd s) as [s1 ->].
    destruct (defined_visit_each _ _ _ IHs Hs s1) as [s2 ->].
    by apply (defined_visit_ptr _ _ _ IHi).
  - intros ident idx nx IHi IHn. rewrite VisitVarIdent_eq. simpl.
    apply defined_then; [by apply defined_visit_each|].
    by apply defined_visit_ptr.
Qed.

(** [DecorateAST] returns on a tree whose declaration statements all declare
    something. *)
Lemma DecorateAST_returns p entryPoint target version s :
  declares (walked_Program FullVarIdent p) →
  is_Some (DecorateAST FullVarIdent (Some p) entryPoint target version s).
Proof.
  intros Hd. unfold DecorateAST.
  assert (defined (walked_Program FullVarIdent p)
            (VisitProgram FullVarIdent p)) as H.
  { apply defined_visit_each, Forall_forall. intros n _. apply defined_all. }
  match goal with |- context [VisitProgram _ _ ?s0] =>
    destruct (H Hd s0) as [s1 ->] end.
  by eexists.
Qed.

End Defined.

(** ** What the decoration of the entry points marks *)

Lemma type_ref_stable h h' vt :
  symbolRef_at h' (address (vt_base vt))
    = symbolRef_at h (address (vt_base vt)) →
  type_ref h' vt = type_ref h vt.
Proof. unfold type_ref. by intros ->. Qed.

Lemma type_structs_stable h h' vt :
  symbolRef_at h' (address (vt_base vt))
    = symbolRef_at h (address (vt_base vt)) →
  type_structs h' vt = type_structs h vt.
Proof. intros H. unfold type_structs. by rewrite (type_ref_stable _ _ _ H). Qed.

Lemma list_bind_agree {A B} (g g' : A → list B) (l : list A) :
  (∀ x, x ∈ l → g x = g' x) → l ≫= g = l ≫= g'.
Proof.
  induction l as [|x l IH]; [done|]. intros H. rewrite !bind_cons.
  rewrite (H x), IH; [done| |set_solver]. intros y Hy. apply H. set_solver.
Qed.

Lemma entry_funcs_app E F G :
  entry_funcs E (F ⋅ G) = entry_funcs E F ++ entry_funcs E G.
Proof. unfold entry_funcs. simpl. apply filter_app. Qed.

Lemma entry_funcs_name E F f : f ∈ entry_funcs E F → f ∈ fp_funcs F ∧ fd_name f = E.
Proof. unfold entry_funcs. rewrite list_elem_of_filter. tauto. Qed.

Lemma structure_marks_app E F G h a :
  structure_marks E (F ⋅ G) h a
  = structure_marks E F h a ∪ structure_marks E G h a.
Proof.
  unfold structure_marks, output_structs, input_structs.
  rewrite entry_funcs_app, !bind_app.
  repeat case_bool_decide; set_solver.
Qed.

Lemma stmnt_marks_app E F G a :
  stmnt_marks E (F ⋅ G) a = stmnt_marks E F a ∪ stmnt_marks E G a.
Proof.
  unfold stmnt_marks, input_stmnts. rewrite entry_funcs_app, bind_app.
  repeat case_bool_decide; set_solver.
Qed.

Lemma aliased_structs_app E F G h :
  aliased_structs E (F ⋅ G) h = aliased_structs E F h ++ aliased_structs E G h.
Proof. unfold aliased_structs. by rewrite entry_funcs_app, bind_app. Qed.

(** The structures the entry points of a walk reach depend on the symbol
    references of the types in their headers only. *)
Lemma entry_structs_stable E F h h' :
  (∀ f, f ∈ entry_funcs E F → ∀ a, a ∈ header_types f →
        symbolRef_at h' a = symbolRef_at h a) →
  output_structs E F h' = output_structs E F h ∧
  input_structs E F h' = input_structs E F h ∧
  aliased_structs E F h' = aliased_structs E F h.
Proof.
  intros H. unfold output_structs, input_structs, aliased_structs.
  split; [|split]; apply list_bind_agree; intros f Hf.
  - apply type_structs_stable, (H f Hf). unfold header_types. set_solver.
  - apply list_bind_agree. intros p Hp.
    apply type_structs_stable, (H f Hf). unfold header_types.
    apply elem_of_cons. right. apply list_elem_of_fmap. by exists p.
  - apply list_bind_agree. intros p Hp. destruct (vds_varDecls p); [done|].
    apply type_ref_stable, (H f Hf). unfold header_types.
    apply elem_of_cons. right. apply list_elem_of_fmap. by exists p.
Qed.

Lemma marks_trans E F G s1 s2 s3 :
  marks E F s1 s2 → marks E G s2 s3 →
  (∀ f, f ∈ entry_funcs E F → ∀ a, a ∈ header_types f →
        symbolRef_at (tree s3) a = symbolRef_at (tree s2) a) →
  marks E (F ⋅ G) s1 s3.
Proof.
  intros (Ht1 & Hs1 & Ha1) (Ht2 & Hs2 & Ha2) Hst.
  destruct (entry_structs_stable E F _ _ Hst) as (Ho & Hi & Hal).
  split; [|split]; intros a.
  - rewrite Ht2, Ht1, stmnt_marks_app. set_solver.
  - rewrite Hs2, Hs1, structure_marks_app.
    unfold structure_marks at 1 3. rewrite Ho, Hi. 
    fold (structure_marks E F (tree s2) a). set_solver.
  - rewrite aliased_structs_app, Hal. intros Hn.
    rewrite Ha2, Ha1; set_solver.
Qed.

Lemma decor_rel_trans E F G s1 s2 s3 :
  decor_rel E F s1 s2 → decor_rel E G s2 s3 → decor_rel E (F ⋅ G) s1 s3.
Proof.
  intros [Hw1 Hm1] [Hw2 Hm2]. split; [by eapply walk_rel_trans|].
  simpl. intros (Hn1 & Hdisj & Hn2)%NoDup_app.
  apply (marks_trans E F G s1 s2 s3); [by apply Hm1|by apply Hm2|].
  intros f [Hf Hname]%entry_funcs_name a Ha.
  destruct Hw1 as [_ He1]. destruct (He1 Hn1 f Hf Hname) as [_ Hsub].
  destruct Hw2 as [(_ & _ & _ & _ & Hr) _]. apply Hr, Hdisj. by apply Hsub.
Qed.

Lemma marks_plain E F s s' :
  entry_funcs E F = [] → plain s s' → marks E F s s'.
Proof.
  intros HF (Hs & Ht & Ha).
  unfold marks, stmnt_marks, structure_marks, input_stmnts, output_structs,
    input_structs, aliased_structs, aliasName_at.
  rewrite HF, Hs, Ht, Ha. simpl.
  split; [|split]; intros a; [set_solver..|done].
Qed.

Lemma decor_rel_plain E F s s' :
  walk_rel E F s s' → entry_funcs E F = [] → plain s s' → decor_rel E F s s'.
Proof. intros Hw HF Hp. split; [done|]. intros _. by apply marks_plain. Qed.

Lemma plain_refl s : plain s s.
Proof. done. Qed.

Lemma plain_same_tree s s' : tree s' = tree s → plain s s'.
Proof. unfold plain. by intros ->. Qed.

Lemma plain_Register ident ty ast proc s :
  plain s (Register ident ty ast proc s).
Proof. unfold Register. by destruct (SymTab.Register _ _ _ _). Qed.

Lemma plain_register_Structure base name s :
  plain s (register_Structure base name s).
Proof.
  unfold register_Structure. case_bool_decide; [apply plain_Register|done].
Qed.

Lemma plain_check_intrinsic name s : plain s (check_intrinsic name s).
Proof. unfold check_intrinsic. by destruct (intrinsic_flag name). Qed.

(** The branch of [VisitVarDeclStmnt] that writes the alias name has no
    result, so a decoration that returns has changed nothing. *)
Lemma decorate_variable_type_returns varType varDecls s s' :
  decorate_variable_type varType varDecls s = Some s' → s' = s.
Proof.
  unfold decorate_variable_type. destruct (isInsideEntryPoint_ s); simpl;
    [|by intros [= <-]].
  case_bool_decide as Hd; [subst varDecls|by intros [= <-]].
  repeat case_match; by intros [= <-].
Qed.

(** Decides an equation between flag sets that are chosen by comparing
    addresses. *)
Ltac solve_marks :=
  repeat match goal with
         | |- context [address ?b] => generalize (address b); intro
         | |- context [ptr_addr ?p] => generalize (ptr_addr p); intro
         end;
  repeat case_bool_decide; simplify_eq; set_solver.

Lemma DecorateEntryInOut_VarType_marks ast isInput s :
  let s' := DecorateEntryInOut_VarType ast isInput s in
  let fl := if isInput then Structure_isShaderInput
            else Structure_isShaderOutput in
  stmntFlags (tree s') = stmntFlags (tree s) ∧
  aliasNames (tree s') = aliasNames (tree s) ∧
  symbolRefs (tree s') = symbolRefs (tree s) ∧
  ∀ a, flags_at (structureFlags (tree s')) a =
       flags_at (structureFlags (tree s)) a
         ∪ (if bool_decide (a ∈ type_structs (tree s) ast)
            then {[ fl ]} else ∅).
Proof.
  cbv zeta. unfold DecorateEntryInOut_VarType, type_structs, type_ref.
  set (fl := if isInput then _ else _).
  destruct (vt_structType ast) as [st|];
    change (symbolRef_at (tree (add_structureFlag _ _ s)) ?x)
      with (symbolRef_at (tree s) x);
    destruct (symbolRef_at (tree s) _) as [p|];
    [case_bool_decide| |case_bool_decide|];
    (split; [done|]); (split; [done|]); (split; [done|]); intros a; simpl;
    rewrite ?flags_at_add_flag; solve_marks.
Qed.

Lemma DecorateEntryInOut_VarDeclStmnt_marks ast isInput s :
  let s' := DecorateEntryInOut_VarDeclStmnt ast isInput s in
  symbolRefs (tree s') = symbolRefs (tree s) ∧
  (∀ a, flags_at (stmntFlags (tree s')) a =
        flags_at (stmntFlags (tree s)) a
          ∪ (if bool_decide (a = address (vds_base ast))
             then {[ if isInput then VarDeclStmnt_isShaderInput
                     else VarDeclStmnt_isShaderOutput ]} else ∅)) ∧
  (∀ a, flags_at (structureFlags (tree s')) a =
        flags_at (structureFlags (tree s)) a
          ∪ (if bool_decide (a ∈ type_structs (tree s) (vds_varType ast))
             then {[ if isInput then Structure_isShaderInput
                     else Structure_isShaderOutput ]} else ∅)) ∧
  (∀ a, a ∉ match vds_varDecls ast with
            | [] => []
            | _ :: _ => type_ref (tree s) (vds_varType ast)
            end →
        aliasName_at (tree s') a = aliasName_at (tree s) a).
Proof.
  cbv zeta. unfold DecorateEntryInOut_VarDeclStmnt, type_structs, type_ref.
  set (fl := if isInput then Structure_isShaderInput else _).
  set (sf := if isInput then VarDeclStmnt_isShaderInput else _).
  destruct (vt_structType (vds_varType ast)) as [st|];
    change (symbolRef_at (tree (add_structureFlag _ _ (add_stmntFlag _ _ s))) ?x)
      with (symbolRef_at (tree s) x);
    change (symbolRef_at (tree (add_stmntFlag _ _ s)) ?x)
      with (symbolRef_at (tree s) x);
    destruct (symbolRef_at (tree s) _) as [p|];
    [case_bool_decide| |case_bool_decide|];
    try destruct (vds_varDecls ast) as [|d ds];
    (split; [done|]);
    (split; [intros a; simpl; rewrite ?flags_at_add_flag; solve_marks|]);
    (split; [intros a; simpl; rewrite ?flags_at_add_flag; solve_marks|]);
    intros a Ha; try done;
    unfold aliasName_at; simpl; rewrite lookup_insert_ne; set_solver.
Qed.

Lemma decorate_parameters_marks parameters s :
  let s' :=
    foldl (λ acc param, DecorateEntryInOut_VarDeclStmnt param true acc)
      s parameters in
  symbolRefs (tree s') = symbolRefs (tree s) ∧
  (∀ a, flags_at (stmntFlags (tree s')) a =
        flags_at (stmntFlags (tree s)) a
          ∪ (if bool_decide
                  (a ∈ (λ param, address (vds_base param)) <$> parameters)
             then {[ VarDeclStmnt_isShaderInput ]} else ∅)) ∧
  (∀ a, flags_at (structureFlags (tree s')) a =
        flags_at (structureFlags (tree s)) a
          ∪ (if bool_decide
                  (a ∈ parameters ≫=
                         λ param, type_structs (tree s) (vds_varType param))
             then {[ Structure_isShaderInput ]} else ∅)) ∧
  (∀ a, a ∉ (parameters ≫= λ param,
               match vds_varDecls param with
               | [] => []
               | _ :: _ => type_ref (tree s) (vds_varType param)
               end) →
        aliasName_at (tree s') a = aliasName_at (tree s) a).
Proof.
  cbv zeta. revert s. induction parameters as [|p ps IH]; intros s.
  { simpl. split; [done|]. split; [|split]; intros a; [set_solver..|done]. }
  simpl foldl.
  destruct (DecorateEntryInOut_VarDeclStmnt_marks p true s)
    as (Hr1 & Ht1 & Hs1 & Ha1).
  set (s1 := DecorateEntryInOut_VarDeclStmnt p true s) in *.
  destruct (IH s1) as (Hr2 & Ht2 & Hs2 & Ha2).
  assert (∀ vt, type_structs (tree s1) vt = type_structs (tree s) vt) as Hts.
  { intros vt. apply type_structs_stable. unfold symbolRef_at. by rewrite Hr1. }
  assert (∀ vt, type_ref (tree s1) vt = type_ref (tree s) vt) as Htr.
  { intros vt. apply type_ref_stable. unfold symbolRef_at. by rewrite Hr1. }
  split; [congruence|]. split; [|split]; intros a.
  - rewrite Ht2, Ht1, fmap_cons. repeat case_bool_decide; set_solver.
  - rewrite Hs2, Hs1, bind_cons.
    rewrite (list_bind_agree _ (λ param, type_structs (tree s) (vds_varType param)))
      by (intros; apply Hts).
    repeat case_bool_decide; set_solver.
  - rewrite bind_cons. intros Ha.
    rewrite Ha2, Ha1; [done|set_solver|].
    rewrite (list_bind_agree _
               (λ param, match vds_varDecls param with
                         | [] => []
                         | _ :: _ => type_ref (tree s) (vds_varType param)
                         end)); [set_solver|].
    intros x _. destruct (vds_varDecls x); [done|apply Htr].
Qed.

Lemma mark_entry_point_marks base returnType parameters s :
  let s' := mark_entry_point base returnType parameters s in
  symbolRefs (tree s') = symbolRefs (tree s) ∧
  (∀ a, flags_at (stmntFlags (tree s')) a =
        flags_at (stmntFlags (tree s)) a
          ∪ (if bool_decide
                  (a ∈ (λ param, address (vds_base param)) <$> parameters)
             then {[ VarDeclStmnt_isShaderInput ]} else ∅)) ∧
  (∀ a, flags_at (structureFlags (tree s')) a =
        flags_at (structureFlags (tree s)) a
          ∪ ((if bool_decide (a ∈ type_structs (tree s) returnType)
              then {[ Structure_isShaderOutput ]} else ∅)
             ∪ (if bool_decide
                     (a ∈ parameters ≫=
                            λ param, type_structs (tree s) (vds_varType param))
                then {[ Structure_isShaderInput ]} else ∅))) ∧
  (∀ a, a ∉ (parameters ≫= λ param,
               match vds_varDecls param with
               | [] => []
               | _ :: _ => type_ref (tree s) (vds_varType param)
               end) →
        aliasName_at (tree s') a = aliasName_at (tree s) a).
Proof.
  cbv zeta. unfold mark_entry_point.
  set (s1 := add_functionFlag (address base) FunctionDecl_isUsed _).
  destruct (DecorateEntryInOut_VarType_marks returnType false s1)
    as (Ht1 & Ha1 & Hr1 & Hs1).
  set (s2 := DecorateEntryInOut_VarType returnType false s1) in *.
  destruct (decorate_parameters_marks parameters s2) as (Hr2 & Ht2 & Hs2 & Ha2).
  assert (∀ vt, type_structs (tree s2) vt = type_structs (tree s) vt) as Hts.
  { intros vt. apply type_structs_stable. unfold symbolRef_at. by rewrite Hr1. }
  assert (∀ vt, type_ref (tree s2) vt = type_ref (tree s) vt) as Htr.
  { intros vt. apply type_ref_stable. unfold symbolRef_at. by rewrite Hr1. }
  split; [by rewrite Hr2, Hr1|]. split; [|split]; intros a.
  - by rewrite Ht2, Ht1.
  - rewrite Hs2, Hs1.
    rewrite (list_bind_agree _ (λ param, type_structs (tree s) (vds_varType param)))
      by (intros; apply Hts).
    change (type_structs (tree s1) returnType)
      with (type_structs (tree s) returnType).
    change (structureFlags (tree s1)) with (structureFlags (tree s)).
    set_solver.
  - intros Ha. rewrite Ha2.
    + unfold aliasName_at. by rewrite Ha1.
    + rewrite (list_bind_agree _
               (λ param, match vds_varDecls param with
                         | [] => []
                         | _ :: _ => type_ref (tree s) (vds_varType param)
                         end)); [done|].
      intros x _. destruct (vds_varDecls x); [done|apply Htr].
Qed.

Lemma marks_mark E base name attribs returnType parameters cb s :
  let f := mkFunctionDecl base name attribs returnType parameters cb in
  marks E (fp_func f) s
    (set_isInsideEntryPoint (bool_decide (name = E))
       (if bool_decide (name = E)
        then mark_entry_point base returnType parameters s
        else s)).
Proof.
  intros f. case_bool_decide as Hn.
  - destruct (mark_entry_point_marks base returnType parameters s)
      as (Hr & Ht & Hs & Ha).
    set (s' := mark_entry_point _ _ _ s) in *.
    assert (entry_funcs E (fp_func f) = [f]) as HF.
    { unfold entry_funcs. simpl. by rewrite filter_cons_True. }
    assert (∀ vt, type_structs (tree s') vt = type_structs (tree s) vt) as Hts.
    { intros vt. apply type_structs_stable. unfold symbolRef_at.
      by rewrite Hr. }
    assert (∀ vt, type_ref (tree s') vt = type_ref (tree s) vt) as Htr.
    { intros vt. apply type_ref_stable. unfold symbolRef_at. by rewrite Hr. }
    unfold marks, stmnt_marks, structure_marks, input_stmnts, output_structs,
      input_structs, aliased_structs.
    rewrite HF, !bind_singleton. simpl.
    split; [done|]. split.
    + intros a. rewrite Hs, Hts.
      rewrite (list_bind_agree
                 (λ param, type_structs (tree s') (vds_varType param))
                 (λ param, type_structs (tree s) (vds_varType param)));
        [done|]. intros; apply Hts.
    + intros a Hin. apply Ha.
      rewrite (list_bind_agree _
                 (λ param, match vds_varDecls param with
                           | [] => []
                           | _ :: _ => type_ref (tree s') (vds_varType param)
                           end)); [done|].
      intros x _. destruct (vds_varDecls x); [done|]. by rewrite Htr.
  - apply marks_plain; [|done].
    unfold entry_funcs. simpl. by rewrite filter_cons_False.
Qed.

Lemma decor_rel_mark E F base name attribs returnType parameters cb s s2 :
  let f := mkFunctionDecl base name attribs returnType parameters cb in
  entryPoint_ s = E →
  decor_rel E F s s2 →
  header_types f ⊆ fp_types F →
  decor_rel E (F ⋅ fp_func f) s
    (set_isInsideEntryPoint (bool_decide (name = entryPoint_ s2))
       (if bool_decide (name = entryPoint_ s2)
        then mark_entry_point base returnType parameters s2
        else s2)).
Proof.
  intros f HE [Hw Hm] Hsub.
  split; [by apply walk_rel_mark|].
  simpl. rewrite app_nil_r. intros Hnd.
  rewrite (walk_rel_entryPoint _ _ _ _ Hw HE).
  apply (marks_trans E F (fp_func f) s s2); [by apply Hm|apply marks_mark|].
  intros g _ a _. simpl. case_bool_decide; [|done].
  destruct (mark_entry_point_marks base returnType parameters s2) as [Hr _].
  unfold symbolRef_at. by rewrite Hr.
Qed.

Lemma decor_rel_entryPoint E F s s' :
  decor_rel E F s s' → entryPoint_ s = E → entryPoint_ s' = E.
Proof. intros [Hw _]. by apply (walk_rel_entryPoint E F). Qed.

Lemma decor_rel_quiet E s s' :
  quiet s s' → plain s s' → decor_rel E fp_empty s s'.
Proof. intros Hq Hp. apply decor_rel_plain; [by apply walk_rel_quiet|done..]. Qed.

Section Decorates.

Variable E : string.

Lemma decorates_Some : decorates E fp_empty Some.
Proof.
  intros s s' _ [= <-]. apply decor_rel_quiet; [apply quiet_refl|done].
Qed.

Lemma decorates_then F G w k :
  decorates E F w → decorates E G k → decorates E (F ⋅ G) (w >=> k).
Proof.
  intros Hw Hk s s' HE. unfold then_.
  destruct (w s) as [s1|] eqn:E1; [|done]. intros Hs'.
  pose proof (Hw s s1 HE E1) as H1.
  eapply decor_rel_trans; [exact H1|]. apply Hk; [|done].
  by apply (decor_rel_entryPoint _ _ _ _ H1).
Qed.

Lemma decorates_step F G (f : State → State) w :
  (∀ s, entryPoint_ s = E → decor_rel E F s (f s)) →
  decorates E G w → decorates E (F ⋅ G) (λ s, w (f s)).
Proof.
  intros Hf Hw.
  apply (decorates_then F G (λ s, Some (f s)) w); [|done].
  intros s s' HE [= <-]. by apply Hf.
Qed.

Lemma decorates_before F (f : State → State) w :
  (∀ s, quiet s (f s)) → (∀ s, plain s (f s)) →
  decorates E F w → decorates E F (λ s, w (f s)).
Proof.
  intros Hq Hp Hw. rewrite <- (fp_app_empty_l F).
  apply decorates_step; [|done]. intros s _. by apply decor_rel_quiet.
Qed.

Lemma decorates_finally F w (k : Walk) :
  decorates E F w →
  (∀ s s', k s = Some s' → quiet s s' ∧ plain s s') →
  decorates E F (w >=> k).
Proof.
  intros Hw Hk. rewrite <- (fp_app_empty_r F).
  apply decorates_then; [done|]. intros s s' _ Hs'.
  destruct (Hk s s' Hs'). by apply decor_rel_quiet.
Qed.

Lemma decorates_visit_each {A} (fp : A → Footprint) (visit : A → Walk) xs :
  Forall (λ x, decorates E (fp x) (visit x)) xs →
  decorates E (fp_all fp xs) (visit_each visit xs).
Proof.
  induction 1 as [|x xs Hx _ IH]; [apply decorates_Some|].
  exact (decorates_then _ _ _ _ Hx IH).
Qed.

Lemma decorates_visit_ptr {A} (fp : A → Footprint) (visit : A → Walk) p :
  from_option (λ x, decorates E (fp x) (visit x)) True p →
  decorates E (fp_opt fp p) (visit_ptr visit p).
Proof. destruct p; [done|]. intros _. apply decorates_Some. Qed.

Variable FullVarIdent : VarIdent → string.

(** Every visit function marks what the entry points in its footprint
    reach, and nothing else. *)
Lemma decorates_all :
  (∀ n, decorates E (walked FullVarIdent n) (Visit FullVarIdent n)) ∧
  (∀ cb, decorates E (walked_CodeBlock FullVarIdent cb)
           (VisitCodeBlock FullVarIdent cb)) ∧
  (∀ st, decorates E (walked_Structure FullVarIdent st)
           (VisitStructure FullVarIdent st)) ∧
  (∀ fd, decorates E (walked_FunctionDecl FullVarIdent fd)
           (VisitFunctionDecl FullVarIdent fd)) ∧
  (∀ vds, decorates E (walked_VarDeclStmnt FullVarIdent vds)
            (VisitVarDeclStmnt FullVarIdent vds)) ∧
  (∀ vt, decorates E (walked_VarType FullVarIdent vt)
           (VisitVarType FullVarIdent vt)) ∧
  (∀ vd, decorates E (walked_VarDecl FullVarIdent vd)
           (VisitVarDecl FullVarIdent vd)) ∧
  (∀ vi, decorates E (walked_VarIdent FullVarIdent vi)
           (VisitVarIdent FullVarIdent vi)).
Proof.
  apply tree_mutind; try done; try apply decorates_Some.
  - intros name args IH. simpl.
    apply (decorates_step _ _ (check_intrinsic _));
      [|by apply decorates_visit_each].
    intros s _. apply decor_rel_plain;
      [apply walk_rel_check_intrinsic|done|apply plain_check_intrinsic].
  - intros base bt ms IH. simpl.
    apply (decorates_before _
             (λ s, if bool_decide (bt ≠ "cbuffer") then _ else s));
      [| |by apply decorates_visit_each].
    + intros s. case_bool_decide; [apply quiet_Error|apply quiet_refl].
    + intros s. by case_bool_decide.
  - intros o IH. simpl. by apply decorates_visit_ptr.
  - intros tag vs IH. simpl. by apply decorates_visit_each.
  - intros stmnts IH.
    apply (decorates_before _ OpenScope
             (visit_each (Visit FullVarIdent) stmnts
                >=> λ s', Some (CloseScope s'))).
    + intros s. apply quiet_set_symTable.
    + done.
    + apply decorates_finally; [by apply decorates_visit_each|].
      intros s s' [= <-]. split; [apply quiet_set_symTable|done].
  - intros base name ms IH.
    apply (decorates_before _ (register_Structure base name)
             (visit_each (Visit FullVarIdent) ms));
      [apply quiet_register_Structure|apply plain_register_Structure
      |by apply decorates_visit_each].
  - intros base name attribs rt ps cb IHa IHr IHp IHc s s' HE.
    rewrite VisitFunctionDecl_eq. unfold then_ at 1 2 3.
    pose proof (decor_rel_quiet E _ _
                  (quiet_Register name T_FunctionDecl base
                     (λ symbol, bool_decide (ptr_type symbol = T_FunctionDecl))
                     s)
                  (plain_Register name T_FunctionDecl base
                     (λ symbol, bool_decide (ptr_type symbol = T_FunctionDecl))
                     s)) as H0.
    fold (register_FunctionDecl base name s) in H0.
    set (s0 := register_FunctionDecl base name s) in *.
    pose proof (decor_rel_entryPoint _ _ _ _ H0 HE) as HE0.
    destruct (visit_each _ attribs s0) as [sa|] eqn:EA; [|done].
    pose proof (decorates_visit_each _ _ _ IHa _ _ HE0 EA) as HA.
    pose proof (decor_rel_entryPoint _ _ _ _ HA HE0) as HEa.
    destruct (VisitVarType _ rt sa) as [sb|] eqn:EB; [|done].
    pose proof (IHr _ _ HEa EB) as HB.
    pose proof (decor_rel_entryPoint _ _ _ _ HB HEa) as HEb.
    destruct (visit_each _ ps sb) as [sc|] eqn:EC; [|done].
    pose proof (decorates_visit_each _ _ _ IHp _ _ HEb EC) as HC.
    pose proof (decor_rel_trans _ _ _ _ _ _ HB HC) as HBC.
    pose proof (decor_rel_mark E _ base name attribs rt ps cb sa sc HEa HBC
                  (walked_header_types FullVarIdent base name attribs rt ps cb))
      as HU.
    cbv zeta in HU.
    set (sd := set_isInsideEntryPoint _ _) in *.
    pose proof (decor_rel_entryPoint _ _ _ _ HU HEa) as HEd.
    intros Hs'.
    assert (decor_rel E (fp_opt (walked_CodeBlock FullVarIdent) cb) sd s')
      as HD.
    { revert Hs'.
      apply (decorates_finally _ _ (λ s3, Some (set_isInsideEntryPoint false s3)));
        [by apply decorates_visit_ptr| |done].
      intros s1 s2 [= <-]. split; [apply quiet_set_isInsideEntryPoint|done]. }
    pose proof (decor_rel_trans _ _ _ _ _ _
                  (decor_rel_trans _ _ _ _ _ _
                     (decor_rel_trans _ _ _ _ _ _ H0 HA) HU) HD) as H.
    rewrite fp_app_empty_l in H. exact H.
  - intros base vt vds IHt IHd. rewrite VisitVarDeclStmnt_eq.
    assert (decorates E (walked_VarType FullVarIdent vt
                           ⋅ fp_all (walked_VarDecl FullVarIdent) vds)
              (VisitVarType FullVarIdent vt >=>
               visit_each (VisitVarDecl FullVarIdent) vds >=>
               decorate_variable_type vt vds)) as H.
    { apply decorates_then; [done|].
      apply decorates_finally; [by apply decorates_visit_each|].
      intros s s' Hs'.
      rewrite (decorate_variable_type_returns _ _ _ _ Hs').
      split; [apply quiet_refl|done]. }
    intros s s' HE Hs'. pose proof (H s s' HE Hs') as [Hw Hm].
    split.
    + destruct (sound_all FullVarIdent E) as (_ & _ & _ & _ & Hv & _).
      by apply (Hv (mkVarDeclStmnt base vt vds)).
    + intros Hnd. exact (Hm Hnd).
  - intros base bt st IH s s' HE. rewrite VisitVarType_eq. simpl.
    case_bool_decide.
    + rewrite fp_app_empty_r.
      destruct (Fetch bt s); intros [= <-].
      * apply decor_rel_plain; [|done..].
        apply walk_rel_type; try done.
        intros b Hb. unfold symbolRef_at. simpl.
        by rewrite lookup_insert_ne.
      * apply decor_rel_plain; [|done..]. by apply walk_rel_type.
    + intros Hs'.
      assert (decor_rel E (fp_type (address base)) s s) as H0.
      { apply decor_rel_plain; [|done..]. by apply walk_rel_type. }
      eapply decor_rel_trans; [exact H0|].
      destruct st as [st|]; simpl.
      * by apply IH.
      * injection Hs' as <-. apply decor_rel_quiet; [apply quiet_Error|done].
  - intros name ds ss i IHd IHs IHi. rewrite VisitVarDecl_eq. simpl.
    assert (∀ F G H, F ⋅ G ⋅ H = F ⋅ (G ⋅ H)) as Hassoc.
    { intros [] [] []. unfold fp_app. simpl. by rewrite !app_assoc. }
    rewrite Hassoc.
    apply decorates_then; [by apply decorates_visit_each|].
    apply decorates_then; [by apply decorates_visit_each|].
    by apply decorates_visit_ptr.
  - intros ident idx nx IHi IHn. rewrite VisitVarIdent_eq. simpl.
    apply decorates_then; [by apply decorates_visit_each|].
    by apply decorates_visit_ptr.
Qed.

Lemma decorates_VisitProgram p :
  decorates E (walked_Program FullVarIdent p) (VisitProgram FullVarIdent p).
Proof.
  apply decorates_visit_each, Forall_forall. intros n _. apply decorates_all.
Qed.

End Decorates.

Lemma DecorateAST_decorates FullVarIdent p entryPoint target version s b s' :
  DecorateAST FullVarIdent (Some p) entryPoint target version s
    = Some (b, s') →
  ∃ s0,
    tree s0 = tree s ∧
    decor_rel entryPoint (walked_Program FullVarIdent p) s0 s'.
Proof.
  unfold DecorateAST.
  destruct (VisitProgram _ _ _) as [s1|] eqn:Ev; [|done]. intros [= <- <-].
  pose proof (decorates_VisitProgram entryPoint FullVarIdent p) as Hw.
  unfold decorates in Hw. eapply Hw in Ev; [|done].
  eexists. split; [|exact Ev]. done.
Qed.

(** * The claims *)

(** ** The result of [DecorateAST] *)

(** C1, as amended: a call of [DecorateAST] on a program (a non-null
    pointer) returns when every declaration statement on the walk declares
    something, and whenever it returns it gives [false] if and only if
    [Error] was called at least once during the call.  [new] are the reports
    of the call. *)
Theorem DecorateAST_false_iff_reported FullVarIdent p entryPoint target
    version s :
  (declares (walked_Program FullVarIdent p) →
   is_Some (DecorateAST FullVarIdent (Some p) entryPoint target version s)) ∧
  (∀ b s',
     DecorateAST FullVarIdent (Some p) entryPoint target version s
       = Some (b, s') →
     ∃ new, reported s' = new ++ reported s ∧ (b = false ↔ new ≠ [])).
Proof.
  split; [apply DecorateAST_returns|].
  intros b s'. unfold DecorateAST.
  destruct (VisitProgram _ _ _) as [s1|] eqn:E; [|done]. intros [= <- <-].
  apply (respects_VisitProgram _ _ _ diag_rel_invariant) in E.
  destruct E as (new & Hnew & Herr). simpl in *. exists new. split; [done|].
  rewrite Herr. destruct new; simpl; split; (done || congruence).
Qed.

Lemma DecorateAST_false_iff_reported_witness :
  declares (walked_Program Sample.dotted Sample.tbuffer_program) ∧
  DecorateAST Sample.dotted (Some Sample.tbuffer_program) "main" 0 0
    Sample.start
    = Some (false, Sample.end_of Sample.tbuffer_program) ∧
  ∃ new,
    reported (Sample.end_of Sample.tbuffer_program)
      = new ++ reported Sample.start ∧
    (false = false ↔ new ≠ []).
Proof.
  split; [repeat constructor; done|].
  split; [vm_compute; reflexivity|].
  apply (DecorateAST_false_iff_reported Sample.dotted Sample.tbuffer_program
           "main" 0 0 Sample.start).
  vm_compute; reflexivity.
Defined.

(** C1 as stated fails: for a null program the call returns [false] and
    nothing was reported. *)
Lemma DecorateAST_null_program_unreported :
  ∃ s',
    DecorateAST Sample.dotted None "main" 0 0 Sample.start
      = Some (false, s') ∧
    reported s' = reported Sample.start.
Proof. exists Sample.start. split; reflexivity. Qed.

(** ** Alias names *)

(** [DecorateEntryInOut] on a statement with a declarator writes the alias
    name of the structure its type refers to, whatever the alias name was. *)
Lemma DecorateEntryInOut_alias_unguarded ast isInput s symbolRef d ds :
  symbolRef_at (tree s) (address (vt_base (vds_varType ast))) = Some symbolRef →
  ptr_type symbolRef = T_Structure →
  vds_varDecls ast = d :: ds →
  aliasName_at (tree (DecorateEntryInOut_VarDeclStmnt ast isInput s))
    (ptr_addr symbolRef) = vd_name d.
Proof.
  intros Hs Ht Hd. unfold DecorateEntryInOut_VarDeclStmnt.
  set (s2 := match vt_structType _ with Some _ => _ | None => _ end).
  assert (symbolRef_at (tree s2) (address (vt_base (vds_varType ast)))
          = Some symbolRef) as ->.
  { subst s2. by destruct (vt_structType _). }
  rewrite bool_decide_eq_true_2, Hd by done.
  unfold aliasName_at. simpl. by rewrite lookup_insert_eq.
Qed.

(** C2 does not hold of the code: an alias name that has been written is
    written again.  On the entry point [S main(S a, S b)] the alias name of
    [S] is empty after the header, ["a"] once the first parameter is
    decorated, and ["b"] once the second is; ["b"] is what the call ends
    with. *)
Theorem alias_name_overwritten :
  let header := Sample.end_of Sample.helper_two_params in
  let first :=
    DecorateEntryInOut_VarDeclStmnt (Sample.decl_S 22 23 "a") true header in
  let second :=
    DecorateEntryInOut_VarDeclStmnt (Sample.decl_S 24 25 "b") true first in
  aliasName_at (tree header) 10 = "" ∧
  aliasName_at (tree first) 10 = "a" ∧
  aliasName_at (tree second) 10 = "b" ∧
  DecorateAST Sample.dotted (Some Sample.two_params) "main" 0 0 Sample.start
    = Some (true, Sample.end_of Sample.two_params) ∧
  aliasName_at (tree (Sample.end_of Sample.two_params)) 10 = "b".
Proof. vm_compute. done. Qed.

(** C3 does not hold of the code: whenever the branch that assigns the
    alias name in [VisitVarDeclStmnt] is taken, the statement has no
    declarator and [varDecls.front()] reads past the end of the vector, so
    the walk has no defined result. *)
Theorem alias_branch_reads_empty_vector varType varDecls s symbolRef :
  isInsideEntryPoint_ s = true →
  varDecls = [] →
  symbolRef_at (tree s) (address (vt_base varType)) = Some symbolRef →
  ptr_type symbolRef = T_Structure →
  has_flag (flags_at (structureFlags (tree s)) (ptr_addr symbolRef))
    Structure_isShaderOutput = true →
  aliasName_at (tree s) (ptr_addr symbolRef) = "" →
  front varDecls = None ∧
  decorate_variable_type varType varDecls s = None.
Proof.
  intros Hi -> Hs Ht Hf Ha. split; [done|].
  unfold decorate_variable_type.
  rewrite Hi, Hs, Hf, Ha. simpl. by rewrite bool_decide_eq_true_2.
Qed.

Lemma alias_branch_reads_empty_vector_witness :
  isInsideEntryPoint_ Sample.in_entry_body = true ∧
  symbolRef_at (tree Sample.in_entry_body) 31 = Some (mkPtr 10 T_Structure) ∧
  decorate_variable_type (Sample.type_S 31) [] Sample.in_entry_body = None ∧
  DecorateAST Sample.dotted (Some Sample.bare_statement) "main" 0 0
    Sample.start = None.
Proof.
  split; [reflexivity|]. split; [vm_compute; reflexivity|].
  split; [|vm_compute; reflexivity].
  apply (alias_branch_reads_empty_vector (Sample.type_S 31) []
           Sample.in_entry_body (mkPtr 10 T_Structure));
    vm_compute; reflexivity.
Defined.

(** ** The entry point and the intrinsics *)

Lemma NoDup_fmap_eq {A B} (h : A → B) (l : list A) x y :
  NoDup (h <$> l) → x ∈ l → y ∈ l → h x = h y → x = y.
Proof.
  induction l as [|z l IH]; [by intros _ Hx; inversion Hx|].
  rewrite fmap_cons, NoDup_cons, !elem_of_cons.
  intros [Hz Hnd] [->|Hx] [->|Hy] Heq; try done.
  - exfalso. apply Hz. rewrite Heq. apply list_elem_of_fmap. by exists y.
  - exfalso. apply Hz. rewrite <- Heq. apply list_elem_of_fmap. by exists x.
  - by apply IH.
Qed.

Lemma elem_of_input_stmnts E F a :
  a ∈ input_stmnts E F ↔
  ∃ g q, g ∈ fp_funcs F ∧ fd_name g = E ∧ q ∈ fd_parameters g ∧
         a = address (vds_base q).
Proof.
  unfold input_stmnts, entry_funcs. rewrite list_elem_of_bind. split.
  - intros (g & (q & -> & Hq)%list_elem_of_fmap & [Hn Hg]%list_elem_of_filter).
    by exists g, q.
  - intros (g & q & Hg & Hn & Hq & ->). exists g. split.
    + apply list_elem_of_fmap. by exists q.
    + by apply list_elem_of_filter.
Qed.

(** The types in the header of a function. *)
Lemma elem_of_entry_structs E F h a :
  (a ∈ output_structs E F h ∨ a ∈ input_structs E F h) →
  ∃ g vt, g ∈ fp_funcs F ∧ fd_name g = E ∧
          vt ∈ fd_returnType g :: (vds_varType <$> fd_parameters g) ∧
          a ∈ type_structs h vt.
Proof.
  unfold output_structs, input_structs, entry_funcs.
  rewrite !list_elem_of_bind.
  intros [(g & Ha & [Hn Hg]%list_elem_of_filter)
         |(g & (q & Ha & Hq)%list_elem_of_bind & [Hn Hg]%list_elem_of_filter)].
  - exists g, (fd_returnType g). repeat split; [done..|set_solver|done].
  - exists g, (vds_varType q). repeat split; [done..| |done].
    apply elem_of_cons. right. apply list_elem_of_fmap. by exists q.
Qed.

Lemma aliased_structs_input E F h a :
  a ∈ aliased_structs E F h → a ∈ input_structs E F h.
Proof.
  unfold aliased_structs, input_structs. rewrite !list_elem_of_bind.
  intros (g & (q & Ha & Hq)%list_elem_of_bind & Hg). exists g. split; [|done].
  apply list_elem_of_bind. exists q. split; [|done].
  destruct (vds_varDecls q); [by inversion Ha|].
  unfold type_structs. set_solver.
Qed.

(** C4: when [DecorateAST] returns on a tree whose nodes have addresses of
    their own, every function declaration on the walk whose name is the name
    of the entry point has the flags [isEntryPoint] and [isUsed], its return
    type is decorated as shader output and each parameter as shader input;
    every function declaration of another name has the function flags it had
    before the call.  The decoration is that of the entry points and no
    more: a declaration statement gains the shader-input flag exactly if it
    is a parameter of a function named like the entry point, a structure
    gains the shader-output (shader-input) flag exactly if the return type
    (a parameter type) of such a function refers to it, and alias names
    change only on structures referenced by such a parameter.  So the
    parameters of a function of another name keep their flags, and the
    structures its header refers to keep their flags and alias names unless
    the header of an entry point refers to them too. *)
Theorem entry_point_selection FullVarIdent p entryPoint target version s b s' :
  DecorateAST FullVarIdent (Some p) entryPoint target version s
    = Some (b, s') →
  let F := walked_Program FullVarIdent p in
  let header f := fd_returnType f :: (vds_varType <$> fd_parameters f) in
  NoDup ((λ f, address (fd_base f)) <$> fp_funcs F) →
  NoDup (fp_types F) →
  (∀ f, f ∈ fp_funcs F →
     (fd_name f = entryPoint → entry_decorated f s') ∧
     (fd_name f ≠ entryPoint →
      flags_at (functionFlags (tree s')) (address (fd_base f))
        = flags_at (functionFlags (tree s)) (address (fd_base f)))) ∧
  (∀ a, flags_at (stmntFlags (tree s')) a =
        flags_at (stmntFlags (tree s)) a ∪ stmnt_marks entryPoint F a) ∧
  (∀ a, flags_at (structureFlags (tree s')) a =
        flags_at (structureFlags (tree s)) a
          ∪ structure_marks entryPoint F (tree s') a) ∧
  (∀ a, a ∉ aliased_structs entryPoint F (tree s') →
        aliasName_at (tree s') a = aliasName_at (tree s) a) ∧
  (∀ f, f ∈ fp_funcs F → fd_name f ≠ entryPoint →
     (∀ param, param ∈ fd_parameters f →
        (∀ g q, g ∈ fp_funcs F → fd_name g = entryPoint →
                q ∈ fd_parameters g →
                address (vds_base q) ≠ address (vds_base param)) →
        flags_at (stmntFlags (tree s')) (address (vds_base param))
          = flags_at (stmntFlags (tree s)) (address (vds_base param))) ∧
     (∀ vt a, vt ∈ header f → a ∈ type_structs (tree s') vt →
        (∀ g vt', g ∈ fp_funcs F → fd_name g = entryPoint →
                  vt' ∈ header g → a ∉ type_structs (tree s') vt') →
        flags_at (structureFlags (tree s')) a
          = flags_at (structureFlags (tree s)) a ∧
        aliasName_at (tree s') a = aliasName_at (tree s) a)).
Proof.
  intros H F header Hnd1 Hnd2.
  destruct (DecorateAST_walk _ _ _ _ _ _ _ _ H)
    as (s0 & Ht & _ & _ & [(_ & _ & _ & Hd & _) He]).
  destruct (DecorateAST_decorates _ _ _ _ _ _ _ _ H) as (s1 & Ht1 & [_ Hm]).
  destruct (Hm Hnd2) as (Hstm & Hstr & Hal). rewrite Ht1 in Hstm, Hstr, Hal.
  split; [|split; [done|]; split; [done|]; split; [done|]].
  - intros f Hf. split.
    + intros Hn. by apply He.
    + intros Hn. rewrite Hd, Ht. unfold entry_flags.
      rewrite bool_decide_eq_false_2; [set_solver|].
      intros Hin. unfold entry_addrs in Hin.
      apply list_elem_of_fmap in Hin as (g & Hg1 & Hg2).
      apply list_elem_of_filter in Hg2 as [Hgn Hg].
      apply Hn. rewrite <- Hgn. f_equal.
      by apply (NoDup_fmap_eq (λ f, address (fd_base f)) (fp_funcs F)).
  - intros f Hf Hn. split.
    + intros param Hp Hother. rewrite Hstm. unfold stmnt_marks.
      rewrite bool_decide_eq_false_2; [set_solver|].
      intros (g & q & Hg & Hgn & Hq & Heq)%elem_of_input_stmnts.
      by apply (Hother g q).
    + intros vt a Hvt Ha Hother.
      assert ((a ∉ output_structs entryPoint F (tree s')) ∧
              (a ∉ input_structs entryPoint F (tree s'))) as [Ho Hi].
      { split; intros Hin;
          [destruct (elem_of_entry_structs entryPoint F (tree s') a
                       (or_introl Hin)) as (g & vt' & Hg & Hgn & Hv & Hin')
          |destruct (elem_of_entry_structs entryPoint F (tree s') a
                       (or_intror Hin)) as (g & vt' & Hg & Hgn & Hv & Hin')];
          by apply (Hother g vt'). }
      split.
      * rewrite Hstr. unfold structure_marks.
        rewrite !bool_decide_eq_false_2 by done. set_solver.
      * apply Hal. intros Hin. by apply Hi, aliased_structs_input.
Qed.

Lemma entry_point_selection_witness :
  DecorateAST Sample.dotted (Some Sample.main_and_helper) "main" 0 0
    Sample.start
    = Some (true, Sample.end_of Sample.main_and_helper) ∧
  entry_decorated Sample.main_two_params
    (Sample.end_of Sample.main_and_helper) ∧
  flags_at (functionFlags (tree (Sample.end_of Sample.main_and_helper))) 61
    = ∅ ∧
  flags_at (stmntFlags (tree (Sample.end_of Sample.main_and_helper))) 63
    = ∅ ∧
  flags_at (structureFlags (tree (Sample.end_of Sample.main_and_helper))) 60
    = ∅.
Proof.
  assert (DecorateAST Sample.dotted (Some Sample.main_and_helper) "main" 0 0
            Sample.start
          = Some (true, Sample.end_of Sample.main_and_helper)) as H
    by (vm_compute; reflexivity).
  split; [exact H|].
  destruct (entry_point_selection Sample.dotted Sample.main_and_helper "main"
              0 0 Sample.start true (Sample.end_of Sample.main_and_helper) H)
    as (Hf & Hstm & Hstr & _ & _);
    [apply (bool_decide_unpack _); by vm_compute
    |apply (bool_decide_unpack _); by vm_compute|].
  split; [|split; [|split]].
  - apply (Hf Sample.main_two_params); [|reflexivity].
    apply list_elem_of_In; simpl; tauto.
  - assert (Sample.helper_T
              ∈ fp_funcs (walked_Program Sample.dotted Sample.main_and_helper))
      as Hin by (apply list_elem_of_In; simpl; tauto).
    assert (fd_name Sample.helper_T ≠ "main") as Hne by done.
    exact (proj2 (Hf Sample.helper_T Hin) Hne).
  - rewrite Hstm. unfold stmnt_marks.
    rewrite bool_decide_eq_false_2; [reflexivity|].
    apply (bool_decide_unpack _). by vm_compute.
  - rewrite Hstr. unfold structure_marks.
    rewrite !bool_decide_eq_false_2;
      [reflexivity|apply (bool_decide_unpack _); by vm_compute..].
Defined.

(** C5 does not hold of the code: [VisitFunctionCall] reads the called name
    through [FullVarIdent] and visits the arguments, but never hands the
    name to [Visit], although [VisitVarIdent] visits the index expressions
    of an identifier.  So a call that stands in an index expression of a
    called name is not looked at: the visit of a call is the same for any
    two names with the same full name.  On
    [void main() { f[mul(a, b)](); }] the program contains a call of "mul",
    [DecorateAST] returns [true], and the program is left without the flag
    [mulIntrinsicUsed]; with the same call as an argument, in
    [void main() { f(mul(a, b)); }], the flag is set. *)
Theorem intrinsic_call_in_called_name_missed :
  "mul" ∈ calls_in_Program Sample.dotted Sample.call_in_name ∧
  DecorateAST Sample.dotted (Some Sample.call_in_name) "main" 0 0
    Sample.start
    = Some (true, Sample.end_of Sample.call_in_name) ∧
  (Program_mulIntrinsicUsed
     ∉ flags_at (programFlags (tree (Sample.end_of Sample.call_in_name))) 1) ∧
  "mul" ∈ calls_in_Program Sample.dotted Sample.call_in_argument ∧
  (Program_mulIntrinsicUsed
     ∈ flags_at (programFlags (tree (Sample.end_of Sample.call_in_argument)))
         1) ∧
  (∀ FullVarIdent name name' arguments s,
     FullVarIdent name = FullVarIdent name' →
     Visit FullVarIdent (NFunctionCall name arguments) s
     = Visit FullVarIdent (NFunctionCall name' arguments) s).
Proof.
  split; [apply (bool_decide_unpack _); by vm_compute|].
  split; [vm_compute; reflexivity|].
  split; [apply (bool_decide_unpack _); by vm_compute|].
  split; [apply (bool_decide_unpack _); by vm_compute|].
  split; [apply (bool_decide_unpack _); by vm_compute|].
  intros FullVarIdent name name' arguments s Hname. simpl. by rewrite Hname.
Qed.

(** ** Scopes *)

Lemma symTable_eta t : mkSymbolTable (inner t) (outer t) = t.
Proof. by destruct t. Qed.

Lemma set_symTable_same s : set_symTable (symTable_ s) s = s.
Proof. by destruct s. Qed.

Lemma Fetch_OpenScope ident s : Fetch ident (OpenScope s) = Fetch ident s.
Proof.
  unfold Fetch, OpenScope, SymTab.Fetch. simpl. by rewrite lookup_empty.
Qed.

Lemma CloseScope_OpenScope_inner f s :
  CloseScope (set_symTable (mkSymbolTable f (outer (symTable_ (OpenScope s))))
                (OpenScope s)) = s.
Proof.
  by destruct s as [? ? ? ? ? ? ? ? [i o] ?].
Qed.

Lemma Register_success ident ty ast proc s :
  (∀ existing, inner (symTable_ s) !! ident = Some existing →
               proc existing = true) →
  Register ident ty ast proc s =
  set_symTable
    (mkSymbolTable (<[ident := ptr_of ty ast]> (inner (symTable_ s)))
       (outer (symTable_ s))) s.
Proof.
  intros H. unfold Register, SymTab.Register.
  destruct (inner (symTable_ s) !! ident) as [old|]; [|done].
  by rewrite (H old).
Qed.

Lemma Register_failure ident ty ast proc s existing :
  inner (symTable_ s) !! ident = Some existing →
  proc existing = false →
  Register ident ty ast proc s = Error (SymTab.duplicate ident) (Some ast) s.
Proof.
  intros H1 H2. unfold Register, SymTab.Register. by rewrite H1, H2.
Qed.

Lemma visit_each_app {A} (visit : A → Walk) xs ys s :
  visit_each visit (xs ++ ys) s
  = (visit_each visit xs >=> visit_each visit ys) s.
Proof.
  revert s. induction xs as [|x xs IH]; intros s; [done|].
  simpl. unfold then_. simpl. destruct (visit x s) as [s1|]; [|done].
  apply IH.
Qed.

Lemma visit_each_snoc {A} (visit : A → Walk) xs x s :
  visit_each visit (xs ++ [x]) s = (visit_each visit xs >=> visit x) s.
Proof.
  rewrite visit_each_app. unfold then_.
  destruct (visit_each visit xs s) as [s1|]; [|done]. simpl.
  by destruct (visit x s1).
Qed.

Lemma block_struct_then_type FullVarIdent base name b s :
  name ≠ "" →
  VisitCodeBlock FullVarIdent
    (mkCodeBlock [NStructure (mkStructure base name []);
                  NVarType (mkVarType b name None)]) s
  = Some (assign_symbolRef (address b) (ptr_of T_Structure base) s).
Proof.
  intros Hn. rewrite VisitCodeBlock_eq. simpl.
  unfold register_Structure. rewrite !bool_decide_eq_true_2 by done.
  rewrite Register_success by (simpl; intros ?; by rewrite lookup_empty).
  unfold Fetch, SymTab.Fetch. simpl. rewrite lookup_insert_eq.
  by destruct s as [? ? ? ? ? ? ? ? [i o] ?].
Qed.

(** C6: a code block opens a scope, visits its statements in it, and closes
    it.  When the visit of any block is over, the symbol table is the one
    from before the block, so [Fetch] finds nothing that was registered in
    the block.  At every point inside the block the enclosing scopes are
    those from before with the old innermost one added, and [Fetch] gives
    the registration of the block's scope if there is one and otherwise
    what was found before the block.  A structure declared in a block is
    registered without a report whatever the enclosing scopes hold under
    its name, and a type naming it later in the block refers to it; a type
    in a block that names an outer symbol refers to that; and a type after
    a block is resolved as if the block had not been there. *)
Theorem CodeBlock_scoping FullVarIdent s :
  (∀ cb s', VisitCodeBlock FullVarIdent cb s = Some s' →
     symTable_ s' = symTable_ s ∧ ∀ ident, Fetch ident s' = Fetch ident s) ∧
  VisitCodeBlock FullVarIdent (mkCodeBlock []) s = Some s ∧
  (∀ stmnts n s1,
     visit_each (Visit FullVarIdent) stmnts (OpenScope s) = Some s1 →
     VisitCodeBlock FullVarIdent (mkCodeBlock (stmnts ++ [n])) s
     = match Visit FullVarIdent n s1 with
       | Some s2 => Some (CloseScope s2)
       | None => None
       end) ∧
  (∀ stmnts s1,
     visit_each (Visit FullVarIdent) stmnts (OpenScope s) = Some s1 →
     outer (symTable_ s1) = inner (symTable_ s) :: outer (symTable_ s) ∧
     ∀ ident,
       Fetch ident s1 =
       match inner (symTable_ s1) !! ident with
       | Some symbol => Some symbol
       | None => Fetch ident s
       end) ∧
  (∀ base name b, name ≠ "" →
     VisitCodeBlock FullVarIdent
       (mkCodeBlock [NStructure (mkStructure base name []);
                     NVarType (mkVarType b name None)]) s
     = Some (assign_symbolRef (address b) (ptr_of T_Structure base) s)) ∧
  (∀ name b, name ≠ "" →
     VisitCodeBlock FullVarIdent
       (mkCodeBlock [NVarType (mkVarType b name None)]) s
     = Some match Fetch name s with
            | Some symbol => assign_symbolRef (address b) symbol s
            | None => s
            end) ∧
  (∀ base name b, name ≠ "" →
     (VisitCodeBlock FullVarIdent
        (mkCodeBlock [NStructure (mkStructure base name [])])
      >=> VisitVarType FullVarIdent (mkVarType b name None)) s
     = VisitVarType FullVarIdent (mkVarType b name None) s).
Proof.
  assert (∀ stmnts s1,
     visit_each (Visit FullVarIdent) stmnts (OpenScope s) = Some s1 →
     outer (symTable_ s1) = inner (symTable_ s) :: outer (symTable_ s))
    as Hin.
  { intros stmnts s1 E.
    assert (scope_rel (OpenScope s) s1) as Ho; [|exact Ho].
    revert E. apply respects_visit_each; [apply scope_rel_invariant|].
    apply Forall_forall. intros n _. by apply respects_all, scope_rel_invariant. }
  assert (∀ cb s', VisitCodeBlock FullVarIdent cb s = Some s' →
            symTable_ s' = symTable_ s) as Hout.
  { intros [stmnts] s'. rewrite VisitCodeBlock_eq.
    destruct (visit_each _ _ _) as [s1|] eqn:E; [|done]. intros [= <-].
    unfold CloseScope, SymTab.CloseScope. rewrite (Hin _ _ E). simpl.
    apply symTable_eta. }
  split; [|split; [|split; [|split; [|split; [|split]]]]].
  - intros cb s' H. split; [by eapply Hout|].
    intros ident. unfold Fetch. by rewrite (Hout cb s' H).
  - rewrite VisitCodeBlock_eq. simpl. f_equal.
    apply (CloseScope_OpenScope_inner ∅ s).
  - intros stmnts n s1 E. rewrite VisitCodeBlock_eq, visit_each_snoc.
    unfold then_. by rewrite E.
  - intros stmnts s1 E. split; [by eapply Hin|].
    intros ident. unfold Fetch, SymTab.Fetch. simpl.
    rewrite (Hin _ _ E). simpl.
    by destruct (inner (symTable_ s1) !! ident).
  - intros base name b Hn. by apply block_struct_then_type.
  - intros name b Hn. rewrite VisitCodeBlock_eq. simpl.
    rewrite bool_decide_eq_true_2 by done. rewrite Fetch_OpenScope.
    destruct (Fetch name s); simpl; f_equal.
    + change (CloseScope (assign_symbolRef ?a ?p ?x))
        with (assign_symbolRef a p (CloseScope x)).
      f_equal. apply (CloseScope_OpenScope_inner ∅ s).
    + apply (CloseScope_OpenScope_inner ∅ s).
  - intros base name b Hn. unfold then_. rewrite VisitCodeBlock_eq.
    simpl visit_each.
    unfold register_Structure. rewrite bool_decide_eq_true_2 by done.
    rewrite Register_success by (simpl; intros ?; by rewrite lookup_empty).
    by rewrite CloseScope_OpenScope_inner.
Qed.

Lemma CodeBlock_scoping_witness :
  VisitCodeBlock Sample.dotted
    (mkCodeBlock [NStructure (mkStructure (Sample.at_ 12) "S" []);
                  NVarType (Sample.type_S 31)])
    Sample.with_S
  = Some (assign_symbolRef 31 (mkPtr 12 T_Structure) Sample.with_S) ∧
  Fetch "S" Sample.with_S = Some (mkPtr 10 T_Structure) ∧
  reported (assign_symbolRef 31 (mkPtr 12 T_Structure) Sample.with_S) = [] ∧
  VisitCodeBlock Sample.dotted (mkCodeBlock [NVarType (Sample.type_S 31)])
    Sample.with_S
  = Some (assign_symbolRef 31 (mkPtr 10 T_Structure) Sample.with_S).
Proof.
  destruct (CodeBlock_scoping Sample.dotted Sample.with_S)
    as (_ & _ & _ & _ & Hshadow & Houter & _).
  split; [|split; [|split]].
  - apply (Hshadow (Sample.at_ 12) "S" (Sample.at_ 31)). done.
  - vm_compute; reflexivity.
  - vm_compute; reflexivity.
  - assert ("S" ≠ "") as Hn by done.
    etrans; [exact (Houter "S" (Sample.at_ 31) Hn)|].
    vm_compute; reflexivity.
Defined.

(** ** The rules for structures and types *)

Lemma reported_Error msg ast s :
  reported (Error msg ast s) = msg :: reported s ∧
  hasErrors_ (Error msg ast s) = true ∧
  symTable_ (Error msg ast s) = symTable_ s ∧
  tree (Error msg ast s) = tree s.
Proof. done. Qed.

Lemma register_Structure_named base name s :
  name ≠ "" →
  register_Structure base name s =
  Register name T_Structure base
    (λ symbol, bool_decide (ptr_type symbol = T_StructDecl)) s.
Proof. intros H. unfold register_Structure. by rewrite bool_decide_eq_true_2. Qed.



(** ** Buffers and types *)

(** C8: the visit of a buffer whose kind is not "cbuffer" reports once, for
    the buffer, and then visits the members one after the other: the visit
    of a buffer with one more member is the visit of the buffer followed by
    the visit of that member.  A "cbuffer" is not reported.  Compared with
    the visit of the same buffer as a "cbuffer" from the same state, the
    walk is undefined for both or ends for both, with the same decoration
    of the tree and the same reports for the members, after the one report
    for the buffer.  A member whose type names a symbol gets its symbol
    reference, and a member without a type is reported, as in a
    "cbuffer". *)
Theorem BufferDecl_unsupported_kind FullVarIdent base bufferType s :
  bufferType ≠ "cbuffer" →
  let msg :=
    "buffer type " +:+ quote +:+ bufferType +:+ quote
      +:+ " currently not supported" in
  let visit kind members :=
    Visit FullVarIdent (NBufferDecl base kind members) in
  (visit bufferType [] s = Some (Error msg (Some base) s) ∧
   reported (Error msg (Some base) s) = msg :: reported s ∧
   visit "cbuffer" [] s = Some s) ∧
  (∀ members member,
     visit bufferType (members ++ [member]) s
     = (visit bufferType members >=> Visit FullVarIdent member) s ∧
     visit "cbuffer" (members ++ [member]) s
     = (visit "cbuffer" members >=> Visit FullVarIdent member) s) ∧
  (∀ members,
     match visit bufferType members s, visit "cbuffer" members s with
     | Some s1, Some s2 =>
         decoration s1 = decoration s2 ∧
         ∃ new, reported s1 = new ++ msg :: reported s ∧
                reported s2 = new ++ reported s
     | None, None => True
     | _, _ => False
     end) ∧
  (∀ stmnt type name declared symbol,
     name ≠ "" → Fetch name s = Some symbol →
     visit bufferType
       [NVarDeclStmnt
          (mkVarDeclStmnt stmnt (mkVarType type name None)
             [mkVarDecl declared [] [] None])] s
     = Some (assign_symbolRef (address type) symbol
               (Error msg (Some base) s))) ∧
  (∀ stmnt type declared,
     visit bufferType
       [NVarDeclStmnt
          (mkVarDeclStmnt stmnt (mkVarType type "" None)
             [mkVarDecl declared [] [] None])] s
     = Some (Error "missing variable type" (Some type)
               (Error msg (Some base) s))).
Proof.
  intros Hk msg visit.
  assert (∀ members, visit bufferType members s
          = visit_each (Visit FullVarIdent) members (Error msg (Some base) s))
    as E1 by (intros; subst visit; simpl; by rewrite bool_decide_eq_true_2).
  assert (∀ members, visit "cbuffer" members s
          = visit_each (Visit FullVarIdent) members s) as E2 by done.
  split; [|split; [|split; [|split]]].
  - by rewrite E1, E2.
  - intros members member. rewrite !E1, !E2. unfold then_. rewrite E1, E2.
    split; apply visit_each_snoc.
  - intros members. rewrite E1, E2.
    assert (agree (visit_each (Visit FullVarIdent) members)) as Ha.
    { apply agree_visit_each, Forall_forall. intros n _. apply agree_all. }
    apply (Ha (Error msg (Some base) s) s). by destruct s.
  - intros stmnt type name declared symbol Hn Hf. rewrite E1. simpl.
    unfold then_. rewrite bool_decide_eq_true_2 by done.
    change (Fetch name (Error msg (Some base) s)) with (Fetch name s).
    rewrite Hf. by rewrite decorate_variable_type_declared.
  - intros stmnt type declared. rewrite E1. simpl. unfold then_.
    by rewrite decorate_variable_type_declared.
Qed.

Lemma BufferDecl_unsupported_kind_witness :
  "tbuffer" ≠ "cbuffer" ∧
  Visit Sample.dotted
    (NBufferDecl (Sample.at_ 50) "tbuffer"
       [NVarDeclStmnt (Sample.decl_S 22 23 "a")]) Sample.with_S
  = Some (assign_symbolRef 23 (mkPtr 10 T_Structure)
            (Error ("buffer type " +:+ quote +:+ "tbuffer" +:+ quote
                      +:+ " currently not supported")
               (Some (Sample.at_ 50)) Sample.with_S)) ∧
  Visit Sample.dotted
    (NBufferDecl (Sample.at_ 50) "cbuffer"
       [NVarDeclStmnt (Sample.decl_S 22 23 "a")]) Sample.with_S
  = Some (assign_symbolRef 23 (mkPtr 10 T_Structure) Sample.with_S).
Proof.
  assert ("tbuffer" ≠ "cbuffer") as Hk by done.
  split; [exact Hk|]. split; [|vm_compute; reflexivity].
  destruct (BufferDecl_unsupported_kind Sample.dotted (Sample.at_ 50)
              "tbuffer" Sample.with_S Hk) as (_ & _ & _ & Hm & _).
  assert ("S" ≠ "") as Hn by done.
  assert (Fetch "S" Sample.with_S = Some (mkPtr 10 T_Structure)) as Hf
    by (vm_compute; reflexivity).
  exact (Hm (Sample.at_ 22) (Sample.at_ 23) "S" "a" (mkPtr 10 T_Structure)
           Hn Hf).
Defined.

(** C9: [VisitVarType].  With a base type name, [Fetch] is asked: a symbol
    that is found becomes the symbol reference of the type, a name that is
    not found changes nothing, and nothing is reported either way.  Without a
    name, an inline structure is visited.  With neither, "missing variable
    type" is reported, once. *)
Theorem VarType_rule FullVarIdent base baseType structType s :
  let ast := mkVarType base baseType structType in
  (baseType ≠ "" →
   (∀ symbol, Fetch baseType s = Some symbol →
      VisitVarType FullVarIdent ast s
        = Some (assign_symbolRef (address base) symbol s) ∧
      symbolRef_at (tree (assign_symbolRef (address base) symbol s))
        (address base) = Some symbol ∧
      reported (assign_symbolRef (address base) symbol s) = reported s ∧
      hasErrors_ (assign_symbolRef (address base) symbol s) = hasErrors_ s) ∧
   (Fetch baseType s = None → VisitVarType FullVarIdent ast s = Some s)) ∧
  (baseType = "" →
   (∀ st, structType = Some st →
      VisitVarType FullVarIdent ast s = VisitStructure FullVarIdent st s) ∧
   (structType = None →
      VisitVarType FullVarIdent ast s
        = Some (Error "missing variable type" (Some base) s) ∧
      reported (Error "missing variable type" (Some base) s)
        = "missing variable type" :: reported s)).
Proof.
  cbv zeta. rewrite VisitVarType_eq. split.
  - intros Hn. rewrite bool_decide_eq_true_2 by done. split.
    + intros symbol ->. repeat split. simpl. apply lookup_insert_eq.
    + by intros ->.
  - intros ->. simpl. split; [by intros st ->|by intros ->].
Qed.

Lemma VarType_rule_witness :
  VisitVarType Sample.dotted (mkVarType (Sample.at_ 41) "" None) Sample.start
    = Some (Error "missing variable type" (Some (Sample.at_ 41)) Sample.start)
  ∧ VisitVarType Sample.dotted (Sample.type_S 31) Sample.start
    = Some Sample.start
  ∧ VisitVarType Sample.dotted (Sample.type_S 31) Sample.with_S
    = Some (assign_symbolRef 31 (mkPtr 10 T_Structure) Sample.with_S).
Proof.
  split; [|split].
  - destruct (VarType_rule Sample.dotted (Sample.at_ 41) "" None Sample.start)
      as [_ H].
    destruct (H eq_refl) as [_ H2]. exact (proj1 (H2 eq_refl)).
  - destruct (VarType_rule Sample.dotted (Sample.at_ 31) "S" None
                Sample.start) as [H _].
    destruct (H ltac:(done)) as [_ H2]. apply H2. vm_compute; reflexivity.
  - destruct (VarType_rule Sample.dotted (Sample.at_ 31) "S" None
                Sample.with_S) as [H _].
    destruct (H ltac:(done)) as [H1 _].
    apply (H1 (mkPtr 10 T_Structure)). vm_compute; reflexivity.
Defined.

(** ** Redeclaration *)

(** C10: the structure rule registers the structure node itself, a pointer
    of type [Structure], and its predicate accepts only an existing entry of
    type [StructDecl].  So once the rule has registered a name, in every
    later state in which the innermost scope still holds an entry of type
    [Structure] for the name, the rule reports a duplicate and leaves the
    table alone: the redeclaration branch is not taken. *)
Theorem Structure_never_redeclared base base2 name s :
  name ≠ "" →
  inner (symTable_ s) !! name = None →
  let first := register_Structure base name s in
  inner (symTable_ first) !! name = Some (ptr_of T_Structure base) ∧
  ptr_type (ptr_of T_Structure base) = T_Structure ∧
  (∀ later existing,
     inner (symTable_ later) !! name = Some existing →
     ptr_type existing = T_Structure →
     let second := register_Structure base2 name later in
     second = Error (SymTab.duplicate name) (Some base2) later ∧
     reported second = SymTab.duplicate name :: reported later ∧
     hasErrors_ second = true ∧
     symTable_ second = symTable_ later) ∧
  register_Structure base2 name first
    = Error (SymTab.duplicate name) (Some base2) first.
Proof.
  intros Hname Hfree first.
  assert (inner (symTable_ first) !! name = Some (ptr_of T_Structure base))
    as Hfirst.
  { subst first. rewrite (register_Structure_named _ _ _ Hname).
    rewrite Register_success by (intros ?; by rewrite Hfree).
    simpl. apply lookup_insert_eq. }
  assert (∀ later existing,
     inner (symTable_ later) !! name = Some existing →
     ptr_type existing = T_Structure →
     register_Structure base2 name later
       = Error (SymTab.duplicate name) (Some base2) later) as Hrej.
  { intros later existing He Ht.
    rewrite (register_Structure_named _ _ _ Hname).
    apply (Register_failure _ _ _ _ _ existing He). by rewrite Ht. }
  split; [done|]. split; [done|]. split.
  - intros later existing He Ht. cbv zeta. by rewrite (Hrej _ _ He Ht).
  - by apply (Hrej _ _ Hfirst).
Qed.

Lemma Structure_never_redeclared_witness :
  "S" ≠ "" ∧
  inner (symTable_ Sample.start) !! "S" = None ∧
  register_Structure (Sample.at_ 11) "S" Sample.with_S
    = Error (SymTab.duplicate "S") (Some (Sample.at_ 11)) Sample.with_S.
Proof.
  split; [done|]. split; [reflexivity|].
  apply (Structure_never_redeclared (Sample.at_ 10) (Sample.at_ 11) "S"
           Sample.start); [done|reflexivity].
Defined.

(** * Further properties *)

(** ** Diagnostics *)

Lemma log_rel_same s s' :
  reported s' = reported s → log_ s' = log_ s → log_rel s s'.
Proof.
  intros Hr Hl. exists []. split; [constructor|]. simpl. split; [done|].
  rewrite Hl. by destruct (log_ s).
Qed.

Lemma log_rel_invariant : WalkInvariant log_rel.
Proof.
  split; try (intros; by apply log_rel_same).
  - intros s1 s2 s3 (e1 & K1 & R1 & L1) (e2 & K2 & R2 & L2). exists (e2 ++ e1).
    split; [by apply Forall_app|].
    rewrite R2, R1, L2, L1, !fmap_app, app_assoc. split; [done|].
    destruct (log_ s1); simpl; [|done]. by rewrite app_assoc.
  - intros msg ast s Hk. exists [(msg, ast)].
    split; [by repeat constructor|]. split; [done|].
    unfold Error, error_line. simpl. by destruct (log_ s).
  - intros s s' (e & K & Hr & Hl). exists e. split; [done|].
    by destruct s, s'.
Qed.

Lemma DecorateAST_respects FullVarIdent R p entryPoint target version s b s' :
  WalkInvariant R →
  DecorateAST FullVarIdent (Some p) entryPoint target version s
    = Some (b, s') →
  R (mkState (log_ s) false (reported s) entryPoint target version
       (address (prog_base p)) (isInsideEntryPoint_ s) (symTable_ s)
       (tree s)) s'.
Proof.
  intros HR. unfold DecorateAST.
  destruct (VisitProgram _ _ _) as [s1|] eqn:E; [|done]. intros [= <- <-].
  by apply (respects_VisitProgram _ _ _ HR) in E.
Qed.

(** X1: a call of [DecorateAST] with a null program returns [false] and
    neither reports nor logs anything.  During a call with a program, every
    call of [Error] has one of the three messages of the visit functions
    and a node, and is passed on to the logger, once and in order, as
    "context error (position of the node) : message"; an analyzer without
    a logger stays without one and still counts the reports; the result is
    [true] exactly if there was no such call.  [Error] itself writes the
    position when it is given a node and "context error : message" when it
    is not, and the node the visit functions give is the type without a
    name, the buffer of an unsupported kind, and the declaration whose
    registration fails. *)
Theorem diagnostics_forwarded FullVarIdent entryPoint target version s :
  DecorateAST FullVarIdent None entryPoint target version s
    = Some (false, s) ∧
  (∀ p b s',
     DecorateAST FullVarIdent (Some p) entryPoint target version s
       = Some (b, s') →
     ∃ entries : list (string * AST),
       Forall (λ entry, known_report entry.1) entries ∧
       reported s' = (fst <$> entries) ++ reported s ∧
       log_ s' =
         (λ l, ((λ entry, "context error (" +:+ pos entry.2 +:+ ") : "
                            +:+ entry.1) <$> entries) ++ l) <$> log_ s ∧
       (log_ s = None → log_ s' = None) ∧
       b = negb (bool_decide (entries ≠ []))) ∧
  (∀ msg ast,
     reported (Error msg ast s) = msg :: reported s ∧
     log_ (Error msg ast s) =
       (λ l, match ast with
             | Some a => "context error (" +:+ pos a +:+ ") : " +:+ msg
             | None => "context error : " +:+ msg
             end :: l) <$> log_ s) ∧
  (∀ base,
     VisitVarType FullVarIdent (mkVarType base "" None) s
       = Some (Error "missing variable type" (Some base) s)) ∧
  (∀ base bufferType,
     bufferType ≠ "cbuffer" →
     Visit FullVarIdent (NBufferDecl base bufferType []) s
       = Some (Error ("buffer type " +:+ quote +:+ bufferType +:+ quote
                        +:+ " currently not supported") (Some base) s)) ∧
  (∀ ident ty ast proc existing,
     inner (symTable_ s) !! ident = Some existing →
     proc existing = false →
     Register ident ty ast proc s
       = Error (SymTab.duplicate ident) (Some ast) s).
Proof.
  split; [done|]. split; [|split; [|split; [|split]]].
  - intros p b s' H.
    pose proof (DecorateAST_respects _ _ _ _ _ _ _ _ _ log_rel_invariant H)
      as (entries & Hk & Hr & Hl).
    pose proof (DecorateAST_respects _ _ _ _ _ _ _ _ _ diag_rel_invariant H)
      as (new & Hn & He).
    simpl in *. exists entries. split; [done|]. split; [done|].
    split; [done|]. split.
    + intros Hnone. by rewrite Hl, Hnone.
    + assert (new = fst <$> entries) as ->.
      { rewrite Hr in Hn. by apply app_inv_tail in Hn. }
      unfold DecorateAST in H.
      destruct (VisitProgram _ _ _) as [s1|]; [|done]. injection H as <- <-.
      rewrite He. by destruct entries.
  - intros msg ast. split; [done|]. simpl. by destruct (log_ s).
  - intros base. by rewrite VisitVarType_eq.
  - intros base bufferType Hk. simpl. by rewrite bool_decide_eq_true_2.
  - intros ident ty ast proc existing. apply Register_failure.
Qed.

Lemma diagnostics_forwarded_witness :
  DecorateAST Sample.dotted (Some Sample.tbuffer_program) "main" 0 0
    Sample.start
    = Some (false, Sample.end_of Sample.tbuffer_program) ∧
  ∃ entries : list (string * AST),
    Forall (λ entry, known_report entry.1) entries ∧
    reported (Sample.end_of Sample.tbuffer_program)
      = (fst <$> entries) ++ reported Sample.start ∧
    log_ (Sample.end_of Sample.tbuffer_program) =
      (λ l, ((λ entry, "context error (" +:+ pos entry.2 +:+ ") : "
                         +:+ entry.1) <$> entries) ++ l)
        <$> log_ Sample.start ∧
    (log_ Sample.start = None →
     log_ (Sample.end_of Sample.tbuffer_program) = None) ∧
    false = negb (bool_decide (entries ≠ [])).
Proof.
  assert (DecorateAST Sample.dotted (Some Sample.tbuffer_program) "main" 0 0
            Sample.start
          = Some (false, Sample.end_of Sample.tbuffer_program)) as H
    by (vm_compute; reflexivity).
  split; [exact H|].
  destruct (diagnostics_forwarded Sample.dotted "main" 0 0 Sample.start)
    as (_ & Hp & _).
  exact (Hp Sample.tbuffer_program false
           (Sample.end_of Sample.tbuffer_program) H).
Defined.

(** X2: no visit clears the error flag: after a visit it is set exactly if
    it was set before or the visit reported something. *)
Theorem Visit_keeps_error_flag FullVarIdent n s s' :
  Visit FullVarIdent n s = Some s' →
  (hasErrors_ s = true → hasErrors_ s' = true) ∧
  ∃ new, reported s' = new ++ reported s ∧
         (hasErrors_ s' = true ↔ hasErrors_ s = true ∨ new ≠ []).
Proof.
  intros H.
  destruct (respects_all _ diag_rel_invariant FullVarIdent) as [Hn _].
  destruct (Hn n s s' H) as (new & Hr & He). rewrite He. split.
  - by intros ->.
  - exists new. split; [done|].
    destruct (hasErrors_ s), new; simpl; naive_solver.
Qed.

Lemma Visit_keeps_error_flag_witness :
  Visit Sample.dotted (NVarDeclStmnt Sample.untyped) Sample.start
    = Some (Error "missing variable type" (Some (Sample.at_ 41)) Sample.start)
  ∧ hasErrors_
      (Error "missing variable type" (Some (Sample.at_ 41)) Sample.start)
    = true.
Proof.
  assert (Visit Sample.dotted (NVarDeclStmnt Sample.untyped) Sample.start
          = Some (Error "missing variable type" (Some (Sample.at_ 41))
                    Sample.start)) as H by (vm_compute; reflexivity).
  split; [exact H|].
  destruct (Visit_keeps_error_flag _ _ _ _ H) as (_ & new & Hr & He).
  apply He. right. intros ->. discriminate Hr.
Defined.

(** ** What stays *)

Lemma refs_rel_invariant : WalkInvariant refs_rel.
Proof.
  split; unfold refs_rel; try done.
  - intros s1 s2 s3 H1 H2 a Ha. by apply H2, H1.
  - intros a p s b Hb. unfold symbolRef_at in *. simpl.
    destruct (decide (a = b)) as [->|Hne].
    + rewrite lookup_insert_eq. by eexists.
    + by rewrite lookup_insert_ne.
Qed.

(** X3: [DecorateAST] clears nothing in the tree: every flag a program,
    function, structure or declaration statement had before the call it has
    after it, and a symbol reference that was set is still set. *)
Theorem DecorateAST_clears_nothing FullVarIdent p entryPoint target version
    s b s' :
  DecorateAST FullVarIdent (Some p) entryPoint target version s
    = Some (b, s') →
  (∀ a f,
     (f ∈ flags_at (programFlags (tree s)) a →
      f ∈ flags_at (programFlags (tree s')) a) ∧
     (f ∈ flags_at (functionFlags (tree s)) a →
      f ∈ flags_at (functionFlags (tree s')) a) ∧
     (f ∈ flags_at (structureFlags (tree s)) a →
      f ∈ flags_at (structureFlags (tree s')) a) ∧
     (f ∈ flags_at (stmntFlags (tree s)) a →
      f ∈ flags_at (stmntFlags (tree s')) a)) ∧
  (∀ a, is_Some (symbolRef_at (tree s) a) →
        is_Some (symbolRef_at (tree s') a)).
Proof.
  intros H.
  pose proof (DecorateAST_respects _ _ _ _ _ _ _ _ _ flags_rel_invariant H)
    as Hf.
  pose proof (DecorateAST_respects _ _ _ _ _ _ _ _ _ refs_rel_invariant H)
    as Hr.
  split; [|exact Hr]. intros a f. destruct (Hf a) as (H1 & H2 & H3 & H4).
  simpl in *. repeat split; intros Hin; set_solver.
Qed.

Lemma DecorateAST_clears_nothing_witness :
  DecorateAST Sample.dotted (Some Sample.two_params) "main" 0 0
    Sample.in_entry_body
    = Some (true,
            match DecorateAST Sample.dotted (Some Sample.two_params) "main"
                    0 0 Sample.in_entry_body with
            | Some (_, s) => s
            | None => Sample.start
            end) ∧
  Structure_isShaderOutput
    ∈ flags_at
        (structureFlags
           (tree
              match DecorateAST Sample.dotted (Some Sample.two_params) "main"
                      0 0 Sample.in_entry_body with
              | Some (_, s) => s
              | None => Sample.start
              end)) 10.
Proof.
  assert (DecorateAST Sample.dotted (Some Sample.two_params) "main" 0 0
            Sample.in_entry_body
          = Some (true,
                  match DecorateAST Sample.dotted (Some Sample.two_params)
                          "main" 0 0 Sample.in_entry_body with
                  | Some (_, s) => s
                  | None => Sample.start
                  end)) as H by (vm_compute; reflexivity).
  split; [exact H|].
  destruct (DecorateAST_clears_nothing _ _ _ _ _ _ _ _ H) as [Hf _].
  destruct (Hf 10 Structure_isShaderOutput) as (_ & _ & Hs & _).
  apply Hs. apply (bool_decide_unpack _). by vm_compute.
Defined.

(** X4: when [DecorateAST] returns from a call with a program, the analyzer
    holds the arguments of the call: the entry point name, the target, the
    version and the program; no visit changes them.  A call with a null
    program returns [false] and leaves the analyzer as it was: the
    arguments are not stored. *)
Theorem DecorateAST_stores_parameters FullVarIdent entryPoint target version
    s :
  (∀ p b s',
     DecorateAST FullVarIdent (Some p) entryPoint target version s
       = Some (b, s') →
     entryPoint_ s' = entryPoint ∧ shaderTarget_ s' = target ∧
     shaderVersion_ s' = version ∧ program_ s' = address (prog_base p)) ∧
  DecorateAST FullVarIdent None entryPoint target version s
    = Some (false, s).
Proof.
  split; [|done]. intros p b s' H.
  pose proof (DecorateAST_respects _ _ _ _ _ _ _ _ _ config_rel_invariant H)
    as (H1 & H2 & H3 & H4).
  done.
Qed.

Lemma DecorateAST_stores_parameters_witness :
  DecorateAST Sample.dotted (Some Sample.two_params) "main" 3 5 Sample.start
    = Some (true,
            match DecorateAST Sample.dotted (Some Sample.two_params) "main"
                    3 5 Sample.start with
            | Some (_, s) => s
            | None => Sample.start
            end) ∧
  entryPoint_
    match DecorateAST Sample.dotted (Some Sample.two_params) "main"
            3 5 Sample.start with
    | Some (_, s) => s
    | None => Sample.start
    end = "main" ∧
  DecorateAST Sample.dotted None "main" 3 5 Sample.start
    = Some (false, Sample.start) ∧
  entryPoint_ Sample.start = "".
Proof.
  assert (DecorateAST Sample.dotted (Some Sample.two_params) "main" 3 5
            Sample.start
          = Some (true,
                  match DecorateAST Sample.dotted (Some Sample.two_params)
                          "main" 3 5 Sample.start with
                  | Some (_, s) => s
                  | None => Sample.start
                  end)) as H by (vm_compute; reflexivity).
  destruct (DecorateAST_stores_parameters Sample.dotted "main" 3 5
              Sample.start) as [Hp Hnull].
  split; [exact H|]. split; [exact (proj1 (Hp _ _ _ H))|].
  split; [exact Hnull|reflexivity].
Defined.

(** X5: [DecorateAST] closes every scope it opens: when it returns, the
    enclosing scopes of the symbol table are the ones from before the call,
    entry for entry, and the table is as deep as it was. *)
Theorem DecorateAST_balances_scopes FullVarIdent p entryPoint target version
    s b s' :
  DecorateAST FullVarIdent (Some p) entryPoint target version s
    = Some (b, s') →
  outer (symTable_ s') = outer (symTable_ s) ∧
  length (inner (symTable_ s') :: outer (symTable_ s'))
    = length (inner (symTable_ s) :: outer (symTable_ s)) ∧
  (∀ ident,
     inner (symTable_ s') !! ident = None →
     Fetch ident s' = SymTab.lookup_frames ident (outer (symTable_ s))).
Proof.
  intros H.
  pose proof (DecorateAST_respects _ _ _ _ _ _ _ _ _ scope_rel_invariant H)
    as Ho.
  unfold scope_rel in Ho. simpl in Ho. split; [done|]. split.
  - simpl. by rewrite Ho.
  - intros ident Hi. unfold Fetch, SymTab.Fetch. simpl. by rewrite Hi, Ho.
Qed.

Lemma DecorateAST_balances_scopes_witness :
  DecorateAST Sample.dotted (Some Sample.two_params) "main" 0 0
    Sample.in_entry_body
    = Some (true,
            match DecorateAST Sample.dotted (Some Sample.two_params) "main"
                    0 0 Sample.in_entry_body with
            | Some (_, s) => s
            | None => Sample.start
            end) ∧
  outer
    (symTable_
       match DecorateAST Sample.dotted (Some Sample.two_params) "main"
               0 0 Sample.in_entry_body with
       | Some (_, s) => s
       | None => Sample.start
       end)
  = outer (symTable_ Sample.in_entry_body).
Proof.
  assert (DecorateAST Sample.dotted (Some Sample.two_params) "main" 0 0
            Sample.in_entry_body
          = Some (true,
                  match DecorateAST Sample.dotted (Some Sample.two_params)
                          "main" 0 0 Sample.in_entry_body with
                  | Some (_, s) => s
                  | None => Sample.start
                  end)) as H by (vm_compute; reflexivity).
  split; [exact H|].
  exact (proj1 (DecorateAST_balances_scopes _ _ _ _ _ _ _ _ H)).
Defined.

(** ** What is left alone *)

(** X6: [DecorateAST] writes program flags on the program it is given only,
    symbol references on the types it walks only, and function flags on the
    walked functions that have the name of the entry point only. *)
Theorem DecorateAST_writes_only FullVarIdent p entryPoint target version
    s b s' :
  DecorateAST FullVarIdent (Some p) entryPoint target version s
    = Some (b, s') →
  (∀ a, a ≠ address (prog_base p) →
        flags_at (programFlags (tree s')) a
          = flags_at (programFlags (tree s)) a) ∧
  (∀ a, a ∉ fp_types (walked_Program FullVarIdent p) →
        symbolRef_at (tree s') a = symbolRef_at (tree s) a) ∧
  (∀ a, (∀ f, f ∈ fp_funcs (walked_Program FullVarIdent p) →
              fd_name f = entryPoint → address (fd_base f) ≠ a) →
        flags_at (functionFlags (tree s')) a
          = flags_at (functionFlags (tree s)) a).
Proof.
  intros H.
  destruct (DecorateAST_walk _ _ _ _ _ _ _ _ H)
    as (s0 & Ht & Hp & _ & [(_ & _ & Hpf & Hff & Hr) _]).
  rewrite <- Ht. split; [|split].
  - intros a Ha. rewrite Hpf, Hp.
    rewrite bool_decide_eq_false_2 by done. set_solver.
  - done.
  - intros a Ha. rewrite Hff. unfold entry_flags.
    rewrite bool_decide_eq_false_2; [set_solver|].
    intros Hin. unfold entry_addrs in Hin.
    apply list_elem_of_fmap in Hin as (g & Hg1 & Hg2).
    apply list_elem_of_filter in Hg2 as [Hgn Hg]. by apply (Ha g).
Qed.

Lemma DecorateAST_writes_only_witness :
  DecorateAST Sample.dotted (Some Sample.with_calls) "main" 0 0 Sample.start
    = Some (true, Sample.end_of Sample.with_calls) ∧
  flags_at (programFlags (tree (Sample.end_of Sample.with_calls))) 2
    = flags_at (programFlags (tree Sample.start)) 2.
Proof.
  assert (DecorateAST Sample.dotted (Some Sample.with_calls) "main" 0 0
            Sample.start = Some (true, Sample.end_of Sample.with_calls)) as H
    by (vm_compute; reflexivity).
  split; [exact H|].
  destruct (DecorateAST_writes_only _ _ _ _ _ _ _ _ H) as (Hp & _ & _).
  apply Hp. done.
Defined.

(** ** A program without the entry point *)

Lemma unmarked_still s s' :
  isInsideEntryPoint_ s = false → still s s' → unmarked s s'.
Proof. intros Hi (?&Hi'&?&?&?&?). rewrite Hi in Hi'. by repeat split. Qed.

Lemma unmarked_trans s1 s2 s3 :
  unmarked s1 s2 → unmarked s2 s3 → unmarked s1 s3.
Proof.
  intros (?&?&?&?&?&?) (?&?&?&?&?&?). repeat split; congruence.
Qed.

Lemma still_unmarked s1 s2 s3 : still s1 s2 → unmarked s2 s3 → unmarked s1 s3.
Proof.
  intros (?&?&?&?&?&?) (?&?&?&?&?&?). repeat split; congruence.
Qed.

Lemma unmarked_then_still s1 s2 s3 :
  unmarked s1 s2 → still s2 s3 → unmarked s1 s3.
Proof.
  intros (?&?&?&?&?&?) (?&?&?&?&?&?). repeat split; congruence.
Qed.

Lemma still_Register ident ty ast proc s : still s (Register ident ty ast proc s).
Proof.
  unfold Register. by destruct (SymTab.Register _ _ _ _).
Qed.

Lemma still_register_Structure base name s :
  still s (register_Structure base name s).
Proof.
  unfold register_Structure. case_bool_decide; [apply still_Register|done].
Qed.

Lemma still_check_intrinsic name s : still s (check_intrinsic name s).
Proof. unfold check_intrinsic. by destruct (intrinsic_flag name). Qed.

Section Calm.

Variable E : string.

Lemma calm_Some : calm E fp_empty Some.
Proof.
  intros _ s _ Hi. exists s. split; [done|]. by apply unmarked_still.
Qed.

Lemma calm_then F G w k : calm E F w → calm E G k → calm E (F ⋅ G) (w >=> k).
Proof.
  intros Hw Hk [HF HG]%Forall_app s HE Hi. unfold then_.
  destruct (Hw HF s HE Hi) as (s1 & -> & H1).
  destruct (Hk HG s1) as (s2 & -> & H2).
  - destruct H1 as (-> & _). done.
  - by destruct H1 as (_ & ? & _).
  - exists s2. split; [done|]. by eapply unmarked_trans.
Qed.

Lemma calm_before F (f : State → State) w :
  (∀ s, still s (f s)) → calm E F w → calm E F (λ s, w (f s)).
Proof.
  intros Hf Hw HF s HE Hi. destruct (Hf s) as (He & Hi' & _).
  destruct (Hw HF (f s)) as (s1 & -> & H1); [congruence..|].
  exists s1. split; [done|]. by eapply still_unmarked.
Qed.

Lemma calm_finally F w (f : State → State) :
  calm E F w → (∀ s, still s (f s)) → calm E F (w >=> λ s, Some (f s)).
Proof.
  intros Hw Hf HF s HE Hi. unfold then_.
  destruct (Hw HF s HE Hi) as (s1 & -> & H1). exists (f s1).
  split; [done|]. by eapply unmarked_then_still.
Qed.

Lemma calm_visit_each {A} (fp : A → Footprint) (visit : A → Walk) xs :
  Forall (λ x, calm E (fp x) (visit x)) xs →
  calm E (fp_all fp xs) (visit_each visit xs).
Proof.
  induction 1 as [|x xs Hx _ IH]; [apply calm_Some|].
  exact (calm_then _ _ _ _ Hx IH).
Qed.

Lemma calm_visit_ptr {A} (fp : A → Footprint) (visit : A → Walk) p :
  from_option (λ x, calm E (fp x) (visit x)) True p →
  calm E (fp_opt fp p) (visit_ptr visit p).
Proof. destruct p; [done|]. intros _. apply calm_Some. Qed.

Variable FullVarIdent : VarIdent → string.

(** Every visit function is calm. *)
Lemma calm_all :
  (∀ n, calm E (walked FullVarIdent n) (Visit FullVarIdent n)) ∧
  (∀ cb, calm E (walked_CodeBlock FullVarIdent cb)
           (VisitCodeBlock FullVarIdent cb)) ∧
  (∀ st, calm E (walked_Structure FullVarIdent st)
           (VisitStructure FullVarIdent st)) ∧
  (∀ fd, calm E (walked_FunctionDecl FullVarIdent fd)
           (VisitFunctionDecl FullVarIdent fd)) ∧
  (∀ vds, calm E (walked_VarDeclStmnt FullVarIdent vds)
            (VisitVarDeclStmnt FullVarIdent vds)) ∧
  (∀ vt, calm E (walked_VarType FullVarIdent vt)
           (VisitVarType FullVarIdent vt)) ∧
  (∀ vd, calm E (walked_VarDecl FullVarIdent vd)
           (VisitVarDecl FullVarIdent vd)) ∧
  (∀ vi, calm E (walked_VarIdent FullVarIdent vi)
           (VisitVarIdent FullVarIdent vi)).
Proof.
  apply tree_mutind; try done; try apply calm_Some.
  - intros name args IH. simpl.
    apply (calm_before _ (check_intrinsic _) (visit_each _ args));
      [apply still_check_intrinsic|by apply calm_visit_each].
  - intros base bt ms IH. simpl.
    apply (calm_before _
             (λ s, if bool_decide (bt ≠ "cbuffer") then _ else s)
             (visit_each _ ms)); [|by apply calm_visit_each].
    intros s. by case_bool_decide.
  - intros o IH. simpl. by apply calm_visit_ptr.
  - intros tag vs IH. simpl. by apply calm_visit_each.
  - intros stmnts IH.
    apply (calm_before _ OpenScope
             (visit_each (Visit FullVarIdent) stmnts
                >=> λ s', Some (CloseScope s'))); [done|].
    apply calm_finally; [by apply calm_visit_each|done].
  - intros base name ms IH.
    apply (calm_before _ (register_Structure base name)
             (visit_each (Visit FullVarIdent) ms));
      [apply still_register_Structure|by apply calm_visit_each].
  - intros base name attribs rt ps cb IHa IHr IHp IHc HF s HE Hi.
    rewrite VisitFunctionDecl_eq. simpl in HF.
    apply Forall_app in HF as [[Ha [[Hr Hp]%Forall_app Hf]%Forall_app]
                                 %Forall_app Hc].
    apply Forall_cons_1 in Hf as [Hname _]. simpl in Hname.
    unfold then_ at 1 2 3.
    pose proof (still_Register name T_FunctionDecl base
                  (λ symbol, bool_decide (ptr_type symbol = T_FunctionDecl))
                  s) as H0.
    fold (register_FunctionDecl base name s) in H0.
    set (s0 := register_FunctionDecl base name s) in *.
    destruct H0 as (He0 & Hi0 & H0).
    destruct (calm_visit_each _ _ _ IHa Ha s0) as (sa & -> & Ua);
      [congruence..|].
    destruct Ua as (Hea & Hia & Ua).
    destruct (IHr Hr sa) as (sb & -> & Ub); [congruence..|].
    destruct Ub as (Heb & Hib & Ub).
    destruct (calm_visit_each _ _ _ IHp Hp sb) as (sc & -> & Uc);
      [congruence..|].
    destruct Uc as (Hec & Hic & Uc).
    assert (entryPoint_ sc = E) as HEc by congruence.
    rewrite HEc, (bool_decide_eq_false_2 _ Hname).
    unfold then_.
    destruct (calm_visit_ptr _ _ _ IHc Hc
                (set_isInsideEntryPoint false sc) HEc eq_refl)
      as (s' & -> & (He' & Hi' & U')).
    exists (set_isInsideEntryPoint false s'). split; [done|].
    unfold unmarked, set_isInsideEntryPoint, still in *. cbn in *.
    destruct H0 as (?&?&?&?), Ua as (?&?&?&?), Ub as (?&?&?&?),
      Uc as (?&?&?&?), U' as (?&?&?&?).
    repeat split; congruence.
  - intros base vt vds IHt IHd HF s HE Hi. rewrite VisitVarDeclStmnt_eq.
    simpl in HF. apply Forall_app in HF as [Ht Hv].
    unfold then_. destruct (IHt Ht s HE Hi) as (s1 & -> & U1).
    destruct (calm_visit_each _ _ _ IHd Hv s1) as (s2 & -> & U2).
    + by destruct U1 as (-> & _).
    + by destruct U1 as (_ & ? & _).
    + exists s2. split; [|by eapply unmarked_trans].
      unfold decorate_variable_type.
      by destruct U2 as (_ & -> & _).
  - intros base bt st IH HF s HE Hi. rewrite VisitVarType_eq. simpl in HF.
    case_bool_decide.
    + destruct (Fetch bt s); eexists; (split; [done|]);
        by apply unmarked_still.
    + destruct st as [st|]; [by apply IH|].
      eexists. split; [done|]. by apply unmarked_still.
  - intros name ds ss i IHd IHs IHi. rewrite VisitVarDecl_eq. simpl.
    intros [[Hd Hs]%Forall_app Hi]%Forall_app.
    apply (calm_then (fp_all (walked FullVarIdent) ds)
             (fp_all (walked FullVarIdent) ss
                ⋅ fp_opt (walked FullVarIdent) i));
      [by apply calm_visit_each| |by repeat (apply Forall_app; split)].
    apply calm_then; [by apply calm_visit_each|by apply calm_visit_ptr].
  - intros ident idx nx IHi IHn. rewrite VisitVarIdent_eq. simpl.
    apply calm_then; [by apply calm_visit_each|].
    by apply calm_visit_ptr.
Qed.

End Calm.

(** X7: when no walked function declaration has the name of the entry
    point, [DecorateAST] (started, as it is left by every earlier call,
    outside the entry point) returns, and marks nothing: no function gets
    [isEntryPoint] or [isUsed], no structure or statement gets a shader
    input or output flag, no alias name is written.  That no function has
    the name of the entry point is not reported: every report of the call
    is a duplicate symbol, an unsupported buffer type or a missing variable
    type, and the call returns [true] exactly if there is none of these. *)
Theorem DecorateAST_without_entry_point FullVarIdent p entryPoint target
    version s :
  isInsideEntryPoint_ s = false →
  Forall (λ f, fd_name f ≠ entryPoint)
    (fp_funcs (walked_Program FullVarIdent p)) →
  ∃ b s' new,
    DecorateAST FullVarIdent (Some p) entryPoint target version s
      = Some (b, s') ∧
    functionFlags (tree s') = functionFlags (tree s) ∧
    structureFlags (tree s') = structureFlags (tree s) ∧
    stmntFlags (tree s') = stmntFlags (tree s) ∧
    aliasNames (tree s') = aliasNames (tree s) ∧
    isInsideEntryPoint_ s' = false ∧
    reported s' = new ++ reported s ∧
    Forall known_report new ∧
    (b = true ↔ new = []).
Proof.
  intros Hi HF.
  assert (calm entryPoint (walked_Program FullVarIdent p)
            (VisitProgram FullVarIdent p)) as Hc.
  { apply calm_visit_each, Forall_forall. intros n _. apply calm_all. }
  destruct (DecorateAST FullVarIdent (Some p) entryPoint target version s)
    as [[b s']|] eqn:H.
  - pose proof (DecorateAST_respects _ _ _ _ _ _ _ _ _ log_rel_invariant H)
      as (entries & Hk & Hr & _).
    pose proof (DecorateAST_respects _ _ _ _ _ _ _ _ _ diag_rel_invariant H)
      as (new & Hn & He).
    simpl in Hr, Hn, He.
    assert (new = fst <$> entries) as ->.
    { rewrite Hr in Hn. by apply app_inv_tail in Hn. }
    exists b, s', (fst <$> entries).
    unfold DecorateAST in H.
    match type of H with context [VisitProgram _ _ ?s0] =>
      destruct (Hc HF s0 eq_refl Hi) as (s1 & Hv & (_ & ? & ? & ? & ? & ?))
    end.
    rewrite Hv in H. injection H as <- <-.
    split; [done|]. repeat (split; [done|]).
    split; [by apply Forall_fmap|].
    rewrite He. by destruct entries.
  - exfalso. unfold DecorateAST in H.
    match type of H with context [VisitProgram _ _ ?s0] =>
      destruct (Hc HF s0 eq_refl Hi) as (s1 & Hv & _)
    end.
    by rewrite Hv in H.
Qed.

Lemma DecorateAST_without_entry_point_witness :
  isInsideEntryPoint_ Sample.start = false ∧
  Forall (λ f, fd_name f ≠ "main")
    (fp_funcs (walked_Program Sample.dotted Sample.helper_two_params)) ∧
  ∃ b s' new,
    DecorateAST Sample.dotted (Some Sample.helper_two_params) "main" 0 0
      Sample.start = Some (b, s') ∧
    functionFlags (tree s') = functionFlags (tree Sample.start) ∧
    structureFlags (tree s') = structureFlags (tree Sample.start) ∧
    stmntFlags (tree s') = stmntFlags (tree Sample.start) ∧
    aliasNames (tree s') = aliasNames (tree Sample.start) ∧
    isInsideEntryPoint_ s' = false ∧
    reported s' = new ++ reported Sample.start ∧
    Forall known_report new ∧
    (b = true ↔ new = []).
Proof.
  assert (Forall (λ f, fd_name f ≠ "main")
            (fp_funcs (walked_Program Sample.dotted
                         Sample.helper_two_params))) as HF
    by (apply (bool_decide_unpack _); by vm_compute).
  split; [reflexivity|]. split; [exact HF|].
  apply (DecorateAST_without_entry_point Sample.dotted
           Sample.helper_two_params "main" 0 0 Sample.start eq_refl HF).
Defined.

(** ** Function names *)



(** ** Decorating twice *)

Lemma flag_stored_add a f m : flag_stored (add_flag a f m) a f.
Proof.
  eexists. unfold add_flag. rewrite lookup_insert_eq. split; [done|].
  set_solver.
Qed.

Lemma flag_stored_mono a f b g m :
  flag_stored m a f → flag_stored (add_flag b g m) a f.
Proof.
  intros (fl & Hl & Hf). unfold add_flag.
  destruct (decide (b = a)) as [->|Hne].
  - eexists. rewrite lookup_insert_eq. split; [done|].
    unfold flags_at. rewrite Hl. set_solver.
  - exists fl. by rewrite lookup_insert_ne.
Qed.

Lemma add_flag_stored a f m : flag_stored m a f → add_flag a f m = m.
Proof.
  intros (fl & Hl & Hf). unfold add_flag, flags_at. rewrite Hl. simpl.
  apply insert_id. rewrite Hl. f_equal. set_solver.
Qed.

Lemma add_structureFlag_stored a f s :
  flag_stored (structureFlags (tree s)) a f → add_structureFlag a f s = s.
Proof.
  intros H. unfold add_structureFlag, upd_structureFlags.
  rewrite (add_flag_stored _ _ _ H). by destruct s as [? ? ? ? ? ? ? ? ? []].
Qed.

Lemma add_stmntFlag_stored a f s :
  flag_stored (stmntFlags (tree s)) a f → add_stmntFlag a f s = s.
Proof.
  intros H. unfold add_stmntFlag, upd_stmntFlags.
  rewrite (add_flag_stored _ _ _ H). by destruct s as [? ? ? ? ? ? ? ? ? []].
Qed.

Lemma assign_aliasName_stored a n s :
  aliasNames (tree s) !! a = Some n → assign_aliasName a n s = s.
Proof.
  intros H. unfold assign_aliasName, set_aliasName.
  rewrite (insert_id _ _ _ H). by destruct s as [? ? ? ? ? ? ? ? ? []].
Qed.

Lemma DecorateEntryInOut_VarType_idempotent ast isInput s :
  DecorateEntryInOut_VarType ast isInput
    (DecorateEntryInOut_VarType ast isInput s)
  = DecorateEntryInOut_VarType ast isInput s.
Proof.
  unfold DecorateEntryInOut_VarType.
  set (fl := if isInput then _ else _).
  set (a := address (vt_base ast)).
  destruct (vt_structType ast) as [st|].
  - change (symbolRef_at (tree (add_structureFlag (address (s_base st)) fl s))
              a) with (symbolRef_at (tree s) a).
    destruct (symbolRef_at (tree s) a) as [p|] eqn:Hp.
    + case_bool_decide.
      * change (symbolRef_at (tree (add_structureFlag (address (s_base st)) fl
                  (add_structureFlag (ptr_addr p) fl
                     (add_structureFlag (address (s_base st)) fl s)))) a)
          with (symbolRef_at (tree s) a).
        rewrite Hp, bool_decide_eq_true_2 by done.
        rewrite (add_structureFlag_stored (address (s_base st)))
          by apply flag_stored_mono, flag_stored_add.
        apply add_structureFlag_stored, flag_stored_add.
      * change (symbolRef_at (tree (add_structureFlag (address (s_base st)) fl
                  (add_structureFlag (address (s_base st)) fl s))) a)
          with (symbolRef_at (tree s) a).
        rewrite Hp, bool_decide_eq_false_2 by done.
        apply add_structureFlag_stored, flag_stored_add.
    + change (symbolRef_at (tree (add_structureFlag (address (s_base st)) fl
                (add_structureFlag (address (s_base st)) fl s))) a)
        with (symbolRef_at (tree s) a).
      rewrite Hp. apply add_structureFlag_stored, flag_stored_add.
  - destruct (symbolRef_at (tree s) a) as [p|] eqn:Hp.
    + case_bool_decide.
      * change (symbolRef_at (tree (add_structureFlag (ptr_addr p) fl s)) a)
          with (symbolRef_at (tree s) a).
        rewrite Hp, bool_decide_eq_true_2 by done.
        apply add_structureFlag_stored, flag_stored_add.
      * by rewrite Hp, bool_decide_eq_false_2.
    + by rewrite Hp.
Qed.

Lemma DecorateEntryInOut_VarDeclStmnt_stored ast isInput s :
  let r := DecorateEntryInOut_VarDeclStmnt ast isInput s in
  let fl :=
    if isInput then Structure_isShaderInput else Structure_isShaderOutput in
  flag_stored (stmntFlags (tree r)) (address (vds_base ast))
    (if isInput then VarDeclStmnt_isShaderInput
     else VarDeclStmnt_isShaderOutput) ∧
  (∀ st, vt_structType (vds_varType ast) = Some st →
         flag_stored (structureFlags (tree r)) (address (s_base st)) fl) ∧
  (∀ p, symbolRef_at (tree s) (address (vt_base (vds_varType ast))) = Some p →
        ptr_type p = T_Structure →
        flag_stored (structureFlags (tree r)) (ptr_addr p) fl ∧
        ∀ d ds, vds_varDecls ast = d :: ds →
                aliasNames (tree r) !! ptr_addr p = Some (vd_name d)).
Proof.
  cbv zeta. unfold DecorateEntryInOut_VarDeclStmnt.
  set (fl := if isInput then Structure_isShaderInput else _).
  set (sf := if isInput then VarDeclStmnt_isShaderInput else _).
  set (a := address (vt_base (vds_varType ast))).
  set (s1 := add_stmntFlag _ sf s).
  set (s2 := match vt_structType _ with Some _ => _ | None => _ end).
  assert (flag_stored (stmntFlags (tree s2)) (address (vds_base ast)) sf)
    as H1.
  { subst s2. destruct (vt_structType _); exact (flag_stored_add _ _ _). }
  assert (∀ st, vt_structType (vds_varType ast) = Some st →
            flag_stored (structureFlags (tree s2)) (address (s_base st)) fl)
    as H2.
  { intros st Hst. subst s2. rewrite Hst. exact (flag_stored_add _ _ _). }
  assert (symbolRef_at (tree s2) a = symbolRef_at (tree s) a) as Hr.
  { subst s2. by destruct (vt_structType _). }
  rewrite Hr. destruct (symbolRef_at (tree s) a) as [p|] eqn:Hp.
  - case_bool_decide as Ht.
    + destruct (vds_varDecls ast) as [|d ds] eqn:Hd.
      * split; [exact H1|]. split.
        -- intros st Hst. exact (flag_stored_mono _ _ _ _ _ (H2 st Hst)).
        -- intros p' [= <-] _. split; [exact (flag_stored_add _ _ _)|done].
      * split; [exact H1|]. split.
        -- intros st Hst. exact (flag_stored_mono _ _ _ _ _ (H2 st Hst)).
        -- intros p' [= <-] _. split; [exact (flag_stored_add _ _ _)|].
           intros d' ds' [= <- <-]. simpl. apply lookup_insert_eq.
    + split; [exact H1|]. split; [exact H2|]. intros p' [= <-] Ht'. done.
  - split; [exact H1|]. split; [exact H2|]. done.
Qed.

(** X9: decorating a type or a declaration statement as entry input or
    output a second time changes nothing: the flags are there and the alias
    name is the one that was written. *)
Theorem DecorateEntryInOut_idempotent vt ast isInput s :
  DecorateEntryInOut_VarType vt isInput
    (DecorateEntryInOut_VarType vt isInput s)
  = DecorateEntryInOut_VarType vt isInput s ∧
  DecorateEntryInOut_VarDeclStmnt ast isInput
    (DecorateEntryInOut_VarDeclStmnt ast isInput s)
  = DecorateEntryInOut_VarDeclStmnt ast isInput s.
Proof.
  split; [apply DecorateEntryInOut_VarType_idempotent|].
  destruct (DecorateEntryInOut_VarDeclStmnt_stored ast isInput s)
    as (H1 & H2 & H3).
  destruct (quiet_DecorateEntryInOut_VarDeclStmnt ast isInput s)
    as (_ & _ & _ & _ & Hr).
  set (r := DecorateEntryInOut_VarDeclStmnt ast isInput s) in *.
  unfold DecorateEntryInOut_VarDeclStmnt at 1.
  rewrite (add_stmntFlag_stored _ _ _ H1).
  set (fl := if isInput then Structure_isShaderInput else _) in *.
  assert (match vt_structType (vds_varType ast) with
          | Some st => add_structureFlag (address (s_base st)) fl r
          | None => r
          end = r) as ->.
  { destruct (vt_structType _) as [st|]; [|done].
    by apply add_structureFlag_stored, H2. }
  unfold symbolRef_at at 1. rewrite Hr.
  fold (symbolRef_at (tree s) (address (vt_base (vds_varType ast)))).
  destruct (symbolRef_at (tree s) _) as [p|] eqn:Hp; [|done].
  case_bool_decide as Ht; [|done].
  destruct (H3 p eq_refl Ht) as [Hf Ha].
  rewrite (add_structureFlag_stored _ _ _ Hf).
  destruct (vds_varDecls ast) as [|d ds]; [done|].
  by apply assign_aliasName_stored, (Ha d ds).
Qed.

(** X10: [DecorateEntryInOut] writes flags of structures and of the
    statement only: the overload for a bare type never writes an alias name,
    the overload for a statement without declarators does not either, and
    neither touches the flags of programs or functions, a symbol reference,
    the symbol table or the diagnostics. *)
Theorem DecorateEntryInOut_writes_only vt ast isInput s :
  let t := DecorateEntryInOut_VarType vt isInput s in
  let d := DecorateEntryInOut_VarDeclStmnt ast isInput s in
  aliasNames (tree t) = aliasNames (tree s) ∧
  stmntFlags (tree t) = stmntFlags (tree s) ∧
  (vds_varDecls ast = [] → aliasNames (tree d) = aliasNames (tree s)) ∧
  (∀ a, a ≠ address (vds_base ast) →
        flags_at (stmntFlags (tree d)) a = flags_at (stmntFlags (tree s)) a) ∧
  (∀ r, r = t ∨ r = d →
     programFlags (tree r) = programFlags (tree s) ∧
     functionFlags (tree r) = functionFlags (tree s) ∧
     symbolRefs (tree r) = symbolRefs (tree s) ∧
     symTable_ r = symTable_ s ∧ reported r = reported s ∧
     hasErrors_ r = hasErrors_ s ∧ log_ r = log_ s).
Proof.
  cbv zeta. split; [|split; [|split; [|split]]].
  - unfold DecorateEntryInOut_VarType. by repeat case_match.
  - unfold DecorateEntryInOut_VarType. by repeat case_match.
  - intros Hd. unfold DecorateEntryInOut_VarDeclStmnt. rewrite Hd.
    by repeat case_match.
  - intros a Ha. unfold DecorateEntryInOut_VarDeclStmnt.
    repeat case_match; simpl; rewrite flags_at_add_flag;
      by rewrite bool_decide_eq_false_2.
  - intros r [->| ->].
    + unfold DecorateEntryInOut_VarType. by repeat case_match.
    + unfold DecorateEntryInOut_VarDeclStmnt. by repeat case_match.
Qed.

Lemma DecorateEntryInOut_writes_only_witness :
  vds_varDecls Sample.bare_stmnt = [] ∧
  aliasNames
    (tree (DecorateEntryInOut_VarDeclStmnt Sample.bare_stmnt true
             Sample.in_entry_body))
  = aliasNames (tree Sample.in_entry_body) ∧
  flags_at
    (stmntFlags
       (tree (DecorateEntryInOut_VarDeclStmnt Sample.bare_stmnt true
                Sample.in_entry_body))) 7
  = flags_at (stmntFlags (tree Sample.in_entry_body)) 7.
Proof.
  destruct (DecorateEntryInOut_writes_only (Sample.type_S 31)
              Sample.bare_stmnt true Sample.in_entry_body)
    as (_ & _ & Ha & Hs & _).
  split; [reflexivity|]. split; [exact (Ha eq_refl)|].
  apply Hs. simpl. lia.
Defined.

(** ** From a declaration to its use *)

(** X11: from the declaration of a structure to the types that name it.
    [VisitStructure] registers a named structure; afterwards [Fetch] gives
    that structure for the name if the name was free in the innermost
    scope, and still gives the earlier entry, after one duplicate report,
    if the name was held there by anything but a [StructDecl].  In every
    later state in which [Fetch] finds a symbol for the name, and so also in
    a scope opened inside it, [VisitVarType] makes that symbol the symbol
    reference of a type with that name, without a report, and decorating
    the type as entry output then flags the symbol when it is a structure.
    A type visited while no scope holds its name is left as it is, without
    a report. *)
Theorem declared_structure_resolves FullVarIdent base name vtbase s :
  name ≠ "" →
  let declared := register_Structure base name s in
  let vt := mkVarType vtbase name None in
  let resolved symbol s0 := assign_symbolRef (address vtbase) symbol s0 in
  (inner (symTable_ s) !! name = None →
   Fetch name declared = Some (ptr_of T_Structure base) ∧
   reported declared = reported s) ∧
  (∀ existing,
     inner (symTable_ s) !! name = Some existing →
     ptr_type existing ≠ T_StructDecl →
     Fetch name declared = Some existing ∧
     reported declared = SymTab.duplicate name :: reported s) ∧
  (∀ later symbol,
     Fetch name later = Some symbol →
     Fetch name (OpenScope later) = Some symbol ∧
     VisitVarType FullVarIdent vt later = Some (resolved symbol later) ∧
     reported (resolved symbol later) = reported later ∧
     symbolRef_at (tree (resolved symbol later)) (address vtbase)
       = Some symbol ∧
     (ptr_type symbol = T_Structure →
      Structure_isShaderOutput
        ∈ flags_at
            (structureFlags
               (tree (DecorateEntryInOut_VarType vt false
                        (resolved symbol later))))
            (ptr_addr symbol))) ∧
  (∀ later, Fetch name later = None →
            VisitVarType FullVarIdent vt later = Some later).
Proof.
  intros Hname declared vt resolved.
  split; [|split; [|split]].
  - intros Hfree.
    assert (declared =
            set_symTable
              (mkSymbolTable
                 (<[name := ptr_of T_Structure base]> (inner (symTable_ s)))
                 (outer (symTable_ s))) s) as Hd.
    { subst declared. rewrite (register_Structure_named _ _ _ Hname).
      apply Register_success. intros ?. by rewrite Hfree. }
    rewrite Hd. split; [|done]. unfold Fetch, SymTab.Fetch. simpl.
    by rewrite lookup_insert_eq.
  - intros existing He Ht. subst declared.
    rewrite (register_Structure_named _ _ _ Hname).
    rewrite (Register_failure _ _ _ _ _ existing He)
      by (by apply bool_decide_eq_false_2).
    split; [|done]. unfold Fetch, SymTab.Fetch. simpl. by rewrite He.
  - intros later symbol Hf. subst vt.
    rewrite VisitVarType_eq, bool_decide_eq_true_2, Fetch_OpenScope, Hf
      by done.
    split; [done|]. split; [done|]. split; [done|].
    assert (symbolRef_at (tree (resolved symbol later)) (address vtbase)
            = Some symbol) as Hs.
    { unfold resolved, symbolRef_at. simpl. apply lookup_insert_eq. }
    split; [exact Hs|]. intros Ht.
    destruct (DecorateEntryInOut_VarType_decorates
                (mkVarType vtbase name None) (resolved symbol later))
      as [_ H].
    apply (H symbol); [|done].
    destruct (quiet_DecorateEntryInOut_VarType (mkVarType vtbase name None)
                false (resolved symbol later)) as (_ & _ & _ & _ & Hq).
    unfold symbolRef_at. rewrite Hq. exact Hs.
  - intros later Hf. subst vt.
    by rewrite VisitVarType_eq, bool_decide_eq_true_2, Hf.
Qed.

Lemma declared_structure_resolves_witness :
  "S" ≠ "" ∧
  Fetch "S" Sample.with_S = Some (mkPtr 10 T_Structure) ∧
  VisitVarType Sample.dotted (Sample.type_S 21) Sample.with_S
    = Some (assign_symbolRef 21 (mkPtr 10 T_Structure) Sample.with_S) ∧
  Fetch "S" (register_Structure (Sample.at_ 11) "S" Sample.with_S)
    = Some (mkPtr 10 T_Structure) ∧
  reported (register_Structure (Sample.at_ 11) "S" Sample.with_S)
    = [SymTab.duplicate "S"].
Proof.
  assert ("S" ≠ "") as Hn by done.
  destruct (declared_structure_resolves Sample.dotted (Sample.at_ 10) "S"
              (Sample.at_ 21) Sample.start Hn) as (Hfree & _ & Hlater & _).
  destruct (Hfree eq_refl) as [Hf _].
  destruct (declared_structure_resolves Sample.dotted (Sample.at_ 11) "S"
              (Sample.at_ 21) Sample.with_S Hn) as (_ & Htaken & _ & _).
  assert (inner (symTable_ Sample.with_S) !! "S"
          = Some (mkPtr 10 T_Structure)) as Hin by (vm_compute; reflexivity).
  destruct (Htaken (mkPtr 10 T_Structure) Hin ltac:(done)) as [Hf2 Hr2].
  split; [exact Hn|]. split; [exact Hf|].
  split; [exact (proj1 (proj2 (Hlater Sample.with_S _ Hf)))|].
  split; [exact Hf2|exact Hr2].
Defined.

(** ** Calls in sequence *)

(** X12: what an earlier call left in the error flag, the logger and the
    reports has no influence on a call of [DecorateAST]: from two analyzers
    that agree on the symbol table, the tree and the entry-point marker, the
    call is undefined for both or returns for both, with the same result, the
    same decoration and the same new reports. *)
Theorem DecorateAST_ignores_earlier_errors FullVarIdent p entryPoint target
    version s1 s2 :
  symTable_ s1 = symTable_ s2 → tree s1 = tree s2 →
  isInsideEntryPoint_ s1 = isInsideEntryPoint_ s2 →
  match DecorateAST FullVarIdent (Some p) entryPoint target version s1,
        DecorateAST FullVarIdent (Some p) entryPoint target version s2 with
  | Some (b1, s1'), Some (b2, s2') =>
      b1 = b2 ∧ decoration s1' = decoration s2' ∧
      ∃ new, reported s1' = new ++ reported s1 ∧
             reported s2' = new ++ reported s2
  | None, None => True
  | _, _ => False
  end.
Proof.
  intros Ht Hr Hi. unfold DecorateAST.
  assert (agree (VisitProgram FullVarIdent p)) as Ha.
  { apply agree_visit_each, Forall_forall. intros n _. apply agree_all. }
  set (a1 := mkState (log_ s1) false (reported s1) entryPoint target version
               (address (prog_base p)) (isInsideEntryPoint_ s1) (symTable_ s1)
               (tree s1)).
  set (a2 := mkState (log_ s2) false (reported s2) entryPoint target version
               (address (prog_base p)) (isInsideEntryPoint_ s2) (symTable_ s2)
               (tree s2)).
  assert (decoration a1 = decoration a2) as Hd.
  { unfold decoration. simpl. by rewrite Ht, Hr, Hi. }
  specialize (Ha a1 a2 Hd).
  destruct (VisitProgram FullVarIdent p a1) as [s1'|] eqn:E1,
    (VisitProgram FullVarIdent p a2) as [s2'|] eqn:E2; try done.
  destruct Ha as (Hd' & new & R1 & R2).
  split; [|split; [done|by exists new]].
  apply (respects_VisitProgram _ _ _ diag_rel_invariant) in E1, E2.
  destruct E1 as (n1 & N1 & H1), E2 as (n2 & N2 & H2).
  rewrite R1 in N1. apply app_inv_tail in N1 as <-.
  rewrite R2 in N2. apply app_inv_tail in N2 as <-.
  by rewrite H1, H2.
Qed.

Lemma DecorateAST_ignores_earlier_errors_witness :
  let failed := Error "earlier" None Sample.start in
  symTable_ failed = symTable_ Sample.start ∧
  match DecorateAST Sample.dotted (Some Sample.two_params) "main" 0 0 failed,
        DecorateAST Sample.dotted (Some Sample.two_params) "main" 0 0
          Sample.start with
  | Some (b1, s1'), Some (b2, s2') =>
      b1 = b2 ∧ decoration s1' = decoration s2' ∧
      ∃ new, reported s1' = new ++ reported failed ∧
             reported s2' = new ++ reported Sample.start
  | None, None => True
  | _, _ => False
  end.
Proof.
  split; [reflexivity|].
  apply (DecorateAST_ignores_earlier_errors Sample.dotted Sample.two_params
           "main" 0 0 (Error "earlier" None Sample.start) Sample.start);
    reflexivity.
Defined.

(** ** Intrinsics and the walk *)

(** X13: the intrinsic flags follow the calls the walk passes.  When
    [DecorateAST] returns, the program has the flag [mulIntrinsicUsed]
    exactly if it had it before or the walk passed a function call whose
    full name is "mul", and the flag [interlockedIntrinsicsUsed] exactly if
    it had it before or the walk passed a call whose full name is one of the
    eight Interlocked names; on a program that comes without flags the flags
    say exactly whether the walk passed such a call.  A call of any other
    name changes nothing.  The calls the walk passes are those of [walked]:
    the index expressions of a called name are not among them. *)
Theorem intrinsic_flags FullVarIdent p entryPoint target version s b s' :
  DecorateAST FullVarIdent (Some p) entryPoint target version s
    = Some (b, s') →
  let calls := fp_calls (walked_Program FullVarIdent p) in
  let before := flags_at (programFlags (tree s)) (address (prog_base p)) in
  let after := flags_at (programFlags (tree s')) (address (prog_base p)) in
  (Program_mulIntrinsicUsed ∈ after ↔
   Program_mulIntrinsicUsed ∈ before ∨ "mul" ∈ calls) ∧
  (Program_interlockedIntrinsicsUsed ∈ after ↔
   Program_interlockedIntrinsicsUsed ∈ before ∨
   ∃ name, name ∈ calls ∧ name ∈ interlocked_names) ∧
  (before = ∅ →
   (Program_mulIntrinsicUsed ∈ after ↔ "mul" ∈ calls) ∧
   (Program_interlockedIntrinsicsUsed ∈ after ↔
    ∃ name, name ∈ calls ∧ name ∈ interlocked_names)) ∧
  (∀ name, name ≠ "mul" → name ∉ interlocked_names →
     intrinsic_flag name = None ∧ ∀ st, check_intrinsic name st = st).
Proof.
  intros H calls before after.
  destruct (DecorateAST_walk _ _ _ _ _ _ _ _ H)
    as (s0 & Ht & Hp & _ & [(_ & _ & Hflags & _) _]).
  assert (after = before ∪ call_flags (walked_Program FullVarIdent p)) as Ha.
  { subst after before. rewrite Hflags, Ht, Hp.
    by rewrite bool_decide_eq_true_2. }
  assert (Program_mulIntrinsicUsed ∈ call_flags (walked_Program FullVarIdent p)
          ↔ "mul" ∈ calls) as Hmul.
  { rewrite elem_of_call_flags. split.
    - intros (name & Hin & Hf). apply intrinsic_flag_mul in Hf. by subst.
    - intros Hin. exists "mul". split; [done|]. by apply intrinsic_flag_mul. }
  assert (Program_interlockedIntrinsicsUsed
            ∈ call_flags (walked_Program FullVarIdent p)
          ↔ ∃ name, name ∈ calls ∧ name ∈ interlocked_names) as Hil.
  { rewrite elem_of_call_flags. split.
    - intros (name & Hin & Hf). exists name. split; [done|].
      by apply intrinsic_flag_interlockedIntrinsicsUsed.
    - intros (name & Hin & Hf). exists name. split; [done|].
      by apply intrinsic_flag_interlockedIntrinsicsUsed. }
  rewrite Ha. split; [|split; [|split]].
  - rewrite elem_of_union, Hmul. done.
  - rewrite elem_of_union, Hil. done.
  - intros ->. rewrite !elem_of_union, Hmul, Hil. set_solver.
  - intros name Hm Hi. pose proof (intrinsic_flag_other name Hm Hi) as Hn.
    split; [done|]. intros st. unfold check_intrinsic. by rewrite Hn.
Qed.

Lemma intrinsic_flags_witness :
  DecorateAST Sample.dotted (Some Sample.with_calls) "main" 0 0 Sample.start
    = Some (true, Sample.end_of Sample.with_calls) ∧
  Program_mulIntrinsicUsed
    ∈ flags_at (programFlags (tree (Sample.end_of Sample.with_calls))) 1 ∧
  Program_interlockedIntrinsicsUsed
    ∉ flags_at (programFlags (tree (Sample.end_of Sample.with_calls))) 1.
Proof.
  assert (DecorateAST Sample.dotted (Some Sample.with_calls) "main" 0 0
            Sample.start = Some (true, Sample.end_of Sample.with_calls)) as H
    by (vm_compute; reflexivity).
  split; [exact H|].
  destruct (intrinsic_flags Sample.dotted Sample.with_calls "main" 0 0
              Sample.start true (Sample.end_of Sample.with_calls) H)
    as (_ & _ & Hclear & _).
  destruct (Hclear eq_refl) as [Hmul Hil]. split.
  - apply Hmul. apply (bool_decide_unpack _). by vm_compute.
  - intros Hin. apply Hil in Hin as (name & Hc & Hn).
    assert (Forall (λ n, n ∉ interlocked_names)
              (fp_calls (walked_Program Sample.dotted Sample.with_calls)))
      as HF by (apply (bool_decide_unpack _); by vm_compute).
    rewrite Forall_forall in HF. by apply (HF name).
Defined.
